(** * The share-chain store and the peer connection of the pool node

    A shallow embedding of
    - [src/p2pool/p2p/shares/Sharechain.ts] (module [Sharechain]),
    - the connection class [Node] (module [Node]), and
    - the coordinator [src/p2pool/p2p/Peer.ts] (module [Peer]),
    followed by the properties of the specification that are about them.

    JavaScript [Map]s are finite maps ([gmap]); arrays are lists; an event
    raised with [trigger] is appended to a log kept in the state; numbers
    that are heights or lengths are integers ([Z]). *)

From Stdlib Require Import ZArith Lia Bool Ascii String.
From Stdlib.Strings Require Import Byte.
From stdpp Require Import gmap strings list fin_maps pretty sorting.

Open Scope Z_scope.

(* ===================================================================== *)
(** * Sharechain.ts *)
(* ===================================================================== *)

Module Sharechain.

(** The attributes of a [BaseShare] that the store reads: [share.hash],
    [share.info.absheight], [share.info.data.previousShareHash] and
    [share.validity]. *)
Record BaseShare := mkShare {
  hash : string;
  absheight : Z;
  previousShareHash : string;
  validity : bool;
}.

#[global] Instance BaseShare_eq_dec : EqDecision BaseShare.
Proof. solve_decision. Defined.

Record Gap := mkGap {
  descendent : string;
  descendentHeight : Z;
  length : Z;
}.

(** The events of [Sharechain.Events] that [append] triggers, each with
    the arguments [trigger] is given. *)
Inductive ChainEvent :=
| NewestChanged (value : BaseShare)
| DeadArrived (deadShare : BaseShare)
| CandidateArrived (value : BaseShare)
| OrphansFound (orphans : list BaseShare)
| GapsFound (gaps : list Gap).

Definition BASE_CHAIN_LENGTH : Z := 24 * 60 * 60 / 10.
Definition MAX_CHAIN_LENGTH : Z := BASE_CHAIN_LENGTH * 2.

(** The fields of the class, and the log of the events it has triggered
    (oldest first). *)
Record t := mkChain {
  hashIndexer : gmap string Z;
  absheightIndexer : gmap Z (list BaseShare);
  newest : option BaseShare;
  oldest : option BaseShare;
  events : list ChainEvent;
}.

Definition init : t :=
  {| hashIndexer := ∅; absheightIndexer := ∅;
     newest := None; oldest := None; events := [] |}.

Definition set_hashIndexer (f : gmap string Z → gmap string Z) (c : t) : t :=
  {| hashIndexer := f (hashIndexer c); absheightIndexer := absheightIndexer c;
     newest := newest c; oldest := oldest c; events := events c |}.

Definition set_absheightIndexer
    (f : gmap Z (list BaseShare) → gmap Z (list BaseShare)) (c : t) : t :=
  {| hashIndexer := hashIndexer c; absheightIndexer := f (absheightIndexer c);
     newest := newest c; oldest := oldest c; events := events c |}.

Definition set_oldest (s : BaseShare) (c : t) : t :=
  {| hashIndexer := hashIndexer c; absheightIndexer := absheightIndexer c;
     newest := newest c; oldest := Some s; events := events c |}.

Definition trigger (e : ChainEvent) (c : t) : t :=
  {| hashIndexer := hashIndexer c; absheightIndexer := absheightIndexer c;
     newest := newest c; oldest := oldest c; events := events c ++ [e] |}.

(** [this.newest.set(share)]: [newest] is an [ObservableProperty] whose
    change handler, installed by the constructor, is
    [onNewestPropertyChanged], which triggers [newestChanged]. *)
Definition newest_set (s : BaseShare) (c : t) : t :=
  trigger (NewestChanged s)
    {| hashIndexer := hashIndexer c; absheightIndexer := absheightIndexer c;
       newest := Some s; oldest := oldest c; events := events c |}.

(** ** The array helpers *)

(** [Array.prototype.some] with a predicate on hashes. *)
Definition some (p : BaseShare → bool) (l : list BaseShare) : bool := existsb p l.
#[global] Arguments some : simpl never.

Definition same_hash (a b : BaseShare) : bool := String.eqb (hash a) (hash b).

(** [xs.except(ys, eq).toArray()] of the [kinq] package: the elements of
    [xs], in order, that are equal (by [eq]) to no element of [ys]. *)
Definition except (eq : BaseShare → BaseShare → bool)
    (xs ys : list BaseShare) : list BaseShare :=
  List.filter (fun x => negb (existsb (eq x) ys)) xs.

(** [xs.singleOrDefault(p, null)] of the [kinq] package, with LINQ's
    meaning: the only element that satisfies [p]; [null] when there is
    none; an error when there are several. *)
Inductive Single := SingleValue (s : BaseShare) | SingleDefault | SingleError.

Definition singleOrDefault (p : BaseShare → bool) (xs : list BaseShare) : Single :=
  match List.filter p xs with
  | [] => SingleDefault
  | [s] => SingleValue s
  | _ => SingleError
  end.

(** ** has, get (lines 95-113) *)

Definition has (c : t) (h : string) : bool := bool_decide (is_Some (hashIndexer c !! h)).

(** The argument of [get] is a hash (a JavaScript string) or a height (a
    number). *)
Inductive Id := IdHash (h : string) | IdHeight (n : Z).

Definition get (c : t) (id : Id) : option BaseShare :=
  let height :=
    match id with
    | IdHash h => hashIndexer c !! h
    | IdHeight n => Some n
    end in
  match height with
  | None => None
  | Some height =>
    match absheightIndexer c !! height with
    | None => None
    | Some [] => None
    | Some (s :: _) => Some s
    end
  end.

(** ** cleanDeprecations (lines 214-222) *)

Definition cleanDeprecations (c : t) : t :=
  match newest c, oldest c with
  | Some n, Some o =>
    if absheight n - absheight o <? MAX_CHAIN_LENGTH then c
    else
      match absheightIndexer c !! absheight o with
      | None | Some [] => c
      | Some deprecatedShares =>
        set_hashIndexer
          (fun m => foldl (fun m ds => delete (hash ds) m) m deprecatedShares)
          (set_absheightIndexer (delete (absheight o)) c)
      end
  | _, _ => c
  end.

(** ** append (lines 125-212) *)

(** What a call of [append] ends with: [return true], [return false], the
    bare [return;] (undefined), or the error of [singleOrDefault]. *)
Inductive Completion := ReturnTrue | ReturnFalse | ReturnUndefined | Throws.

Definition one_gap (share : BaseShare) : ChainEvent :=
  GapsFound [ {| descendent := hash share;
                 descendentHeight := absheight share; length := 1 |} ].

(** Lines 152-174. The new tip against the array one height below it: a
    gap, or the previous share moved to the front of the array and the
    others found to be orphans. *)
Definition check_previous (share : BaseShare) (c : t) : t * Completion :=
  match absheightIndexer c !! (absheight share - 1) with
  | None => (trigger (one_gap share) c, ReturnTrue)
  | Some previousShares =>
    if (Z.of_nat (List.length previousShares) <? 2) then (c, ReturnTrue)
    else
      match singleOrDefault
              (fun s => String.eqb (hash s) (previousShareHash share))
              previousShares with
      | SingleError => (c, Throws)
      | SingleValue verified =>
        let orphans := except same_hash previousShares [verified] in
        let c := if (0 <? Z.of_nat (List.length orphans))
                 then trigger (OrphansFound orphans) c else c in
        (set_absheightIndexer
           (<[absheight share - 1 := verified :: orphans]>) c, ReturnTrue)
      | SingleDefault => (trigger (one_gap share) c, ReturnTrue)
      end
  end.

(** Lines 146-175: the branch of [append] for a share above [newest]. *)
Definition append_newer (share : BaseShare) (c : t) : t * Completion :=
  let c := newest_set share c in
  let c := cleanDeprecations c in
  check_previous share c.

(** Lines 184-206: the branch of [append] for a share below [newest];
    [shares] is the array at the share's height, the share already
    pushed. *)
Definition append_older (share : BaseShare) (shares : list BaseShare) (c : t)
    : t * Completion :=
  if (Z.of_nat (List.length shares) <? 2) then (c, ReturnTrue)
  else
    let nextHeight := absheight share + 1 in
    match absheightIndexer c !! nextHeight with
    | None | Some [] => (c, ReturnUndefined)
    | Some nextShares =>
      if negb (some (fun s => String.eqb (previousShareHash s) (hash share))
                 nextShares)
      then (trigger (DeadArrived share) c, ReturnFalse)
      else
        let orphans := except same_hash shares [share] in
        let c := if (0 <? Z.of_nat (List.length orphans))
                 then trigger (OrphansFound orphans) c else c in
        (set_absheightIndexer (<[absheight share := share :: orphans]>) c,
         ReturnFalse)
    end.

(** Lines 131-135: the array at the share's height, created when the map
    has none. *)
Definition array_at (share : BaseShare) (c : t) : t :=
  match absheightIndexer c !! absheight share with
  | Some _ => c
  | None => set_absheightIndexer (<[absheight share := []]>) c
  end.

(** Lines 141-144: [shares.push(share)] changes the array held by the
    map; then the hash is indexed and [oldest] lowered. [shares] is the
    array after the push. *)
Definition store_share (share : BaseShare) (shares : list BaseShare) (c : t) : t :=
  let c := set_absheightIndexer (<[absheight share := shares]>) c in
  let c := set_hashIndexer (<[hash share := absheight share]>) c in
  match oldest c with
  | Some o => if absheight share <? absheight o then set_oldest share c else c
  | None => c
  end.

(** Lines 146-211: the branches on the height of the share against
    [newest]; without a [newest], the share becomes [newest], and [oldest]
    when there is none. *)
Definition append_branches (share : BaseShare) (shares : list BaseShare) (c : t)
    : t * Completion :=
  match newest c with
  | Some n =>
    if absheight n <? absheight share then append_newer share c
    else if absheight share =? absheight n
    then (trigger (CandidateArrived share) c, ReturnTrue)
    else append_older share shares c
  | None =>
    let c := newest_set share c in
    let c := match oldest c with None => set_oldest share c | Some _ => c end in
    (c, ReturnTrue)
  end.

Definition append (c : t) (share : BaseShare) : t * Completion :=
  if negb (validity share) then (c, ReturnFalse)
  else
    let c := array_at share c in
    let shares := default [] (absheightIndexer c !! absheight share) in
    if some (fun s => String.eqb (hash s) (hash share)) shares
    then (c, ReturnFalse)
    else
      let shares := shares ++ [share] in
      append_branches share shares (store_share share shares c).

(** [add]: [append] each share in turn; an error ends the loop. *)
Fixpoint add (c : t) (shares : list BaseShare) : t * bool :=
  match shares with
  | [] => (c, true)
  | share :: rest =>
    match append c share with
    | (c', Throws) => (c', false)
    | (c', _) => add c' rest
    end
  end.

(** ** subchain (lines 224-238) *)

Inductive Direction := backward | forward.

(** The shares the generator yields, in order. [length] is the number of
    rounds [while (length--)] can make; [if (!absheight) return] leaves
    at once for a hash that is not indexed and for the height [0]. *)
Fixpoint subchain_loop (c : t) (absheight0 : Z) (step : Z) (length : nat)
    : list BaseShare :=
  match length with
  | O => []
  | S length =>
    match absheightIndexer c !! absheight0 with
    | None | Some [] => []
    | Some (share :: _) =>
      share :: subchain_loop c (absheight share + step) step length
    end
  end.

Definition subchain (c : t) (startHash : string) (length : nat)
    (direction : Direction) : list BaseShare :=
  match hashIndexer c !! startHash with
  | None => []
  | Some absheight0 =>
    if absheight0 =? 0 then []
    else
      let step := match direction with backward => -1 | forward => 1 end in
      subchain_loop c absheight0 step length
  end.

(** ** length, size (lines 240-255)

    The getter [length]: the number of heights, from that of [newest]
    down, that the map has without a break. The loop can go round once for
    each key of the map and no more, which is the number of rounds given
    to [length_loop]. *)
Fixpoint length_loop (rounds : nat) (ai : gmap Z (list BaseShare)) (height : Z)
    : nat :=
  match rounds with
  | O => O
  | S rounds =>
    if bool_decide (is_Some (ai !! height))
    then S (length_loop rounds ai (height - 1))
    else O
  end.

Definition chain_length (c : t) : nat :=
  match newest c with
  | None => O
  | Some n =>
    length_loop (size (absheightIndexer c)) (absheightIndexer c) (absheight n)
  end.

Definition chain_size (c : t) : nat := size (absheightIndexer c).

(** ** verify (lines 258-285)

    The loop of [verify]: the count [verified] when it breaks. As for
    [length], a round is given for each key of the map. *)
Fixpoint verify_loop (rounds : nat) (ai : gmap Z (list BaseShare))
    (hash0 : string) (absheight0 : Z) : nat :=
  match rounds with
  | O => O
  | S rounds =>
    match ai !! absheight0 with
    | None | Some [] => O
    | Some (share :: _) =>
      if negb (String.eqb hash0 (hash share)) then O
      else S (verify_loop rounds ai (previousShareHash share) (absheight share - 1))
    end
  end.

Definition verify_count (c : t) : nat :=
  match newest c with
  | None => O
  | Some n =>
    verify_loop (size (absheightIndexer c)) (absheightIndexer c)
      (hash n) (absheight n)
  end.

(** The two flags of the class that [verify] writes. *)
Record Flags := mkFlags {
  calculatable : bool;
  verified : bool;
}.

(** [verify]: the flags it leaves, the argument of [chainCalculatable] when
    it triggers that event, and the value it returns. *)
Definition verify (c : t) (flags : Flags) : Flags * option Z * bool :=
  match newest c with
  | None => (flags, None, false)
  | Some _ =>
    let count := verify_count c in
    let calculatable' :=
      if calculatable flags then true
      else (count =? chain_length c)%nat
           && (BASE_CHAIN_LENGTH <=? Z.of_nat count) in
    let triggered :=
      if negb (calculatable flags) && calculatable'
      then Some (Z.of_nat count) else None in
    let verified' := (count =? chain_length c)%nat in
    ({| calculatable := calculatable'; verified := verified' |},
     triggered, verified')
  end.

(** ** checkGaps (lines 287-315)

    [Array.from(this.absheightIndexer).sort((a, b) => b[0] - a[0])]: the
    entries of the map, highest first. *)
Definition higher_first (a b : Z * list BaseShare) : Prop := fst b ≤ fst a.

#[global] Instance higher_first_dec : RelDecision higher_first.
Proof. intros a b. unfold higher_first. apply _. Defined.

Definition entries_descending (ai : gmap Z (list BaseShare))
    : list (Z * list BaseShare) :=
  merge_sort higher_first (map_to_list ai).

(** The loop over the entries; [None] is the TypeError of reading [[0]] of
    an array that is missing or [.hash] of an element that is. *)
Fixpoint checkGaps_loop (ai : gmap Z (list BaseShare))
    (entries : list (Z * list BaseShare)) (gaps : list Gap)
    (descendentHeight0 : Z) (ancestorHash : string) : option (list Gap) :=
  match entries with
  | [] => Some gaps
  | (ancestorHeight, shares) :: entries =>
    let linked :=
      if ancestorHeight + 1 =? descendentHeight0
      then match shares with
           | share :: _ => Some (String.eqb (hash share) ancestorHash)
           | [] => None
           end
      else Some false in
    match linked with
    | None => None
    | Some linked =>
      let pushed :=
        if linked then Some gaps
        else
          match ai !! descendentHeight0 with
          | Some (first :: _) =>
            Some (gaps ++ [ {| descendent := hash first;
                               descendentHeight := descendentHeight0;
                               length := descendentHeight0 - ancestorHeight |} ])
          | _ => None
          end in
      match pushed, shares with
      | Some gaps, share :: _ =>
        checkGaps_loop ai entries gaps ancestorHeight (previousShareHash share)
      | _, _ => None
      end
    end
  end.

(** [checkGaps]: the store, with the event when there are gaps, and what
    is returned: the gaps, or undefined ([None]) without a [newest]. The
    outer [None] is the TypeError. *)
Definition checkGaps (c : t) : option (t * option (list Gap)) :=
  match newest c with
  | None => Some (c, None)
  | Some n =>
    match checkGaps_loop (absheightIndexer c)
            (drop 1 (entries_descending (absheightIndexer c))) []
            (absheight n) (previousShareHash n) with
    | None => None
    | Some gaps =>
      let gaps :=
        match oldest c with
        | Some o =>
          if absheight n - absheight o <? BASE_CHAIN_LENGTH
          then gaps ++ [ {| descendent := hash o;
                            descendentHeight := absheight o;
                            length := BASE_CHAIN_LENGTH
                                      - (absheight n - absheight o) |} ]
          else gaps
        | None => gaps
        end in
      let c := if (0 <? Z.of_nat (List.length gaps))
               then trigger (GapsFound gaps) c else c in
      Some (c, Some gaps)
    end
  end.

End Sharechain.

(* ===================================================================== *)
(** * Bytes, SHA-256 and hexadecimal text *)
(* ===================================================================== *)

(** A Node.js [Buffer]. *)
Abbreviation Buffer := (list byte).

#[global] Instance byte_eq_dec : EqDecision byte.
Proof.
  intros x y. destruct (decide (Byte.to_N x = Byte.to_N y)) as [H | H].
  - left. apply (f_equal Byte.of_N) in H. rewrite !Byte.of_to_N in H. congruence.
  - right. congruence.
Defined.

Module SHA256.

Local Open Scope N_scope.

Definition w32 (x : N) : N := x mod 2 ^ 32.
Definition add32 (x y : N) : N := w32 (x + y).
Definition rotr (n x : N) : N := N.lor (N.shiftr x n) (w32 (N.shiftl x (32 - n))).
Definition not32 (x : N) : N := N.lxor x 0xffffffff.

Definition Ch (x y z : N) : N := N.lxor (N.land x y) (N.land (not32 x) z).
Definition Maj (x y z : N) : N :=
  N.lxor (N.lxor (N.land x y) (N.land x z)) (N.land y z).
Definition Sigma0 (x : N) : N := N.lxor (N.lxor (rotr 2 x) (rotr 13 x)) (rotr 22 x).
Definition Sigma1 (x : N) : N := N.lxor (N.lxor (rotr 6 x) (rotr 11 x)) (rotr 25 x).
Definition sigma0 (x : N) : N := N.lxor (N.lxor (rotr 7 x) (rotr 18 x)) (N.shiftr x 3).
Definition sigma1 (x : N) : N := N.lxor (N.lxor (rotr 17 x) (rotr 19 x)) (N.shiftr x 10).

(** The constants of FIPS 180-4: the first 32 bits of the fractional parts
    of the cube roots of the first 64 primes, and of the square roots of
    the first 8. *)
Definition is_prime (n : N) : bool :=
  (1 <? n) && forallb (fun d => negb (n mod d =? 0)) (List.map N.of_nat (seq 2 (N.to_nat n - 2))).

Definition primes : list N :=
  Eval vm_compute in List.filter is_prime (List.map N.of_nat (seq 2 310)).

(** The integer part of the cube root, bit by bit from bit [bits - 1]. *)
Fixpoint cube_root (bits : nat) (x acc : N) : N :=
  match bits with
  | O => acc
  | S bits =>
    let next := acc + 2 ^ N.of_nat bits in
    if next * next * next <=? x then cube_root bits x next
    else cube_root bits x acc
  end.

Definition K : list N :=
  Eval vm_compute in
    List.map (fun p => w32 (cube_root 40 (p * 2 ^ 96) 0)) primes.

Definition H0 : list N :=
  Eval vm_compute in
    List.map (fun p => w32 (N.sqrt (p * 2 ^ 64))) (take 8 primes).

(** Big-endian bytes of a number, [n] of them. *)
Fixpoint be_bytes (n : nat) (x : N) : list N :=
  match n with
  | O => []
  | S n => be_bytes n (x / 256) ++ [x mod 256]
  end.

Definition be_word (bs : list N) : N := foldl (fun acc b => acc * 256 + b) 0 bs.

(** The message, the byte [0x80], zero bytes up to 56 modulo 64, and the
    length in bits as eight bytes. *)
Definition pad (msg : list N) : list N :=
  let len := List.length msg in
  let zeros := ((64 - (len + 9) mod 64) mod 64)%nat in
  msg ++ [0x80] ++ repeat 0 zeros ++ be_bytes 8 (8 * N.of_nat len).

Fixpoint words (n : nat) (bs : list N) : list N :=
  match n with
  | O => []
  | S n => be_word (take 4 bs) :: words n (drop 4 bs)
  end.

(** The message schedule, newest word first: [w] holds W[t-1], W[t-2], ... *)
Fixpoint schedule (n : nat) (w : list N) : list N :=
  match n with
  | O => w
  | S n =>
    let at_ i := nth i w 0 in
    schedule n
      (add32 (add32 (sigma1 (at_ 1%nat)) (at_ 6%nat))
             (add32 (sigma0 (at_ 14%nat)) (at_ 15%nat)) :: w)
  end.

Definition round (st : list N) (kw : N * N) : list N :=
  match st with
  | [a; b; c; d; e; f; g; h] =>
    let t1 := add32 (add32 (add32 h (Sigma1 e)) (add32 (Ch e f g) (fst kw))) (snd kw) in
    let t2 := add32 (Sigma0 a) (Maj a b c) in
    [add32 t1 t2; a; b; c; add32 d t1; e; f; g]
  | _ => st
  end.

Definition compress (st : list N) (block : list N) : list N :=
  let w := rev (schedule 48 (rev (words 16 block))) in
  let st' := foldl round st (combine K w) in
  zip_with add32 st st'.

Fixpoint blocks (n : nat) (st : list N) (bs : list N) : list N :=
  match n with
  | O => st
  | S n => blocks n (compress st (take 64 bs)) (drop 64 bs)
  end.

Definition digest (msg : list N) : list N :=
  let p := pad msg in
  concat (List.map (be_bytes 4) (blocks (List.length p / 64) H0 p)).

Definition sha256 (data : Buffer) : Buffer :=
  List.map (fun b => default "000"%byte (Byte.of_N b))
    (digest (List.map Byte.to_N data)).

End SHA256.

(** [Utils.sha256] hashes a string or a buffer. *)
Definition sha256 (data : Buffer) : Buffer := SHA256.sha256 data.

(** Modelled from the spec: [utils.sha256d] of [misc/Utils], which is not
    among the sources; the spec's frame layout calls the checksum the first
    four bytes of double-SHA256 of the payload. *)
Definition sha256d (data : Buffer) : Buffer := sha256 (sha256 data).

Definition hex_digit (d : N) : ascii :=
  nth (N.to_nat d) (list_ascii_of_string "0123456789abcdef") "0"%char.

(** [buffer.toString('hex')]: two lower-case digits for each byte. *)
Definition to_hex (b : Buffer) : string :=
  string_of_list_ascii
    (concat (List.map (fun x => [hex_digit (Byte.to_N x / 16);
                                 hex_digit (Byte.to_N x mod 16)]) b)).

(** [buffer.readUInt32LE(offset)]. *)
Definition readUInt32LE (b : Buffer) (offset : nat) : N :=
  foldr (fun x acc => Byte.to_N x + 256 * acc)%N 0%N (take 4 (drop offset b)).

(** The bytes of a string (UTF-8; the strings here are ASCII). *)
Definition bytes_of_string (s : string) : Buffer := list_byte_of_string s.

(* ===================================================================== *)
(** * Node: one peer connection *)
(* ===================================================================== *)

Module Node.

(** [Node.Events] that the modelled methods trigger, with their arguments. *)
Inductive NodeEvent :=
| BadPeer (message : string)
| UnknownCommand (cmd : string)
| End_
| HaveTx (txHashes : list string)
| LosingTx (txHashes : list string).

(** What the connection does to its [net.Socket]: [end()] has been
    called, and the events that have a listener attached. *)
Record Socket := mkSocket {
  ended : bool;
  listeners : list string;
}.

Definition new_Socket : Socket := {| ended := false; listeners := [] |}.

(** The fields of the class and the log of triggered events (oldest
    first). [remoteTxHashs] is a JavaScript [Set]: its elements in
    insertion order, none twice. *)
Record t := mkNode {
  socket : option Socket;
  remoteTxHashs : list string;
  isJs2PoolPeer : bool;
  peerPort : Z;
  events : list NodeEvent;
}.

Definition set_socket (s : option Socket) (n : t) : t :=
  {| socket := s; remoteTxHashs := remoteTxHashs n;
     isJs2PoolPeer := isJs2PoolPeer n; peerPort := peerPort n;
     events := events n |}.

Definition set_remoteTxHashs (l : list string) (n : t) : t :=
  {| socket := socket n; remoteTxHashs := l;
     isJs2PoolPeer := isJs2PoolPeer n; peerPort := peerPort n;
     events := events n |}.

Definition trigger (e : NodeEvent) (n : t) : t :=
  {| socket := socket n; remoteTxHashs := remoteTxHashs n;
     isJs2PoolPeer := isJs2PoolPeer n; peerPort := peerPort n;
     events := events n ++ [e] |}.

(** [Set.prototype.add] and [Set.prototype.delete]. *)
Definition Set_add (h : string) (s : list string) : list string :=
  if bool_decide (h ∈ s) then s else s ++ [h].

Definition Set_delete (h : string) (s : list string) : list string :=
  List.filter (fun x => negb (String.eqb x h)) s.

(** ** Sockets (lines 98-138) *)

(** [setTimeout] with a callback listens to ['timeout']; then the two
    [once] listeners. *)
Definition initSocket (s : Socket) (n : t) : t :=
  set_socket
    (Some {| ended := ended s;
             listeners := listeners s ++ ["timeout"; "end"; "error"]%string |}) n.

Definition close (n : t) : t :=
  match socket n with
  | None => n
  | Some s =>
    let s := {| ended := true; listeners := listeners s |} in   (* socket.end() *)
    let s := {| ended := ended s; listeners := [] |} in  (* removeAllListeners() *)
    trigger End_ (set_socket (Some s) n)
  end.

Definition installSocket (s : Socket) (n : t) : t := initSocket s (close n).

(** ** handleHave_tx, handleLosing_tx (lines 240-259)

    The argument is the decoded message, [Have_tx.fromBuffer(payload)];
    the message codecs are not among the sources. *)

(** [while (size > 10) delete the first key]. *)
Fixpoint evict (s : list string) : list string :=
  match s with
  | [] => []
  | value :: rest =>
    if (10 <? Z.of_nat (List.length s)) then evict rest else s
  end.

Definition handleHave_tx (txHashes : list string) (n : t) : t :=
  let n := trigger (HaveTx txHashes) n in
  let n := set_remoteTxHashs (evict (remoteTxHashs n)) n in
  set_remoteTxHashs (foldl (fun s h => Set_add h s) (remoteTxHashs n) txHashes) n.

Definition handleLosing_tx (txHashes : list string) (n : t) : t :=
  let n := trigger (LosingTx txHashes) n in
  set_remoteTxHashs (foldl (fun s h => Set_delete h s) (remoteTxHashs n) txHashes) n.

(** ** Receiving frames (lines 140-192) *)

(** Modelled from the spec: [PROTOCOL_HEAD_LENGTH] of [Message.ts], which is
    not among the sources; the spec gives the header 28 bytes. *)
Definition PROTOCOL_HEAD_LENGTH : nat := 28.

(** [readFlowingBytesAsync]: [stream] is the data the socket will deliver,
    one buffer for each ['data'] event. The result is [data], [lopped] and
    the data not yet delivered; [None] when the stream ends before
    [amount] bytes have come, and the promise stays pending. *)
Definition resolve_read (amount : nat) (buff : Buffer) : Buffer * option Buffer :=
  (take amount buff,
   if (amount <? List.length buff)%nat then Some (drop amount buff) else None).

Fixpoint readData (stream : list Buffer) (amount : nat) (buff : Buffer)
    : option (Buffer * option Buffer * list Buffer) :=
  if (amount <=? List.length buff)%nat
  then Some (resolve_read amount buff, stream)
  else
    match stream with
    | [] => None
    | data :: stream => readData stream amount (buff ++ data)
    end.

Definition readFlowingBytes (stream : list Buffer) (amount : nat)
    (preRead : option Buffer) : option (Buffer * option Buffer * list Buffer) :=
  readData stream amount (default [] preRead ++ []).

(** [buffer.toString().replace(/\0+$/, '')]. *)
Definition strip_trailing_NUL (s : list ascii) : list ascii :=
  foldr (fun c rest =>
           if bool_decide (c = "000"%char) && bool_decide (rest = [])
           then [] else c :: rest) [] s.

Definition command_of (data : Buffer) : string :=
  string_of_list_ascii
    (strip_trailing_NUL
       (List.map ascii_of_byte (take 12 (drop 8 data)))).

(** How one call of [beginReceivingMessagesAsync] ends. *)
Inductive Outcome :=
| Pending                                (* a read never completes *)
| AssertionError                         (* [assert.ok(false)] throws *)
| NextTick (remain : option Buffer).     (* returns; the next call is queued *)

Section Receiving.

(** [Message.magic], and the handlers of the commands whose payload the
    message codecs decode. *)
Variable magic : Buffer.
Variable msgHandlers : string → option (Buffer → t → t).

Definition beginReceivingMessages (n : t) (stream : list Buffer)
    (preBuffer : option Buffer) : t * list Buffer * Outcome :=
  match readFlowingBytes stream PROTOCOL_HEAD_LENGTH preBuffer with
  | None => (n, [], Pending)
  | Some (data, lopped, stream) =>
    if negb (bool_decide (take 8 data = magic)) then
      let n := trigger (BadPeer "Bad magic number") n in
      let n := close n in
      (n, stream, AssertionError)
    else
      let command := command_of data in
      let length := readUInt32LE data 20 in
      let checksum := readUInt32LE data 24 in
      match readFlowingBytes stream (N.to_nat length) lopped with
      | None => (n, [], Pending)
      | Some (payload, remain, stream) =>
        if negb (readUInt32LE (sha256d payload) 0 =? checksum)%N then
          let n := trigger (BadPeer "Bad checksum") n in
          let n := close n in
          (n, stream, AssertionError)
        else
          let n :=
            match msgHandlers command with
            | Some handler => handler payload n
            | None => trigger (UnknownCommand command) n
            end in
          (n, stream, NextTick remain)
      end
  end.


End Receiving.

End Node.

(* ===================================================================== *)
(** * Peer.ts: the coordinator *)
(* ===================================================================== *)

Module Peer.

Import Sharechain.

(** ** The [bignum] package

    [new Bignum(text, 16)] reads hexadecimal digits; [toString(16)] writes
    the number as OpenSSL's [BN_bn2hex] does, in lower case: whole bytes,
    most significant first, no leading zero byte, and ["0"] for zero. *)
Definition hex_value (c : ascii) : N :=
  let n := N_of_ascii c in
  (if (48 <=? n) && (n <=? 57) then n - 48
   else if (97 <=? n) && (n <=? 102) then n - 87
   else if (65 <=? n) && (n <=? 70) then n - 55
   else 0)%N.

Definition Bignum_of_hex (s : string) : N :=
  foldl (fun acc c => acc * 16 + hex_value c)%N 0%N (list_ascii_of_string s).

Fixpoint bytes_of_N (fuel : nat) (x : N) : list N :=
  match fuel with
  | O => []
  | S fuel => if (x =? 0)%N then [] else bytes_of_N fuel (x / 256)%N ++ [(x mod 256)%N]
  end.

Definition Bignum_toString16 (x : N) : string :=
  if (x =? 0)%N then "0"%string
  else
    string_of_list_ascii
      (concat (List.map (fun b => [hex_digit (b / 16); hex_digit (b mod 16)])
                 (bytes_of_N (N.to_nat (N.size x)) x))).

(** ** Messages and state *)

Record TypeSharereq := mkSharereq {
  id : N;
  hashes : list string;
  parents : Z;
}.

(** [reply.wrapper.shares.map(s => s.contents)] is kept as [contents]. *)
Record TypeSharereply := mkSharereply {
  reply_id : N;
  result : Z;
  contents : list BaseShare;
}.

(** The fields of a [Node] the coordinator reads. *)
Record PeerNode := mkPeerNode {
  tag : string;
  isJs2PoolPeer : bool;
}.

Section Coordinator.

(** The chain the coordinator holds is [../chain/Sharechain], a store
    with the operations [has], [add], [fix] and [checkGaps]; it is not
    among the sources. An operation returns the store and the [gapsFound]
    events it triggered, which reach [handleGapsFound] before it returns.
    [MathEx.shuffle] is not among the sources either. *)
Context {Chain : Type}.
Variable chain_has : Chain → string → bool.
Variable chain_add : Chain → list BaseShare → Chain * list (list Gap).
Variable chain_fix : Chain → Chain * list (list Gap).
Variable chain_checkGaps : Chain → Chain * list (list Gap).
Variable shuffle : list Gap → list Gap.

(** The fields of the class that the two handlers use; [peers] holds the
    values of the map in insertion order, [sent] the [sharereq] messages
    handed to [sendSharereqAsync], each with the tag of its receiver. *)
Record t := mkPeer {
  sharechain : Chain;
  pendingShareRequests : gset string;
  peers : list PeerNode;
  sent : list (string * TypeSharereq);
}.

Definition set_sharechain (c : Chain) (p : t) : t :=
  {| sharechain := c; pendingShareRequests := pendingShareRequests p;
     peers := peers p; sent := sent p |}.

Definition set_pending (f : gset string → gset string) (p : t) : t :=
  {| sharechain := sharechain p;
     pendingShareRequests := f (pendingShareRequests p);
     peers := peers p; sent := sent p |}.

Definition send (node : PeerNode) (req : TypeSharereq) (p : t) : t :=
  {| sharechain := sharechain p;
     pendingShareRequests := pendingShareRequests p;
     peers := peers p; sent := sent p ++ [(tag node, req)] |}.

(** [orderByDescending(p => p.isJs2PoolPeer)]: a stable sort. *)
Definition js2pool_first (l : list PeerNode) : list PeerNode :=
  List.filter isJs2PoolPeer l ++ List.filter (fun p => negb (isJs2PoolPeer p)) l.

Definition requestId_of (gap : Gap) : string :=
  to_hex (sha256 (bytes_of_string
                    (descendent gap ++ "-" ++ pretty (length gap)))).
#[global] Arguments requestId_of : simpl never.

(** One round of the loop over the gaps (lines 83-97). *)
Definition request_gap (sorted : list PeerNode) (p : t) (gap : Gap) : t :=
  let requestId := requestId_of gap in
  if bool_decide (requestId ∈ pendingShareRequests p) then p
  else
    let p :=
      foldl (fun p node =>
               send node
                 {| id := Bignum_of_hex requestId;
                    hashes := [descendent gap];
                    parents := Z.min (length gap)
                                 (if isJs2PoolPeer node then 250 else 79) |} p)
            p (take 8 sorted) in
    set_pending (fun s => {[requestId]} ∪ s) p.

(** Lines 74-98. *)
Definition handleGapsFound (p : t) (gaps : list Gap) : t :=
  if bool_decide (peers p = []) then p
  else if bool_decide (gaps = []) then p
  else
    let sorted := js2pool_first (peers p) in
    let randomGaps :=
      if (1 <? Z.of_nat (List.length gaps)) then shuffle gaps else gaps in
    foldl (request_gap sorted) p randomGaps.

(** A chain operation, and the delivery of the events it triggered. *)
Definition on_chain (op : Chain → Chain * list (list Gap)) (p : t) : t :=
  let '(c, found) := op (sharechain p) in
  foldl handleGapsFound (set_sharechain c p) found.

(** Lines 232-252: [handleSharereply], up to its return; the work queued
    with [process.nextTick] runs later. [saveShares] is the external
    persister. *)
Definition handleSharereply (p : t) (reply : TypeSharereply) : t :=
  if negb (result reply =? 0) then on_chain chain_checkGaps p
  else
    let shares :=
      List.filter
        (fun share => validity share && negb (chain_has (sharechain p) (hash share)))
        (contents reply) in
    let p := if bool_decide (shares = []) then on_chain chain_fix p else p in
    let p := on_chain (fun c => chain_add c shares) p in
    set_pending (fun s => s ∖ {[Bignum_toString16 (reply_id reply)]}) p.

End Coordinator.

Arguments t : clear implicits.

Section Requests.

(** [subchain] of the chain the coordinator holds: the shares the
    generator yields for a start hash, a length and a direction. *)
Context {Chain : Type}.
Variable chain_subchain : Chain → string → Z → Direction → list BaseShare.

(** The inner loop of [handleSharereq] (lines 216-219): the shares the
    generator yields before the first whose hash is among the stops. *)
Fixpoint until_stop (stops : list string) (shares : list BaseShare)
    : list BaseShare :=
  match shares with
  | [] => []
  | share :: shares =>
    if bool_decide (hash share ∈ stops) then []
    else share :: until_stop stops shares
  end.

(** [500 / request.hashes.length | 0]: the quotient cut to an integer;
    with no hash the division gives [Infinity], which [| 0] turns to 0. *)
Definition shares_per_hash (hashes : list string) : Z :=
  if bool_decide (hashes = []) then 0 else 500 / Z.of_nat (List.length hashes).

(** Lines 210-230: the reply handed to [sendSharereplyAsync]. [stops] is
    [request.stops], which the requests of [handleGapsFound] leave out. *)
Definition handleSharereq (c : Chain) (sender : PeerNode)
    (request : TypeSharereq) (stops : list string) : TypeSharereply :=
  let parents :=
    Z.min (Z.min (parents request) (shares_per_hash (hashes request)))
          (if isJs2PoolPeer sender then 500 else 100) in
  let shares :=
    concat (List.map
              (fun hash => until_stop stops (chain_subchain c hash parents backward))
              (hashes request)) in
  if bool_decide (shares = [])
  then {| reply_id := id request; result := 2; contents := [] |}
  else {| reply_id := id request; result := 0; contents := shares |}.

End Requests.

End Peer.

(* ===================================================================== *)
(** * SHA-256 on the standard test messages *)
(* ===================================================================== *)

Example sha256_abc :
  to_hex (sha256 (bytes_of_string "abc"))
  = "ba7816bf8f01cfea414140de5dae2223b00361a396177a9cb410ff61f20015ad"%string.
Proof. vm_compute. reflexivity. Qed.

Example sha256_empty :
  to_hex (sha256 [])
  = "e3b0c44298fc1c149afbf4c8996fb92427ae41e4649b934ca495991b7852b855"%string.
Proof. vm_compute. reflexivity. Qed.

(** A message of two blocks. *)
Example sha256_two_blocks :
  to_hex (sha256 (bytes_of_string
            "abcdbcdecdefdefgefghfghighijhijkijkljklmklmnlmnomnopnopq"))
  = "248d6a61d20638b8e5c026930c3e6039a33ce45964ff2167f6ecedd419db06c1"%string.
Proof. vm_compute. reflexivity. Qed.

(* ===================================================================== *)
(** * Properties of the share-chain store *)
(* ===================================================================== *)

Module SharechainProperties.

Import Sharechain.

(** ** Vocabulary *)

(** The store after a sequence of [append] calls, each on the store the
    call before left. *)
Definition appends (c : t) (shares : list BaseShare) : t :=
  foldl (λ c share, fst (append c share)) c shares.

(** The shares stored at a height; none when the map has no array. *)
Definition shares_at (c : t) (height : Z) : list BaseShare :=
  default [] (absheightIndexer c !! height).

(** ** Stores used as examples *)

Definition share_a : BaseShare := mkShare "a" 100 "" true.
Definition share_b : BaseShare := mkShare "b" 101 "a" true.
Definition share_c : BaseShare := mkShare "c" 200 "b" true.
Definition share_d : BaseShare := mkShare "d" 100 "" true.

(** Heights 100 and 101 hold one share each and [newest] is at 200. *)
Definition store_200 : t := appends init [share_a; share_b; share_c].

(** ** Helper lemmas on the array helpers *)

Lemma some_true (p : BaseShare → bool) (l : list BaseShare) :
  some p l = true ↔ ∃ s, s ∈ l ∧ p s = true.
Proof.
  unfold some. rewrite existsb_exists.
  split; intros (s & Hs & Hp); exists s; split; auto; by apply list_elem_of_In.
Qed.

Lemma some_false (p : BaseShare → bool) (l : list BaseShare) :
  some p l = false ↔ ∀ s, s ∈ l → p s = false.
Proof.
  split.
  - intros H s Hs. destruct (p s) eqn:E; [| done].
    assert (some p l = true) by (apply some_true; eauto). congruence.
  - intros H. destruct (some p l) eqn:E; [| done].
    apply some_true in E as (s & Hs & Hp). rewrite (H s Hs) in Hp. done.
Qed.

Lemma length_app_one_ge_2 (l : list BaseShare) (s : BaseShare) :
  l ≠ [] → (Z.of_nat (List.length (l ++ [s])) <? 2) = false.
Proof.
  intros Hl. destruct l as [| x l]; [done |].
  apply Z.ltb_ge. rewrite length_app. simpl. lia.
Qed.

Lemma array_at_present (c : t) (s : BaseShare) (shares : list BaseShare) :
  absheightIndexer c !! absheight s = Some shares → array_at s c = c.
Proof. intros H. unfold array_at. by rewrite H. Qed.

Lemma array_at_shares (c : t) (s : BaseShare) :
  default [] (absheightIndexer (array_at s c) !! absheight s)
  = default [] (absheightIndexer c !! absheight s).
Proof.
  unfold array_at. destruct (absheightIndexer c !! absheight s) eqn:E.
  - by rewrite E.
  - simpl. by rewrite lookup_insert_eq.
Qed.

Lemma store_share_fields (s : BaseShare) (l : list BaseShare) (c : t) :
  hashIndexer (store_share s l c) = <[hash s := absheight s]> (hashIndexer c)
  ∧ absheightIndexer (store_share s l c)
    = <[absheight s := l]> (absheightIndexer c)
  ∧ newest (store_share s l c) = newest c
  ∧ events (store_share s l c) = events c.
Proof.
  unfold store_share. simpl. destruct (oldest c) as [o |]; simpl;
    [destruct (absheight s <? absheight o) |]; done.
Qed.

(** ** Duplicates *)

(** C8: a share whose hash is already in the array at its height is
    rejected: [append] returns false and the store, with its two indexes,
    [newest], [oldest] and the log of events, is the one before the
    call. *)
Theorem append_duplicate_is_rejected
    (c : t) (s : BaseShare) (shares : list BaseShare) :
  absheightIndexer c !! absheight s = Some shares →
  (∃ s', s' ∈ shares ∧ hash s' = hash s) →
  append c s = (c, ReturnFalse).
Proof.
  intros Hshares (s' & Hin & Hhash). unfold append.
  destruct (validity s); simpl; [| done].
  rewrite (array_at_present _ _ _ Hshares), Hshares. simpl.
  assert (some (λ x, String.eqb (hash x) (hash s)) shares = true) as ->; [| done].
  apply some_true. exists s'. split; [done |]. by apply String.eqb_eq.
Qed.

Lemma append_duplicate_is_rejected_witness :
  append (appends init [share_a]) share_a
  = (appends init [share_a], ReturnFalse).
Proof.
  apply (append_duplicate_is_rejected _ share_a [share_a]).
  - vm_compute. reflexivity.
  - exists share_a. split; [apply list_elem_of_here | reflexivity].
Defined.

(** ** Dead shares *)

(** The premises of the dead-share case: [D] is valid, lies below
    [newest], the array at its height holds other shares and none with its
    hash, and the array one height up is non-empty with no share that
    names [D] as its previous share. *)
Definition dead_share_case (c : t) (D : BaseShare) : Prop :=
  validity D = true
  ∧ (∃ n, newest c = Some n ∧ absheight D < absheight n)
  ∧ (∃ shares, absheightIndexer c !! absheight D = Some shares ∧ shares ≠ []
       ∧ ∀ s, s ∈ shares → hash s ≠ hash D)
  ∧ (∃ nextShares,
       absheightIndexer c !! (absheight D + 1) = Some nextShares
       ∧ nextShares ≠ []
       ∧ ∀ s, s ∈ nextShares → previousShareHash s ≠ hash D).

Lemma dead_share_case_example : dead_share_case store_200 share_d.
Proof.
  split; [reflexivity |]. split; [| split].
  - exists share_c. split; [vm_compute; reflexivity | vm_compute; reflexivity].
  - exists [share_a]. split; [vm_compute; reflexivity |]. split; [done |].
    intros s Hs. apply list_elem_of_singleton in Hs as ->. done.
  - exists [share_b]. split; [vm_compute; reflexivity |]. split; [done |].
    intros s Hs. apply list_elem_of_singleton in Hs as ->. done.
Qed.

(** C2 as the specification states it: in the dead-share case the share
    is left out of both indexes. *)
Definition dead_share_not_indexed : Prop :=
  ∀ c D, dead_share_case c D →
    snd (append c D) = ReturnFalse
    ∧ events (fst (append c D)) = events c ++ [DeadArrived D]
    ∧ hashIndexer (fst (append c D)) !! hash D = None
    ∧ D ∉ default [] (absheightIndexer (fst (append c D)) !! absheight D).

(** C2, counterexample: with heights 100 and 101 filled and [newest] at
    200, the dead share [share_d] at height 100 is in both indexes after
    the call. *)
Lemma dead_share_not_indexed_fails : ¬ dead_share_not_indexed.
Proof.
  intros H. destruct (H store_200 share_d dead_share_case_example)
    as (_ & _ & Hhash & _).
  vm_compute in Hhash. discriminate.
Qed.

(** C2, amended: in the dead-share case [append] triggers [deadArrived]
    for the share and nothing else, returns false, and the share stays
    stored: it is the last element of the array at its height, and
    [hashIndexer] maps its hash to its height. *)
Theorem append_dead_share (c : t) (D : BaseShare) :
  dead_share_case c D →
  snd (append c D) = ReturnFalse
  ∧ events (fst (append c D)) = events c ++ [DeadArrived D]
  ∧ hashIndexer (fst (append c D)) !! hash D = Some (absheight D)
  ∧ ∃ shares, absheightIndexer c !! absheight D = Some shares
      ∧ absheightIndexer (fst (append c D)) !! absheight D = Some (shares ++ [D]).
Proof.
  intros (Hvalid & (n & Hn & Hlt) & (shares & Hs & Hne & Hdup)
          & (next & Hnext & Hnne & Hdead)).
  unfold append. rewrite Hvalid. simpl.
  rewrite (array_at_present _ _ _ Hs), Hs. simpl.
  assert (some (λ s, String.eqb (hash s) (hash D)) shares = false) as ->.
  { apply some_false. intros s Hin. apply String.eqb_neq. by apply Hdup. }
  destruct (store_share_fields D (shares ++ [D]) c) as (Hhi & Hai & Hnew & Hev).
  unfold append_branches. rewrite Hnew, Hn.
  assert ((absheight n <? absheight D) = false) as -> by (apply Z.ltb_ge; lia).
  assert ((absheight D =? absheight n) = false) as -> by (apply Z.eqb_neq; lia).
  unfold append_older. rewrite length_app_one_ge_2 by done.
  rewrite Hai, lookup_insert_ne by lia. rewrite Hnext.
  destruct next as [| x next]; [done |].
  assert (some (λ s, String.eqb (previousShareHash s) (hash D)) (x :: next)
          = false) as ->.
  { apply some_false. intros s Hin. apply String.eqb_neq. by apply Hdead. }
  simpl. rewrite Hhi, Hai, Hev, !lookup_insert_eq.
  repeat split. by exists shares.
Qed.

Lemma append_dead_share_witness :
  snd (append store_200 share_d) = ReturnFalse
  ∧ events (fst (append store_200 share_d))
    = events store_200 ++ [DeadArrived share_d]
  ∧ hashIndexer (fst (append store_200 share_d)) !! hash share_d
    = Some (absheight share_d)
  ∧ ∃ shares, absheightIndexer store_200 !! absheight share_d = Some shares
      ∧ absheightIndexer (fst (append store_200 share_d)) !! absheight share_d
        = Some (shares ++ [share_d]).
Proof. exact (append_dead_share store_200 share_d dead_share_case_example). Defined.

(** ** Stores reached by [append] *)

(** Every array holds valid shares of its height, no hash twice, and is
    not empty; every indexed hash belongs to a share stored at the height
    it is indexed at. *)
Definition wf_maps (hi : gmap string Z) (ai : gmap Z (list BaseShare)) : Prop :=
  (∀ k l, ai !! k = Some l →
     l ≠ [] ∧ (∀ s, s ∈ l → absheight s = k ∧ validity s = true)
     ∧ NoDup (hash <$> l))
  ∧ (∀ h k, hi !! h = Some k → ∃ l s, ai !! k = Some l ∧ s ∈ l ∧ hash s = h).

(** [newest] and [oldest] are set together, and every stored height lies
    between them. *)
Definition wf_bounds (ai : gmap Z (list BaseShare))
    (nw ol : option BaseShare) : Prop :=
  match nw, ol with
  | None, None => ∀ k, ai !! k = None
  | Some n, Some o =>
    absheight o ≤ absheight n
    ∧ ∀ k, is_Some (ai !! k) → absheight o ≤ k ≤ absheight n
  | _, _ => False
  end.

Definition wf (c : t) : Prop :=
  wf_maps (hashIndexer c) (absheightIndexer c)
  ∧ wf_bounds (absheightIndexer c) (newest c) (oldest c).

Lemma wf_init : wf init.
Proof.
  split; [split |]; simpl.
  - intros k l H. by rewrite lookup_empty in H.
  - intros h k H. by rewrite lookup_empty in H.
  - intros k. apply lookup_empty.
Qed.

Lemma same_hash_image (l : list BaseShare) (x y : BaseShare) :
  NoDup (hash <$> l) → x ∈ l → y ∈ l → hash x = hash y → x = y.
Proof.
  induction l as [| a l IH]; intros Hnd Hx Hy Heq.
  - by apply elem_of_nil in Hx.
  - rewrite fmap_cons in Hnd. apply NoDup_cons in Hnd as [Hnotin Hnd].
    apply elem_of_cons in Hx as [-> | Hx]; apply elem_of_cons in Hy as [-> | Hy].
    + done.
    + exfalso. apply Hnotin. rewrite Heq. apply list_elem_of_fmap. eauto.
    + exfalso. apply Hnotin. rewrite <- Heq. apply list_elem_of_fmap. eauto.
    + by apply IH.
Qed.

Lemma elem_of_List_filter (p : BaseShare → bool) (l : list BaseShare) (x : BaseShare) :
  x ∈ List.filter p l ↔ x ∈ l ∧ p x = true.
Proof. rewrite !list_elem_of_In. apply filter_In. Qed.

Lemma NoDup_hash_filter (p : BaseShare → bool) (l : list BaseShare) :
  NoDup (hash <$> l) → NoDup (hash <$> List.filter p l).
Proof.
  induction l as [| a l IH]; [done |].
  rewrite fmap_cons. intros [Hnotin Hnd]%NoDup_cons.
  simpl. destruct (p a); [| by apply IH].
  rewrite fmap_cons. apply NoDup_cons. split; [| by apply IH].
  intros (y & Hy & Hin)%list_elem_of_fmap. apply Hnotin.
  apply list_elem_of_fmap. exists y. split; [done |].
  by apply elem_of_List_filter in Hin as [Hin _].
Qed.

Lemma elem_of_except (l : list BaseShare) (v x : BaseShare) :
  x ∈ except same_hash l [v] ↔ x ∈ l ∧ hash x ≠ hash v.
Proof.
  unfold except. rewrite elem_of_List_filter. simpl. unfold same_hash.
  rewrite orb_false_r, negb_true_iff, String.eqb_neq. done.
Qed.

(** Moving a share of the array to the front and the others behind it
    keeps the elements. *)
Lemma elem_of_reorder (l : list BaseShare) (v x : BaseShare) :
  NoDup (hash <$> l) → v ∈ l →
  x ∈ v :: except same_hash l [v] ↔ x ∈ l.
Proof.
  intros Hnd Hv. rewrite elem_of_cons, elem_of_except. split.
  - intros [-> | [Hx _]]; done.
  - intros Hx. destruct (decide (hash x = hash v)) as [Heq | Hne].
    + left. by apply (same_hash_image l).
    + by right.
Qed.

Lemma NoDup_reorder (l : list BaseShare) (v : BaseShare) :
  NoDup (hash <$> l) → NoDup (hash <$> v :: except same_hash l [v]).
Proof.
  intros Hnd. rewrite fmap_cons. apply NoDup_cons. split.
  - intros (y & Hy & Hin)%list_elem_of_fmap.
    apply elem_of_except in Hin as [_ Hne]. congruence.
  - by apply NoDup_hash_filter.
Qed.

(** The hashes [cleanDeprecations] deletes. *)
Lemma lookup_delete_hashes (hi : gmap string Z) (l : list BaseShare) (h : string) :
  foldl (λ m ds, delete (hash ds) m) hi l !! h
  = if bool_decide (h ∈ hash <$> l) then None else hi !! h.
Proof.
  revert hi. induction l as [| a l IH]; intros hi; cbn [foldl].
  - case_bool_decide as H; [by apply elem_of_nil in H | done].
  - rewrite IH, fmap_cons. destruct (decide (h = hash a)) as [-> | Hne].
    + rewrite lookup_delete_eq.
      rewrite (bool_decide_eq_true_2 (hash a ∈ hash a :: (hash <$> l)))
        by apply list_elem_of_here.
      by case_bool_decide.
    + rewrite lookup_delete_ne by done.
      case_bool_decide as H1; case_bool_decide as H2; try done.
      * exfalso. apply H2. by apply elem_of_cons; right.
      * exfalso. apply elem_of_cons in H2 as [? | ?]; done.
Qed.

(** *** The steps of [append] keep the invariant *)

Lemma wf_maps_store (hi : gmap string Z) (ai : gmap Z (list BaseShare))
    (s : BaseShare) :
  wf_maps hi ai → validity s = true →
  (∀ x, x ∈ default [] (ai !! absheight s) → hash x ≠ hash s) →
  wf_maps (<[hash s := absheight s]> hi)
          (<[absheight s := default [] (ai !! absheight s) ++ [s]]> ai).
Proof.
  intros [Ha Hh] Hvalid Hfresh. split.
  - intros k l. destruct (decide (absheight s = k)) as [<- | Hne].
    + rewrite lookup_insert_eq. intros [= <-].
      split; [by destruct (default [] _) |]. split.
      * intros x [Hx | ->%list_elem_of_singleton]%elem_of_app; [| done].
        destruct (ai !! absheight s) as [l |] eqn:E; simpl in Hx;
          [| by apply elem_of_nil in Hx].
        by apply (Ha _ _ E).
      * rewrite fmap_app. apply NoDup_app. split; [| split].
        -- destruct (ai !! absheight s) as [l |] eqn:E; simpl;
             [by apply (Ha _ _ E) | apply NoDup_nil_2].
        -- intros h (x & Hhx & Hx)%list_elem_of_fmap Hs.
           apply list_elem_of_singleton in Hs. subst h. by apply (Hfresh x).
        -- apply NoDup_singleton.
    + rewrite lookup_insert_ne by done. apply Ha.
  - intros h k. destruct (decide (hash s = h)) as [<- | Hne].
    + rewrite lookup_insert_eq. intros [= <-].
      eexists _, s. rewrite lookup_insert_eq. split; [done |].
      split; [| done]. apply elem_of_app. right. apply list_elem_of_here.
    + rewrite lookup_insert_ne by done. intros (l & x & Hl & Hx & Hhash)%Hh.
      destruct (decide (absheight s = k)) as [<- | Hnek].
      * eexists _, x. rewrite lookup_insert_eq. split; [done |].
        split; [| done]. rewrite Hl. simpl. apply elem_of_app. by left.
      * exists l, x. by rewrite lookup_insert_ne.
Qed.

Lemma wf_maps_clean (hi : gmap string Z) (ai : gmap Z (list BaseShare))
    (k0 : Z) (dep : list BaseShare) :
  wf_maps hi ai → ai !! k0 = Some dep →
  wf_maps (foldl (λ m ds, delete (hash ds) m) hi dep) (delete k0 ai).
Proof.
  intros [Ha Hh] Hdep. split.
  - intros k l [Hne Hl]%lookup_delete_Some. by apply Ha.
  - intros h k. rewrite lookup_delete_hashes. case_bool_decide as Hin; [done |].
    intros (l & x & Hl & Hx & Hhash)%Hh. exists l, x.
    split; [| done]. apply lookup_delete_Some. split; [| done].
    intros <-. apply Hin. rewrite Hdep in Hl. injection Hl as ->.
    apply list_elem_of_fmap. eauto.
Qed.

Lemma wf_maps_reorder (hi : gmap string Z) (ai : gmap Z (list BaseShare))
    (k : Z) (l : list BaseShare) (v : BaseShare) :
  wf_maps hi ai → ai !! k = Some l → v ∈ l →
  wf_maps hi (<[k := v :: except same_hash l [v]]> ai).
Proof.
  intros [Ha Hh] Hl Hv. destruct (Ha _ _ Hl) as (_ & Hall & Hnd). split.
  - intros k' l'. destruct (decide (k = k')) as [<- | Hne].
    + rewrite lookup_insert_eq. intros [= <-]. split; [done |]. split.
      * intros x Hx%elem_of_reorder; auto.
      * by apply NoDup_reorder.
    + rewrite lookup_insert_ne by done. apply Ha.
  - intros h k' (l' & x & Hl' & Hx & Hhash)%Hh.
    destruct (decide (k = k')) as [<- | Hne].
    + eexists _, x. rewrite lookup_insert_eq. split; [done |].
      split; [| done]. apply elem_of_reorder; [done.. |]. congruence.
    + exists l', x. by rewrite lookup_insert_ne.
Qed.

Lemma wf_bounds_subset (ai ai' : gmap Z (list BaseShare))
    (nw ol : option BaseShare) :
  wf_bounds ai nw ol → (∀ k, is_Some (ai' !! k) → is_Some (ai !! k)) →
  wf_bounds ai' nw ol.
Proof.
  unfold wf_bounds. intros H Hsub. destruct nw as [n |], ol as [o |]; try done.
  - destruct H as [Hle H]. split; [done |]. intros k Hk. apply H. by apply Hsub.
  - intros k. destruct (ai' !! k) eqn:E; [| done].
    destruct (Hsub k) as [? Hk]; [by eexists |]. by rewrite H in Hk.
Qed.

Lemma stored_fields (s : BaseShare) (l : list BaseShare) (c : t) :
  let c1 := store_share s l (array_at s c) in
  hashIndexer c1 = <[hash s := absheight s]> (hashIndexer c)
  ∧ absheightIndexer c1 = <[absheight s := l]> (absheightIndexer c)
  ∧ newest c1 = newest c
  ∧ events c1 = events c
  ∧ oldest c1 = match oldest c with
                | Some o => if absheight s <? absheight o then Some s else Some o
                | None => None
                end.
Proof.
  unfold store_share, array_at.
  destruct (absheightIndexer c !! absheight s) eqn:E; simpl;
    (destruct (oldest c) as [o |] eqn:Ho; simpl;
     [destruct (absheight s <? absheight o) |]; simpl;
     rewrite ?insert_insert_eq, ?Ho; done).
Qed.

Lemma wf_cleanDeprecations (c : t) : wf c → wf (cleanDeprecations c).
Proof.
  intros Hwf. unfold cleanDeprecations.
  destruct (newest c) as [n |] eqn:Hn; [| done].
  destruct (oldest c) as [o |] eqn:Ho; [| done].
  destruct (absheight n - absheight o <? MAX_CHAIN_LENGTH); [done |].
  destruct (absheightIndexer c !! absheight o) as [[| d dep] |] eqn:E; try done.
  destruct Hwf as [Hm Hb]. split; simpl.
  - exact (wf_maps_clean _ _ _ (d :: dep) Hm E).
  - eapply wf_bounds_subset; [exact Hb |].
    intros k [x [_ Hx]%lookup_delete_Some]. by eexists.
Qed.

Lemma singleOrDefault_value (p : BaseShare → bool) (l : list BaseShare)
    (v : BaseShare) :
  singleOrDefault p l = SingleValue v → v ∈ l ∧ p v = true.
Proof.
  unfold singleOrDefault. intros H.
  destruct (List.filter p l) as [| x [| y rest]] eqn:E; try done.
  injection H as ->. apply elem_of_List_filter. rewrite E. apply list_elem_of_here.
Qed.

(** With no hash twice in the array, at most one share has a given hash. *)
Lemma singleOrDefault_no_error (l : list BaseShare) (h : string) :
  NoDup (hash <$> l) →
  singleOrDefault (λ s, String.eqb (hash s) h) l ≠ SingleError.
Proof.
  intros Hnd. unfold singleOrDefault.
  destruct (List.filter _ l) as [| x [| y rest]] eqn:E; try done.
  exfalso.
  assert (x ∈ l ∧ String.eqb (hash x) h = true) as [_ Hx%String.eqb_eq].
  { apply (elem_of_List_filter (λ s, String.eqb (hash s) h)).
    rewrite E. apply list_elem_of_here. }
  assert (y ∈ l ∧ String.eqb (hash y) h = true) as [_ Hy%String.eqb_eq].
  { apply (elem_of_List_filter (λ s, String.eqb (hash s) h)).
    rewrite E. apply elem_of_cons. right.
    apply list_elem_of_here. }
  apply (NoDup_hash_filter (λ s, String.eqb (hash s) h)) in Hnd.
  rewrite E, !fmap_cons in Hnd. apply NoDup_cons in Hnd as [Hnotin _].
  apply Hnotin. rewrite Hx, <- Hy. apply list_elem_of_here.
Qed.

Lemma wf_bounds_reorder (ai : gmap Z (list BaseShare)) (nw ol : option BaseShare)
    (k : Z) (l l' : list BaseShare) :
  wf_bounds ai nw ol → ai !! k = Some l → wf_bounds (<[k := l']> ai) nw ol.
Proof.
  intros Hb Hl. eapply wf_bounds_subset; [done |].
  intros k' Hk'. destruct (decide (k = k')) as [<- | Hne]; [by eexists |].
  by rewrite lookup_insert_ne in Hk'.
Qed.

Lemma wf_append_newer (s : BaseShare) (c : t) :
  wf (newest_set s c) →
  wf (fst (append_newer s c)) ∧ snd (append_newer s c) ≠ Throws.
Proof.
  intros Hwf%wf_cleanDeprecations. unfold append_newer, check_previous.
  set (c1 := cleanDeprecations (newest_set s c)) in *.
  destruct (absheightIndexer c1 !! (absheight s - 1)) as [prev |] eqn:Hprev;
    [| done].
  destruct (Z.of_nat (List.length prev) <? 2); [done |].
  destruct Hwf as [Hm Hb]. destruct (proj1 Hm _ _ Hprev) as (_ & _ & Hnd).
  destruct (singleOrDefault _ prev) as [v | |] eqn:Hsingle.
  - apply singleOrDefault_value in Hsingle as [Hv _].
    split; [| done]. simpl.
    destruct (0 <? Z.of_nat (List.length (except same_hash prev [v]))); simpl;
      (split; [by eapply wf_maps_reorder | by eapply wf_bounds_reorder]).
  - done.
  - by apply singleOrDefault_no_error in Hsingle.
Qed.

Lemma wf_append_older (s : BaseShare) (shares : list BaseShare) (c : t) :
  wf c → absheightIndexer c !! absheight s = Some shares → s ∈ shares →
  wf (fst (append_older s shares c)) ∧ snd (append_older s shares c) ≠ Throws.
Proof.
  intros Hwf Hshares Hs. unfold append_older.
  destruct (Z.of_nat (List.length shares) <? 2); [done |].
  destruct (absheightIndexer c !! (absheight s + 1)) as [[| x next] |]; try done.
  destruct (negb _); [done |]. split; [| done]. destruct Hwf as [Hm Hb]. simpl.
  destruct (0 <? Z.of_nat (List.length (except same_hash shares [s]))); simpl;
    (split; [by eapply wf_maps_reorder | by eapply wf_bounds_reorder]).
Qed.

(** [append] keeps the invariant and, on a store that has it, does not end
    with the error of [singleOrDefault]. *)
Lemma wf_append (c : t) (s : BaseShare) :
  wf c → wf (fst (append c s)) ∧ snd (append c s) ≠ Throws.
Proof.
  intros Hwf. unfold append.
  destruct (validity s) eqn:Hvalid; simpl; [| done].
  rewrite array_at_shares.
  destruct (some _ (default [] (absheightIndexer c !! absheight s))) eqn:Hdup.
  { split; [| done]. unfold array_at.
    destruct (absheightIndexer c !! absheight s) eqn:E; [done |].
    simpl in Hdup. done. }
  set (l := default [] (absheightIndexer c !! absheight s) ++ [s]).
  destruct (stored_fields s l c) as (Hhi & Hai & Hnew & Hev & Hold).
  set (c1 := store_share s l (array_at s c)) in *.
  destruct Hwf as [Hm Hb].
  assert (wf_maps (hashIndexer c1) (absheightIndexer c1)) as Hm1.
  { rewrite Hhi, Hai. apply wf_maps_store; [done.. |].
    intros x Hx. apply String.eqb_neq. by apply (proj1 (some_false _ _) Hdup). }
  assert (absheightIndexer c1 !! absheight s = Some l) as Hl
    by (by rewrite Hai, lookup_insert_eq).
  assert (s ∈ l) as Hsl by (apply elem_of_app; right; apply list_elem_of_here).
  unfold append_branches. rewrite Hnew. unfold wf_bounds in Hb.
  destruct (newest c) as [n |] eqn:Hn, (oldest c) as [o |] eqn:Ho; try done.
  - destruct Hb as [Hle Hkeys].
    assert (∀ k, is_Some (absheightIndexer c1 !! k) →
                 k = absheight s ∨ absheight o ≤ k ≤ absheight n) as Hkeys1.
    { intros k. rewrite Hai. destruct (decide (absheight s = k)) as [<- | Hne];
        [by left |]. rewrite lookup_insert_ne by done. right. by apply Hkeys. }
    destruct (absheight n <? absheight s) eqn:Hlt1.
    + apply Z.ltb_lt in Hlt1. apply wf_append_newer. split; simpl; [done |].
      rewrite Hold.
      assert ((absheight s <? absheight o) = false) as -> by (apply Z.ltb_ge; lia).
      split; [lia |]. intros k [-> | Hk]%Hkeys1; lia.
    + apply Z.ltb_ge in Hlt1.
      assert (wf c1) as Hwf1.
      { split; [done |]. rewrite Hnew, Hold.
        destruct (absheight s <? absheight o) eqn:Hlt2; simpl.
        - apply Z.ltb_lt in Hlt2. split; [lia |]. intros k [-> | Hk]%Hkeys1; lia.
        - apply Z.ltb_ge in Hlt2. split; [lia |]. intros k [-> | Hk]%Hkeys1; lia. }
      destruct (absheight s =? absheight n); [done |].
      by apply wf_append_older.
  - split; [| done]. simpl. rewrite Hold. simpl. split; simpl; [done |].
    split; [lia |]. intros k. rewrite Hai.
    destruct (decide (absheight s = k)) as [<- | Hne]; [lia |].
    rewrite lookup_insert_ne by done. rewrite Hb. by intros [? ?].
Qed.

Lemma wf_appends (c : t) (shares : list BaseShare) : wf c → wf (appends c shares).
Proof.
  revert c. induction shares as [| s shares IH]; intros c Hwf; [done |].
  simpl. apply IH. by apply wf_append.
Qed.

(** On a store that has the invariant, [add] ends without an error and
    leaves the store of the [append] calls. *)
Lemma add_appends (c : t) (shares : list BaseShare) :
  wf c → add c shares = (appends c shares, true).
Proof.
  revert c. induction shares as [| s shares IH]; intros c Hwf; [done |].
  simpl. destruct (wf_append c s Hwf) as [Hwf' Hno].
  destruct (append c s) as [c' r]. simpl in *.
  destruct r; try done; by apply IH.
Qed.

(** ** get *)

Definition share_A : BaseShare := mkShare "A" 50 "" true.
Definition share_B : BaseShare := mkShare "B" 50 "" true.
Definition share_C : BaseShare := mkShare "C" 51 "A" true.

(** The store of the orphan scenario: at height 50 the share [A] is on
    the main chain and [B] is an orphan. *)
Lemma orphan_store :
  absheightIndexer (appends init [share_A; share_B; share_C]) !! 50
  = Some [share_A; share_B]
  ∧ hashIndexer (appends init [share_A; share_B; share_C]) !! "B"%string
    = Some 50
  ∧ get (appends init [share_A; share_B; share_C]) (IdHash "B") = Some share_A.
Proof. repeat split; vm_compute; reflexivity. Qed.

(** C10: [get] of a hash returns the first share of the array at the
    height the hash is indexed at; in a store reached by [append] calls,
    for a hash that belongs to a share further along the array (an orphan)
    that is a share with another hash; and [get] returns null, without
    failing, for a hash that is not indexed and for a height that holds no
    share. *)
Theorem get_returns_first_share_at_height
    (c : t) (appended : list BaseShare) :
  (∀ h height s rest,
     hashIndexer c !! h = Some height →
     absheightIndexer c !! height = Some (s :: rest) →
     get c (IdHash h) = Some s)
  ∧ (∀ h height shares i orphan,
       hashIndexer (appends init appended) !! h = Some height →
       absheightIndexer (appends init appended) !! height = Some shares →
       shares !! i = Some orphan → (1 ≤ i)%nat → hash orphan = h →
       ∃ s0, get (appends init appended) (IdHash h) = Some s0
             ∧ shares !! 0%nat = Some s0 ∧ hash s0 ≠ h ∧ s0 ≠ orphan)
  ∧ (∀ h, hashIndexer c !! h = None → get c (IdHash h) = None)
  ∧ (∀ h height,
       hashIndexer c !! h = Some height →
       shares_at c height = [] →
       get c (IdHash h) = None)
  ∧ (∀ height, shares_at c height = [] → get c (IdHeight height) = None).
Proof.
  split; [| split; [| split; [| split]]].
  - intros h height s rest Hh Ha. unfold get. by rewrite Hh, Ha.
  - intros h height shares i orphan Hh Ha Hi Hpos Hhash.
    destruct (wf_appends init appended wf_init) as [[Harr _] _].
    destruct (Harr _ _ Ha) as (_ & _ & Hnd).
    destruct shares as [| s0 rest]; [done |].
    exists s0. unfold get. rewrite Hh, Ha.
    assert (hash s0 ≠ h) as Hne.
    { destruct i as [| i]; [lia |]. simpl in Hi.
      rewrite fmap_cons in Hnd. apply NoDup_cons in Hnd as [Hnotin _].
      intros Heq. apply Hnotin. rewrite Heq, <- Hhash.
      apply list_elem_of_fmap. exists orphan. split; [done |].
      by eapply list_elem_of_lookup_2. }
    repeat split; [done |]. by intros ->.
  - intros h Hh. unfold get. by rewrite Hh.
  - intros h height Hh Ha. unfold get, shares_at in *. rewrite Hh.
    destruct (absheightIndexer c !! height) as [[| ? ?] |]; done.
  - intros height Ha. unfold get, shares_at in *.
    destruct (absheightIndexer c !! height) as [[| ? ?] |]; done.
Qed.

(** ** Invalid shares *)

(** C9: after any sequence of [append] calls every share in an array of
    [absheightIndexer] is valid, every hash in [hashIndexer] is the hash of
    a valid share stored at the height it is indexed at, and [append] of
    an invalid share returns false and leaves the store as it is. *)
Theorem invalid_shares_are_never_stored (shares : list BaseShare) :
  let c := appends init shares in
  (∀ height l s,
     absheightIndexer c !! height = Some l → s ∈ l → validity s = true)
  ∧ (∀ h height,
       hashIndexer c !! h = Some height →
       ∃ l s, absheightIndexer c !! height = Some l ∧ s ∈ l
              ∧ hash s = h ∧ validity s = true)
  ∧ (∀ s, validity s = false → append c s = (c, ReturnFalse)).
Proof.
  intros c. destruct (wf_appends init shares wf_init) as [[Ha Hh] _].
  fold c in Ha, Hh. repeat split.
  - intros height l s Hl Hs. by apply (Ha _ _ Hl).
  - intros h height (l & s & Hl & Hs & Hhash)%Hh. exists l, s.
    repeat split; try done. by apply (Ha _ _ Hl).
  - intros s Hs. unfold append. by rewrite Hs.
Qed.

(** ** The sliding window *)

Lemma cleanDeprecations_fields (c : t) (n o : BaseShare) :
  newest c = Some n → oldest c = Some o →
  absheightIndexer c !! absheight o ≠ Some [] →
  let evict := negb (absheight n - absheight o <? MAX_CHAIN_LENGTH) in
  hashIndexer (cleanDeprecations c)
  = (if evict
     then foldl (λ m ds, delete (hash ds) m) (hashIndexer c)
            (shares_at c (absheight o))
     else hashIndexer c)
  ∧ absheightIndexer (cleanDeprecations c)
    = (if evict then delete (absheight o) (absheightIndexer c)
       else absheightIndexer c)
  ∧ newest (cleanDeprecations c) = Some n.
Proof.
  intros Hn Ho Hne. unfold cleanDeprecations, shares_at. rewrite Hn, Ho.
  destruct (absheight n - absheight o <? MAX_CHAIN_LENGTH); simpl; [done |].
  destruct (absheightIndexer c !! absheight o) as [[| d dep] |] eqn:E; simpl.
  - done.
  - done.
  - by rewrite delete_id.
Qed.

Lemma check_previous_shares (s : BaseShare) (c : t) :
  (∀ prev, absheightIndexer c !! (absheight s - 1) = Some prev →
           NoDup (hash <$> prev)) →
  hashIndexer (fst (check_previous s c)) = hashIndexer c
  ∧ newest (fst (check_previous s c)) = newest c
  ∧ ∀ k x, x ∈ shares_at (fst (check_previous s c)) k ↔ x ∈ shares_at c k.
Proof.
  intros Hnd. unfold check_previous.
  destruct (absheightIndexer c !! (absheight s - 1)) as [prev |] eqn:Hprev;
    [| done].
  destruct (Z.of_nat (List.length prev) <? 2); [done |].
  destruct (singleOrDefault _ prev) as [v | |] eqn:Hsingle; [| done | done].
  apply singleOrDefault_value in Hsingle as [Hv _].
  assert (∀ c0, absheightIndexer c0 = absheightIndexer c →
            ∀ k x,
              x ∈ shares_at
                    (set_absheightIndexer
                       <[absheight s - 1 := v :: except same_hash prev [v]]> c0) k
              ↔ x ∈ shares_at c k) as Hmem.
  { intros c0 Hc0 k x. unfold shares_at. simpl. rewrite Hc0.
    destruct (decide (absheight s - 1 = k)) as [<- | Hne].
    - rewrite lookup_insert_eq, Hprev. simpl. apply elem_of_reorder; auto.
    - by rewrite lookup_insert_ne. }
  destruct (0 <? Z.of_nat (List.length (except same_hash prev [v]))); simpl;
    (split; [done |]; split; [done |]; by apply Hmem).
Qed.

(** C1 as the specification states it, in its two parts: after every
    sequence of calls the heights of [newest] and [oldest] differ by at
    most [MAX_CHAIN_LENGTH], and no share stays stored at a height below
    that window. *)
Definition window_is_bounded : Prop :=
  ∀ shares n o,
    newest (appends init shares) = Some n →
    oldest (appends init shares) = Some o →
    absheight n - absheight o ≤ MAX_CHAIN_LENGTH.

Definition below_window_is_evicted : Prop :=
  ∀ shares n s,
    newest (appends init shares) = Some n →
    absheight s < absheight n - MAX_CHAIN_LENGTH →
    (s ∉ shares_at (appends init shares) (absheight s))
    ∧ hashIndexer (appends init shares) !! hash s ≠ Some (absheight s).

Definition share_1 : BaseShare := mkShare "a" 1 "" true.
Definition share_2 : BaseShare := mkShare "b" 2 "a" true.
Definition share_20000 : BaseShare := mkShare "c" 20000 "" true.

(** C1, counterexample: after shares at the heights 1, 2 and 20000 the
    heights of [newest] and [oldest] are 19999 apart, and the share at
    height 2, below the window, is in both indexes. *)
Lemma window_claims_fail : ¬ window_is_bounded ∧ ¬ below_window_is_evicted.
Proof.
  split.
  - intros H.
    specialize (H [share_1; share_2; share_20000] share_20000 share_1
                  eq_refl eq_refl).
    vm_compute in H. by apply H.
  - intros H.
    destruct (H [share_1; share_2; share_20000] share_20000 share_2 eq_refl)
      as [_ Hhash]; [reflexivity |].
    apply Hhash. vm_compute. reflexivity.
Qed.

(** C1, amended: an [append] that makes a share the new tip evicts one
    height. When the new tip lies [MAX_CHAIN_LENGTH] or more above
    [oldest], the shares stored at the height of [oldest] leave
    [absheightIndexer] and their hashes leave [hashIndexer]; the arrays of
    all other heights keep their shares, and the new tip is added to the
    array of its own height. *)
Theorem append_new_tip_evicts_one_height
    (shares : list BaseShare) (s n o : BaseShare) :
  let c := appends init shares in
  validity s = true →
  newest c = Some n → oldest c = Some o →
  absheight n < absheight s →
  let c' := fst (append c s) in
  let evict := MAX_CHAIN_LENGTH ≤ absheight s - absheight o in
  newest c' = Some s
  ∧ (∀ height x,
       x ∈ shares_at c' height ↔
       (x ∈ shares_at c height ∨ (height = absheight s ∧ x = s))
       ∧ ¬ (evict ∧ height = absheight o))
  ∧ (evict → ∀ x, x ∈ shares_at c (absheight o) →
               hashIndexer c' !! hash x = None).
Proof.
  intros c Hvalid Hn Ho Hlt c' evict.
  destruct (wf_appends init shares wf_init) as [[Ha Hh] Hb].
  fold c in Ha, Hh, Hb. unfold wf_bounds in Hb. rewrite Hn, Ho in Hb.
  destruct Hb as [Hle Hkeys].
  assert (absheightIndexer c !! absheight s = None) as Hnone.
  { destruct (absheightIndexer c !! absheight s) eqn:E; [| done].
    specialize (Hkeys (absheight s)). rewrite E in Hkeys.
    destruct Hkeys; [by eexists | lia]. }
  subst c'. unfold append. rewrite Hvalid. simpl.
  rewrite array_at_shares, Hnone. simpl.
  destruct (stored_fields s [s] c) as (Hhi & Hai & Hnew & Hev & Hold).
  unfold append_branches. rewrite Hnew, Hn.
  assert ((absheight n <? absheight s) = true) as -> by (by apply Z.ltb_lt).
  rewrite Ho in Hold.
  assert ((absheight s <? absheight o) = false) as Hso by (apply Z.ltb_ge; lia).
  rewrite Hso in Hold. unfold append_newer.
  set (c1 := store_share s [s] (array_at s c)) in *.
  set (c2 := newest_set s c1).
  destruct (cleanDeprecations_fields c2 s o) as (Hhi3 & Hai3 & Hnew3);
    [done | done | |].
  { simpl. rewrite Hai, lookup_insert_ne by lia. intros E.
    by destruct (Ha _ _ E) as [Hne _]. }
  set (c3 := cleanDeprecations c2) in *.
  destruct (check_previous_shares s c3) as (Hhi4 & Hnew4 & Hmem4).
  { intros prev. rewrite Hai3. intros Hprev.
    assert (absheightIndexer c !! (absheight s - 1) = Some prev) as E.
    { destruct (negb _) in Hprev.
      - apply lookup_delete_Some in Hprev as [_ Hprev].
        simpl in Hprev. by rewrite Hai, lookup_insert_ne in Hprev by lia.
      - simpl in Hprev. by rewrite Hai, lookup_insert_ne in Hprev by lia. }
    by apply (Ha _ _ E). }
  assert ((evict ∧ negb (absheight s - absheight o <? MAX_CHAIN_LENGTH) = true)
          ∨ (¬ evict ∧ negb (absheight s - absheight o <? MAX_CHAIN_LENGTH) = false))
    as Hcase.
  { unfold evict. destruct (absheight s - absheight o <? MAX_CHAIN_LENGTH) eqn:E.
    - right. apply Z.ltb_lt in E. split; [lia | done].
    - left. apply Z.ltb_ge in E. done. }
  split; [by rewrite Hnew4 |]. split.
  - intros height x. rewrite Hmem4. unfold shares_at. rewrite Hai3.
    simpl. rewrite Hai.
    destruct Hcase as [[Hev1 ->] | [Hev1 ->]].
    + destruct (decide (height = absheight o)) as [-> | Hne].
      * rewrite lookup_delete_eq. simpl. split; [by intros ?%elem_of_nil |].
        intros [_ Hno]. exfalso. by apply Hno.
      * rewrite lookup_delete_ne by done.
        destruct (decide (absheight s = height)) as [<- | Hne2].
        -- rewrite lookup_insert_eq, Hnone. simpl.
           rewrite list_elem_of_singleton. split.
           ++ intros ->. split; [by right | by intros [_ ?]].
           ++ intros [[?%elem_of_nil | [_ ->]] _]; done.
        -- rewrite lookup_insert_ne by done. split.
           ++ intros Hx. split; [by left | by intros [_ ?]].
           ++ intros [[? | [? _]] _]; done.
    + destruct (decide (absheight s = height)) as [<- | Hne2].
      * rewrite lookup_insert_eq, Hnone. simpl.
        rewrite list_elem_of_singleton. split.
        -- intros ->. split; [by right | by intros [? _]].
        -- intros [[?%elem_of_nil | [_ ->]] _]; done.
      * rewrite lookup_insert_ne by done. split.
        -- intros Hx. split; [by left | by intros [? _]].
        -- intros [[? | [? _]] _]; done.
  - intros Hevict x Hx. rewrite Hhi4, Hhi3.
    destruct Hcase as [[_ ->] | [Hno _]]; [| done].
    rewrite lookup_delete_hashes. rewrite bool_decide_eq_true_2; [done |].
    apply list_elem_of_fmap. exists x. split; [done |].
    unfold shares_at in *. simpl. by rewrite Hai, lookup_insert_ne by lia.
Qed.

Lemma append_new_tip_evicts_one_height_witness :
  let c := appends init [share_1] in
  let c' := fst (append c share_20000) in
  let evict := MAX_CHAIN_LENGTH ≤ absheight share_20000 - absheight share_1 in
  newest c' = Some share_20000
  ∧ (∀ height x,
       x ∈ shares_at c' height ↔
       (x ∈ shares_at c height ∨ (height = absheight share_20000 ∧ x = share_20000))
       ∧ ¬ (evict ∧ height = absheight share_1))
  ∧ (evict → ∀ x, x ∈ shares_at c (absheight share_1) →
               hashIndexer c' !! hash x = None).
Proof.
  apply (append_new_tip_evicts_one_height [share_1] share_20000 share_1 share_1).
  - reflexivity.
  - reflexivity.
  - reflexivity.
  - simpl. lia.
Defined.

(** ** subchain *)

Definition share_0 : BaseShare := mkShare "a" 0 "" true.

(** C7, at the height 0: the store holds one valid share, at height 0;
    its hash is indexed and [get] finds the share, yet [subchain] from that
    hash yields nothing, whatever the length and the direction. *)
Theorem subchain_from_height_zero_is_empty (length : nat) (direction : Direction) :
  has (appends init [share_0]) "a" = true
  ∧ get (appends init [share_0]) (IdHash "a") = Some share_0
  ∧ subchain (appends init [share_0]) "a" length direction = [].
Proof.
  repeat split.
Qed.

(** The loop of [subchain], on a store that has the invariant. *)
Lemma subchain_loop_walk (c : t) (height step : Z) (n : nat) :
  wf c →
  let r := subchain_loop c height step n in
  (List.length r ≤ n)%nat
  ∧ (∀ i s, r !! i = Some s →
            head (shares_at c (height + Z.of_nat i * step)) = Some s)
  ∧ ((List.length r < n)%nat →
     shares_at c (height + Z.of_nat (List.length r) * step) = []).
Proof.
  intros [[Ha _] _]. revert height.
  induction n as [| n IH]; intros height; cbn [subchain_loop].
  - split; [done |]. split; [| simpl; lia].
    intros i s Hi. by rewrite lookup_nil in Hi.
  - assert (height + Z.of_nat 0 * step = height) as H0 by lia.
    unfold shares_at in *.
    destruct (absheightIndexer c !! height) as [[| share rest] |] eqn:E.
    + split; [simpl; lia |]. split; [done |]. intros _.
      cbn [List.length]. by rewrite H0, E.
    + destruct (Ha _ _ E) as (_ & Hall & _).
      destruct (Hall share) as [Hheight _]; [apply list_elem_of_here |].
      rewrite Hheight. destruct (IH (height + step)) as (Hlen & Hat & Hstop).
      split; [simpl; lia |]. split.
      * intros [| i] s.
        -- intros [= <-]. by rewrite H0, E.
        -- intros Hi. apply Hat in Hi.
           assert (height + Z.of_nat (S i) * step
                   = height + step + Z.of_nat i * step) as -> by lia.
           done.
      * intros Hlt. cbn [List.length] in *.
        assert (∀ m, height + Z.of_nat (S m) * step
                     = height + step + Z.of_nat m * step) as -> by (intros; lia).
        apply Hstop. lia.
    + split; [simpl; lia |]. split; [done |]. intros _.
      cbn [List.length]. by rewrite H0, E.
Qed.

(** From a hash indexed at a height other than 0, in a store reached by
    [append] calls, [subchain] yields the first share of each array from
    that height on, one height up or down at a time; it stops after
    [length] shares or at the first height that holds none, and it yields
    at least one share when [length] is not 0. *)
Theorem subchain_walks_the_heights
    (appended : list BaseShare) (h : string) (height : Z) (n : nat)
    (direction : Direction) :
  let c := appends init appended in
  let step := match direction with backward => -1 | forward => 1 end in
  let r := subchain c h n direction in
  hashIndexer c !! h = Some height → height ≠ 0 →
  (List.length r ≤ n)%nat
  ∧ (∀ i s, r !! i = Some s →
            head (shares_at c (height + Z.of_nat i * step)) = Some s)
  ∧ ((List.length r < n)%nat →
     shares_at c (height + Z.of_nat (List.length r) * step) = [])
  ∧ ((1 ≤ n)%nat → r ≠ []).
Proof.
  intros c step r Hh Hne.
  pose proof (wf_appends init appended wf_init) as Hwf. fold c in Hwf.
  assert (r = subchain_loop c height step n) as ->.
  { unfold r, subchain. rewrite Hh.
    assert ((height =? 0) = false) as -> by (by apply Z.eqb_neq). done. }
  destruct (subchain_loop_walk c height step n Hwf) as (Hlen & Hat & Hstop).
  split; [done |]. split; [done |]. split; [done |].
  intros Hn. destruct n as [| n]; [lia |]. cbn [subchain_loop].
  destruct Hwf as [[Ha Hhash] _].
  destruct (Hhash _ _ Hh) as (l & s & Hl & Hs & _). rewrite Hl.
  destruct l as [| share rest]; [by apply elem_of_nil in Hs | done].
Qed.

Lemma subchain_walks_the_heights_witness :
  let c := appends init [share_a; share_b; share_c] in
  let r := subchain c "b" 5 backward in
  (List.length r ≤ 5)%nat
  ∧ (∀ i s, r !! i = Some s →
            head (shares_at c (101 + Z.of_nat i * -1)) = Some s)
  ∧ ((List.length r < 5)%nat →
     shares_at c (101 + Z.of_nat (List.length r) * -1) = [])
  ∧ ((1 ≤ 5)%nat → r ≠ []).
Proof.
  apply (subchain_walks_the_heights [share_a; share_b; share_c] "b" 101 5 backward).
  - reflexivity.
  - lia.
Defined.

(** After any sequence of [append] calls [newest] and [oldest] are set
    together, the height of [oldest] is not above that of [newest], and
    every height that holds an array lies between the two. *)
Theorem heights_lie_between_oldest_and_newest (appended : list BaseShare) :
  let c := appends init appended in
  match newest c, oldest c with
  | Some n, Some o =>
    absheight o ≤ absheight n
    ∧ ∀ height, is_Some (absheightIndexer c !! height) →
                absheight o ≤ height ≤ absheight n
  | None, None => ∀ height, absheightIndexer c !! height = None
  | _, _ => False
  end.
Proof. intros c. by destruct (wf_appends init appended wf_init) as [_ Hb]. Qed.

(** After any sequence of [append] calls no array holds two shares with
    the same hash, every share is stored at its own height, and no array
    is empty. *)
Theorem no_hash_twice_at_a_height
    (appended : list BaseShare) (height : Z) (l : list BaseShare) :
  absheightIndexer (appends init appended) !! height = Some l →
  NoDup (hash <$> l) ∧ (∀ s, s ∈ l → absheight s = height) ∧ l ≠ [].
Proof.
  intros Hl. destruct (wf_appends init appended wf_init) as [[Ha _] _].
  destruct (Ha _ _ Hl) as (Hne & Hall & Hnd).
  split; [done |]. split; [| done]. intros s Hs. by apply Hall.
Qed.

Lemma no_hash_twice_at_a_height_witness :
  NoDup (hash <$> [share_A; share_B])
  ∧ (∀ s, s ∈ [share_A; share_B] → absheight s = 50)
  ∧ [share_A; share_B] ≠ [].
Proof.
  apply (no_hash_twice_at_a_height [share_A; share_B; share_C] 50).
  vm_compute. reflexivity.
Defined.

(** ** The effect of [append] on the store *)

(** [newest] is the first share of the array at its height. *)
Definition newest_first (c : t) : Prop :=
  ∀ n, newest c = Some n →
       ∃ rest, absheightIndexer c !! absheight n = Some (n :: rest).

Lemma check_previous_frame (s : BaseShare) (c : t) :
  newest (fst (check_previous s c)) = newest c
  ∧ oldest (fst (check_previous s c)) = oldest c
  ∧ hashIndexer (fst (check_previous s c)) = hashIndexer c
  ∧ ∀ k, k ≠ absheight s - 1 →
         absheightIndexer (fst (check_previous s c)) !! k
         = absheightIndexer c !! k.
Proof.
  unfold check_previous.
  destruct (absheightIndexer c !! (absheight s - 1)) as [prev |]; [| done].
  destruct (Z.of_nat (List.length prev) <? 2); [done |].
  destruct (singleOrDefault _ prev) as [v | |]; [| done | done].
  destruct (0 <? Z.of_nat (List.length (except same_hash prev [v]))); simpl;
    (repeat split; try done; intros k Hk; by rewrite lookup_insert_ne).
Qed.

Lemma append_older_frame (s : BaseShare) (shares : list BaseShare) (c : t) :
  newest (fst (append_older s shares c)) = newest c
  ∧ oldest (fst (append_older s shares c)) = oldest c
  ∧ hashIndexer (fst (append_older s shares c)) = hashIndexer c
  ∧ ∀ k, k ≠ absheight s →
         absheightIndexer (fst (append_older s shares c)) !! k
         = absheightIndexer c !! k.
Proof.
  unfold append_older.
  destruct (Z.of_nat (List.length shares) <? 2); [done |].
  destruct (absheightIndexer c !! (absheight s + 1)) as [[| x next] |]; try done.
  destruct (negb _); [done |].
  destruct (0 <? Z.of_nat (List.length (except same_hash shares [s]))); simpl;
    (repeat split; try done; intros k Hk; by rewrite lookup_insert_ne).
Qed.

(** What a valid share that is no duplicate finds, and what the first
    lines of [append] leave, before the branches. *)
Lemma append_stored (c : t) (s : BaseShare) :
  validity s = true →
  (∀ x, x ∈ shares_at c (absheight s) → hash x ≠ hash s) →
  append c s
  = append_branches s (shares_at c (absheight s) ++ [s])
      (store_share s (shares_at c (absheight s) ++ [s]) (array_at s c)).
Proof.
  intros Hvalid Hfresh. unfold append. rewrite Hvalid. simpl.
  rewrite array_at_shares. fold (shares_at c (absheight s)).
  assert (some (λ x, String.eqb (hash x) (hash s)) (shares_at c (absheight s))
          = false) as ->; [| done].
  apply some_false. intros x Hx. apply String.eqb_neq. by apply Hfresh.
Qed.

Lemma append_rejected (c : t) (s : BaseShare) :
  validity s = false ∨ (∃ x, x ∈ shares_at c (absheight s) ∧ hash x = hash s) →
  append c s = (c, ReturnFalse).
Proof.
  intros [Hs | (x & Hx & Hhash)]; unfold append.
  - by rewrite Hs.
  - destruct (validity s); simpl; [| done]. unfold shares_at in Hx.
    destruct (absheightIndexer c !! absheight s) as [l |] eqn:E;
      [| by apply elem_of_nil in Hx].
    rewrite (array_at_present _ _ _ E), E. simpl.
    assert (some (λ y, String.eqb (hash y) (hash s)) l = true) as ->; [| done].
    apply some_true. exists x. split; [done |]. by apply String.eqb_eq.
Qed.

(** Either the share is rejected at once, or it is stored. *)
Lemma append_cases (c : t) (s : BaseShare) :
  (validity s = false ∨ ∃ x, x ∈ shares_at c (absheight s) ∧ hash x = hash s)
  ∨ (validity s = true ∧ ∀ x, x ∈ shares_at c (absheight s) → hash x ≠ hash s).
Proof.
  destruct (validity s); [| by left; left].
  destruct (some (λ x, String.eqb (hash x) (hash s)) (shares_at c (absheight s)))
    eqn:E.
  - left. right. apply some_true in E as (x & Hx & Heq).
    exists x. split; [done |]. by apply String.eqb_eq.
  - right. split; [done |]. intros x Hx. apply String.eqb_neq.
    by apply (proj1 (some_false _ _) E).
Qed.

Lemma newest_first_append (c : t) (s : BaseShare) :
  wf c → newest_first c → newest_first (fst (append c s)).
Proof.
  intros [[Ha Hh] Hb] Hfirst.
  destruct (append_cases c s) as [Hrej | [Hvalid Hfresh]].
  { by rewrite (append_rejected _ _ Hrej). }
  rewrite (append_stored _ _ Hvalid Hfresh).
  set (l := shares_at c (absheight s) ++ [s]).
  destruct (stored_fields s l c) as (Hhi & Hai & Hnew & Hev & Hold).
  set (c1 := store_share s l (array_at s c)) in *.
  unfold append_branches. rewrite Hnew. unfold wf_bounds in Hb.
  destruct (newest c) as [n |] eqn:Hn, (oldest c) as [o |] eqn:Ho; try done.
  - destruct Hb as [Hle Hkeys]. destruct (Hfirst n Hn) as [rest Hrest].
    destruct (absheight n <? absheight s) eqn:Hlt1.
    + apply Z.ltb_lt in Hlt1.
      assert (absheightIndexer c !! absheight s = None) as Hnone.
      { destruct (absheightIndexer c !! absheight s) eqn:E; [| done].
        destruct (Hkeys (absheight s)); [by eexists | lia]. }
      assert ((absheight s <? absheight o) = false) as Hso
        by (apply Z.ltb_ge; lia).
      rewrite Hso in Hold. unfold append_newer.
      destruct (cleanDeprecations_fields (newest_set s c1) s o)
        as (_ & Hai3 & Hnew3); [done | done | |].
      { simpl. rewrite Hai. intros E.
        destruct (decide (absheight s = absheight o)) as [Heq | Hne]; [lia |].
        rewrite lookup_insert_ne in E by done.
        by destruct (Ha _ _ E) as [? _]. }
      destruct (check_previous_frame s (cleanDeprecations (newest_set s c1)))
        as (Hnew4 & _ & _ & Hai4).
      intros m Hm. rewrite Hnew4, Hnew3 in Hm. injection Hm as <-.
      rewrite Hai4 by lia. rewrite Hai3. simpl. exists [].
      destruct (negb _) eqn:Hevict.
      * apply negb_true_iff, Z.ltb_ge in Hevict.
        unfold MAX_CHAIN_LENGTH, BASE_CHAIN_LENGTH in Hevict. simpl in Hevict.
        rewrite lookup_delete_ne by lia.
        rewrite Hai, lookup_insert_eq. unfold l, shares_at. by rewrite Hnone.
      * rewrite Hai, lookup_insert_eq. unfold l, shares_at. by rewrite Hnone.
    + apply Z.ltb_ge in Hlt1. destruct (absheight s =? absheight n) eqn:Heq.
      * apply Z.eqb_eq in Heq. intros m Hm. simpl in Hm. rewrite Hnew in Hm.
        injection Hm as <-. simpl. rewrite Hai, <- Heq, lookup_insert_eq.
        unfold l, shares_at. rewrite Heq, Hrest. simpl. by eexists.
      * apply Z.eqb_neq in Heq.
        destruct (append_older_frame s l c1) as (Hnew4 & _ & _ & Hai4).
        intros m Hm. rewrite Hnew4, Hnew in Hm. injection Hm as <-.
        rewrite Hai4 by done. rewrite Hai, lookup_insert_ne by done.
        by eexists.
  - change (oldest (newest_set s c1)) with (oldest c1). rewrite Hold.
    intros m Hm. simpl in Hm. injection Hm as <-. simpl.
    rewrite Hai, lookup_insert_eq. unfold l, shares_at. rewrite Hb.
    by eexists.
Qed.

Lemma newest_first_appends (shares : list BaseShare) :
  newest_first (appends init shares).
Proof.
  assert (∀ c, wf c → newest_first c → newest_first (appends c shares)) as H.
  { induction shares as [| s shares IH]; intros c Hwf Hfirst; [done |].
    simpl. apply IH; [by apply wf_append | by apply newest_first_append]. }
  apply H; [apply wf_init | done].
Qed.

Lemma MAX_CHAIN_LENGTH_value : MAX_CHAIN_LENGTH = 17280.
Proof. reflexivity. Qed.

Lemma BASE_CHAIN_LENGTH_value : BASE_CHAIN_LENGTH = 8640.
Proof. reflexivity. Qed.

Lemma cleanDeprecations_events (c : t) :
  events (cleanDeprecations c) = events c
  ∧ oldest (cleanDeprecations c) = oldest c.
Proof.
  unfold cleanDeprecations.
  destruct (newest c) as [n |]; [| done]. destruct (oldest c) as [o |] eqn:Ho; [| done].
  destruct (absheight n - absheight o <? MAX_CHAIN_LENGTH); [done |].
  destruct (absheightIndexer c !! absheight o) as [[| d dep] |]; done.
Qed.

(** The store a new tip finds when [check_previous] runs: the tip alone
    at its height, [newestChanged] triggered, the height of [oldest]
    evicted when the window is full, the other heights as they were. *)
Lemma new_tip_state (c : t) (s n o : BaseShare) :
  wf c → validity s = true →
  newest c = Some n → oldest c = Some o → absheight n < absheight s →
  ∃ c3,
    append c s = check_previous s c3
    ∧ newest c3 = Some s ∧ oldest c3 = Some o
    ∧ events c3 = events c ++ [NewestChanged s]
    ∧ absheightIndexer c3
      = (if negb (absheight s - absheight o <? MAX_CHAIN_LENGTH)
         then delete (absheight o) (<[absheight s := [s]]> (absheightIndexer c))
         else <[absheight s := [s]]> (absheightIndexer c))
    ∧ hashIndexer c3
      = (if negb (absheight s - absheight o <? MAX_CHAIN_LENGTH)
         then foldl (λ m ds, delete (hash ds) m)
                (<[hash s := absheight s]> (hashIndexer c))
                (shares_at c (absheight o))
         else <[hash s := absheight s]> (hashIndexer c)).
Proof.
  intros [[Ha Hh] Hb] Hvalid Hn Ho Hlt.
  unfold wf_bounds in Hb. rewrite Hn, Ho in Hb. destruct Hb as [Hle Hkeys].
  assert (absheightIndexer c !! absheight s = None) as Hnone.
  { destruct (absheightIndexer c !! absheight s) eqn:E; [| done].
    destruct (Hkeys (absheight s)); [by eexists | lia]. }
  assert (shares_at c (absheight s) = []) as Hempty
    by (unfold shares_at; by rewrite Hnone).
  rewrite append_stored; [| done | by rewrite Hempty; intros x ?%elem_of_nil].
  rewrite Hempty. simpl.
  destruct (stored_fields s [s] c) as (Hhi & Hai & Hnew & Hev & Hold).
  set (c1 := store_share s [s] (array_at s c)) in *.
  rewrite Ho in Hold.
  assert ((absheight s <? absheight o) = false) as Hso by (apply Z.ltb_ge; lia).
  rewrite Hso in Hold.
  unfold append_branches. rewrite Hnew, Hn.
  assert ((absheight n <? absheight s) = true) as -> by (by apply Z.ltb_lt).
  unfold append_newer.
  destruct (cleanDeprecations_fields (newest_set s c1) s o)
    as (Hhi3 & Hai3 & Hnew3); [done | done | |].
  { simpl. rewrite Hai, lookup_insert_ne by lia. intros E.
    by destruct (Ha _ _ E) as [? _]. }
  destruct (cleanDeprecations_events (newest_set s c1)) as [Hev3 Hold3].
  exists (cleanDeprecations (newest_set s c1)).
  split; [done |]. split; [done |]. split; [by rewrite Hold3 |].
  split; [by rewrite Hev3; simpl; rewrite Hev |].
  split.
  - rewrite Hai3. simpl. by rewrite Hai.
  - rewrite Hhi3. simpl. rewrite Hhi.
    destruct (negb _); [| done]. f_equal.
    unfold shares_at. simpl. by rewrite Hai, lookup_insert_ne by lia.
Qed.

Lemma find_head_filter (p : BaseShare → bool) (l : list BaseShare) :
  List.find p l = head (List.filter p l).
Proof.
  induction l as [| a l IH]; [done |]. simpl. by destruct (p a).
Qed.

(** With no hash twice in the array, [singleOrDefault] on a hash is the
    first share that has it. *)
Lemma singleOrDefault_find (l : list BaseShare) (h : string) :
  NoDup (hash <$> l) →
  singleOrDefault (λ x, String.eqb (hash x) h) l
  = match List.find (λ x, String.eqb (hash x) h) l with
    | Some v => SingleValue v
    | None => SingleDefault
    end.
Proof.
  intros Hnd. pose proof (singleOrDefault_no_error l h Hnd) as Hno.
  rewrite find_head_filter. unfold singleOrDefault in *.
  destruct (List.filter _ l) as [| x [| y rest]]; done.
Qed.

Lemma except_one (l : list BaseShare) (v : BaseShare) :
  except same_hash l [v]
  = List.filter (λ x, negb (String.eqb (hash x) (hash v))) l.
Proof.
  unfold except. apply List.filter_ext. intros x. simpl. unfold same_hash.
  by rewrite orb_false_r.
Qed.

(** Two shares or more with distinct hashes: some share is not [v]. *)
Lemma others_not_empty (l : list BaseShare) (v : BaseShare) :
  NoDup (hash <$> l) → (2 ≤ List.length l)%nat →
  except same_hash l [v] ≠ [].
Proof.
  intros Hnd Hlen. destruct l as [| a [| b l]]; simpl in Hlen; try lia.
  rewrite !fmap_cons in Hnd. apply NoDup_cons in Hnd as [Hab _].
  assert (hash a ≠ hash b) as Hne.
  { intros Heq. apply Hab. rewrite Heq. apply list_elem_of_here. }
  destruct (decide (hash a = hash v)) as [Hav | Hav].
  - assert (b ∈ except same_hash (a :: b :: l) [v]) as Hin.
    { apply elem_of_except. split; [| congruence].
      apply elem_of_cons. right. apply list_elem_of_here. }
    intros E. rewrite E in Hin. by apply elem_of_nil in Hin.
  - assert (a ∈ except same_hash (a :: b :: l) [v]) as Hin.
    { apply elem_of_except. split; [apply list_elem_of_here | done]. }
    intros E. rewrite E in Hin. by apply elem_of_nil in Hin.
Qed.

(** What the algorithm in words says of a new tip and the array one
    height below it: a gap when the array is missing; nothing when it holds
    one share; with several, the orphans when one of them is the previous
    share of the tip, and a gap when none is. *)
Definition tip_events (s : BaseShare) (previous : list BaseShare)
    : list ChainEvent :=
  match previous with
  | [] => [one_gap s]
  | [_] => []
  | _ =>
    match List.find (λ x, String.eqb (hash x) (previousShareHash s)) previous with
    | Some parent =>
      [OrphansFound
         (List.filter (λ x, negb (String.eqb (hash x) (hash parent))) previous)]
    | None => [one_gap s]
    end
  end.

(** The array one height below the tip afterwards: the previous share
    first, then the orphans. *)
Definition tip_previous (s : BaseShare) (previous : list BaseShare)
    : list BaseShare :=
  match previous with
  | [] | [_] => previous
  | _ =>
    match List.find (λ x, String.eqb (hash x) (previousShareHash s)) previous with
    | Some parent =>
      parent
      :: List.filter (λ x, negb (String.eqb (hash x) (hash parent))) previous
    | None => previous
    end
  end.

Lemma check_previous_in_words (s : BaseShare) (c : t) :
  (∀ prev, absheightIndexer c !! (absheight s - 1) = Some prev →
           prev ≠ [] ∧ NoDup (hash <$> prev)) →
  snd (check_previous s c) = ReturnTrue
  ∧ events (fst (check_previous s c))
    = events c ++ tip_events s (shares_at c (absheight s - 1))
  ∧ shares_at (fst (check_previous s c)) (absheight s - 1)
    = tip_previous s (shares_at c (absheight s - 1)).
Proof.
  intros Hprev.
  destruct (absheightIndexer c !! (absheight s - 1)) as [prev |] eqn:E.
  - assert (shares_at c (absheight s - 1) = prev) as ->
      by (unfold shares_at; by rewrite E).
    destruct (Hprev prev eq_refl) as [Hne Hnd].
    unfold check_previous. rewrite E.
    destruct prev as [| a [| b prev]]; [done | |].
    + assert ((Z.of_nat (List.length [a]) <? 2) = true) as -> by reflexivity.
      unfold shares_at. cbn. by rewrite E, app_nil_r.
    + assert ((Z.of_nat (List.length (a :: b :: prev)) <? 2) = false) as ->
        by (apply Z.ltb_ge; simpl; lia).
      rewrite (singleOrDefault_find _ _ Hnd).
      unfold tip_events, tip_previous.
      destruct (List.find _ (a :: b :: prev)) as [v |] eqn:Hfind.
      * assert (except same_hash (a :: b :: prev) [v] ≠ []) as Hothers
          by (apply others_not_empty; [done | simpl; lia]).
        rewrite <- except_one.
        destruct (except same_hash (a :: b :: prev) [v]) as [| y ys] eqn:Hex;
          [done |].
        unfold shares_at. cbn. by rewrite lookup_insert_eq.
      * unfold shares_at. cbn. by rewrite E.
  - assert (shares_at c (absheight s - 1) = []) as ->
      by (unfold shares_at; by rewrite E).
    unfold check_previous. rewrite E. unfold shares_at. cbn. by rewrite E.
Qed.

(** In a store reached by [append] calls, a valid share above [newest]
    is always accepted: [append] returns true, the share becomes
    [newest] and stands alone at its height, [newestChanged] is triggered
    and then the events of the algorithm in words, and the array one
    height below has the previous share of the tip in front. *)
Theorem append_new_tip (appended : list BaseShare) (s n : BaseShare) :
  let c := appends init appended in
  validity s = true → newest c = Some n → absheight n < absheight s →
  snd (append c s) = ReturnTrue
  ∧ newest (fst (append c s)) = Some s
  ∧ shares_at (fst (append c s)) (absheight s) = [s]
  ∧ events (fst (append c s))
    = events c ++ NewestChanged s
                  :: tip_events s (shares_at c (absheight s - 1))
  ∧ shares_at (fst (append c s)) (absheight s - 1)
    = tip_previous s (shares_at c (absheight s - 1)).
Proof.
  intros c Hvalid Hn Hlt.
  pose proof (wf_appends init appended wf_init) as Hwf. fold c in Hwf.
  pose proof Hwf as [[Ha _] Hb]. unfold wf_bounds in Hb. rewrite Hn in Hb.
  destruct (oldest c) as [o |] eqn:Ho; [| done]. destruct Hb as [Hle _].
  destruct (new_tip_state c s n o Hwf Hvalid Hn Ho Hlt)
    as (c3 & -> & Hnew3 & _ & Hev3 & Hai3 & _).
  assert (absheightIndexer c3 !! absheight s = Some [s]) as Hs3.
  { rewrite Hai3. destruct (negb _) eqn:Hevict.
    - apply negb_true_iff, Z.ltb_ge in Hevict.
      rewrite MAX_CHAIN_LENGTH_value in Hevict.
      rewrite lookup_delete_ne by lia. by rewrite lookup_insert_eq.
    - by rewrite lookup_insert_eq. }
  assert (absheightIndexer c3 !! (absheight s - 1)
          = absheightIndexer c !! (absheight s - 1)) as Hp3.
  { rewrite Hai3. destruct (negb _) eqn:Hevict.
    - apply negb_true_iff, Z.ltb_ge in Hevict.
      rewrite MAX_CHAIN_LENGTH_value in Hevict.
      rewrite lookup_delete_ne by lia. by rewrite lookup_insert_ne by lia.
    - by rewrite lookup_insert_ne by lia. }
  assert (shares_at c3 (absheight s - 1) = shares_at c (absheight s - 1))
    as Hsame by (unfold shares_at; by rewrite Hp3).
  destruct (check_previous_frame s c3) as (Hnew4 & _ & _ & Hai4).
  destruct (check_previous_in_words s c3) as (Hret & Hev4 & Hprev4).
  { intros prev E. rewrite Hp3 in E. by destruct (Ha _ _ E) as (? & _ & ?). }
  split; [done |]. split; [by rewrite Hnew4 |]. split; [| split].
  - unfold shares_at. rewrite Hai4 by lia. by rewrite Hs3.
  - by rewrite Hev4, Hev3, Hsame, <- app_assoc.
  - by rewrite Hprev4, Hsame.
Qed.

Lemma append_new_tip_witness :
  let c := appends init [share_A; share_B] in
  snd (append c share_C) = ReturnTrue
  ∧ newest (fst (append c share_C)) = Some share_C
  ∧ shares_at (fst (append c share_C)) (absheight share_C) = [share_C]
  ∧ events (fst (append c share_C))
    = events c ++ NewestChanged share_C
                  :: tip_events share_C (shares_at c (absheight share_C - 1))
  ∧ shares_at (fst (append c share_C)) (absheight share_C - 1)
    = tip_previous share_C (shares_at c (absheight share_C - 1)).
Proof.
  apply (append_new_tip [share_A; share_B] share_C share_A).
  - reflexivity.
  - reflexivity.
  - simpl. lia.
Defined.

(** The shares that were at the height before the push. *)
Lemma except_pushed (others : list BaseShare) (s : BaseShare) :
  (∀ x, x ∈ others → hash x ≠ hash s) →
  except same_hash (others ++ [s]) [s] = others.
Proof.
  intros Hfresh. rewrite except_one, List.filter_app. simpl.
  rewrite String.eqb_refl. simpl. rewrite app_nil_r.
  induction others as [| a others IH]; [done |]. simpl.
  assert (String.eqb (hash a) (hash s) = false) as ->.
  { apply String.eqb_neq, Hfresh, list_elem_of_here. }
  simpl. f_equal. apply IH. intros x Hx. apply Hfresh. by apply elem_of_cons; right.
Qed.

(** What [append] returns for a share below [newest]. *)
Definition older_return (others next : list BaseShare) : Completion :=
  match others, next with
  | [], _ => ReturnTrue
  | _, [] => ReturnUndefined
  | _, _ => ReturnFalse
  end.

Lemma append_older_in_words (s : BaseShare) (others : list BaseShare) (c : t) :
  absheightIndexer c !! absheight s = Some (others ++ [s]) →
  (∀ x, x ∈ others → hash x ≠ hash s) →
  let next := shares_at c (absheight s + 1) in
  let referenced :=
    existsb (λ x, String.eqb (previousShareHash x) (hash s)) next in
  snd (append_older s (others ++ [s]) c) = older_return others next
  ∧ events (fst (append_older s (others ++ [s]) c))
    = events c
      ++ match older_return others next with
         | ReturnFalse =>
           if referenced then [OrphansFound others] else [DeadArrived s]
         | _ => []
         end
  ∧ shares_at (fst (append_older s (others ++ [s]) c)) (absheight s)
    = match older_return others next with
      | ReturnFalse => if referenced then s :: others else others ++ [s]
      | _ => others ++ [s]
      end.
Proof.
  intros Hs Hfresh. unfold append_older, shares_at.
  destruct others as [| a others].
  { assert ((Z.of_nat (List.length ([] ++ [s])) <? 2) = true) as ->
      by reflexivity.
    cbn. by rewrite Hs, app_nil_r. }
  assert ((Z.of_nat (List.length ((a :: others) ++ [s])) <? 2) = false) as ->.
  { apply Z.ltb_ge. rewrite length_app. simpl. lia. }
  destruct (absheightIndexer c !! (absheight s + 1)) as [[| x next] |] eqn:E.
  - cbn. by rewrite Hs, app_nil_r.
  - unfold some. change (default [] (Some (x :: next))) with (x :: next).
    cbn [older_return].
    destruct (existsb _ (x :: next)) eqn:Href; cbn [negb].
    + rewrite except_pushed by done.
      assert ((0 <? Z.of_nat (List.length (a :: others))) = true) as ->
        by reflexivity.
      cbn. by rewrite lookup_insert_eq.
    + cbn. by rewrite Hs.
  - cbn. by rewrite Hs, app_nil_r.
Qed.

(** A valid share below [newest] that is no duplicate is stored in every
    case. Alone at its height it is accepted with true and no event. With
    other shares at its height and none one height up, [append] returns
    undefined. With shares one height up, [append] returns false: when one
    of them names the share as its previous share, the share moves to the
    front of its array and the others are reported as orphans; when none
    does, the share is reported dead and stays last. *)
Theorem append_below_newest (c : t) (s n : BaseShare) :
  validity s = true →
  (∀ x, x ∈ shares_at c (absheight s) → hash x ≠ hash s) →
  newest c = Some n → absheight s < absheight n →
  let others := shares_at c (absheight s) in
  let next := shares_at c (absheight s + 1) in
  let referenced :=
    existsb (λ x, String.eqb (previousShareHash x) (hash s)) next in
  snd (append c s) = older_return others next
  ∧ events (fst (append c s))
    = events c
      ++ match older_return others next with
         | ReturnFalse =>
           if referenced then [OrphansFound others] else [DeadArrived s]
         | _ => []
         end
  ∧ shares_at (fst (append c s)) (absheight s)
    = match older_return others next with
      | ReturnFalse => if referenced then s :: others else others ++ [s]
      | _ => others ++ [s]
      end
  ∧ hashIndexer (fst (append c s)) = <[hash s := absheight s]> (hashIndexer c)
  ∧ newest (fst (append c s)) = Some n.
Proof.
  intros Hvalid Hfresh Hn Hlt. cbv zeta.
  rewrite (append_stored _ _ Hvalid Hfresh).
  set (others := shares_at c (absheight s)) in *.
  destruct (stored_fields s (others ++ [s]) c) as (Hhi & Hai & Hnew & Hev & _).
  set (c1 := store_share s (others ++ [s]) (array_at s c)) in *.
  assert (shares_at c1 (absheight s + 1) = shares_at c (absheight s + 1)) as Hn1
    by (unfold shares_at; by rewrite Hai, lookup_insert_ne by lia).
  unfold append_branches. rewrite Hnew, Hn.
  assert ((absheight n <? absheight s) = false) as -> by (apply Z.ltb_ge; lia).
  assert ((absheight s =? absheight n) = false) as -> by (apply Z.eqb_neq; lia).
  destruct (append_older_in_words s others c1) as (Hret & Hev4 & Hs4);
    [by rewrite Hai, lookup_insert_eq | done |].
  destruct (append_older_frame s (others ++ [s]) c1) as (Hnew4 & _ & Hhi4 & _).
  rewrite Hn1 in Hret, Hev4, Hs4.
  split; [done |]. split; [by rewrite Hev4, Hev |]. split; [done |].
  split; [by rewrite Hhi4 | by rewrite Hnew4, Hnew].
Qed.

Definition share_e : BaseShare := mkShare "e" 100 "" true.
Definition share_f : BaseShare := mkShare "f" 101 "e" true.
Definition share_g : BaseShare := mkShare "g" 200 "" true.
Definition share_h : BaseShare := mkShare "h" 100 "" true.

(** The share [share_e] arrives after a sibling at its height and after
    the share that names it as previous share: it is moved to the front. *)
Lemma append_below_newest_witness :
  let c := appends init [share_h; share_f; share_g] in
  snd (append c share_e) = ReturnFalse
  ∧ events (fst (append c share_e)) = events c ++ [OrphansFound [share_h]]
  ∧ shares_at (fst (append c share_e)) 100 = [share_e; share_h]
  ∧ hashIndexer (fst (append c share_e))
    = <[hash share_e := 100]> (hashIndexer c)
  ∧ newest (fst (append c share_e)) = Some share_g.
Proof.
  apply (append_below_newest (appends init [share_h; share_f; share_g])
           share_e share_g).
  - reflexivity.
  - intros x Hx. apply list_elem_of_singleton in Hx as ->. discriminate.
  - reflexivity.
  - simpl. lia.
Defined.

(** ** add, has and get on stores reached by [append] *)

Lemma appends_app (c : t) (l1 l2 : list BaseShare) :
  appends c (l1 ++ l2) = appends (appends c l1) l2.
Proof. unfold appends. apply foldl_app. Qed.

(** [add] on a store reached by [append] calls never ends in the error of
    [singleOrDefault]: every share of the list is handed to [append], and
    the store is the one the [append] calls leave, one after the other. *)
Theorem add_appends_every_share (appended shares : list BaseShare) :
  add (appends init appended) shares
  = (appends init (appended ++ shares), true).
Proof.
  rewrite appends_app. apply add_appends, wf_appends, wf_init.
Qed.

(** In a store reached by [append] calls, a hash that [has] finds leads
    [get] to a share: the first share of the height the hash is indexed
    at, where a share with that hash is stored. *)
Theorem has_then_get (appended : list BaseShare) (h : string) :
  let c := appends init appended in
  has c h = true →
  ∃ first x,
    get c (IdHash h) = Some first
    ∧ hashIndexer c !! h = Some (absheight first)
    ∧ x ∈ shares_at c (absheight first) ∧ hash x = h
    ∧ get c (IdHeight (absheight first)) = Some first.
Proof.
  intros c Hhas. unfold has in Hhas. apply bool_decide_eq_true in Hhas as [k Hk].
  destruct (wf_appends init appended wf_init) as [[Ha Hh] _]. fold c in Ha, Hh.
  destruct (Hh _ _ Hk) as (l & x & Hl & Hx & Hhash).
  destruct (Ha _ _ Hl) as (_ & Hall & _).
  destruct l as [| first rest]; [by apply elem_of_nil in Hx |].
  assert (absheight first = k) as Hfirst by (apply Hall, list_elem_of_here).
  exists first, x. unfold get, shares_at. rewrite Hk, Hfirst, Hl. done.
Qed.

Lemma has_then_get_witness :
  ∃ first x,
    get store_200 (IdHash "b") = Some first
    ∧ hashIndexer store_200 !! "b"%string = Some (absheight first)
    ∧ x ∈ shares_at store_200 (absheight first) ∧ hash x = "b"%string
    ∧ get store_200 (IdHeight (absheight first)) = Some first.
Proof.
  apply (has_then_get [share_a; share_b; share_c] "b"). reflexivity.
Defined.

(** The hash index after a valid share that is no duplicate at its height
    has been appended: the hash of the share indexed at its height, and,
    when the share is a new tip that fills the window, the hashes of the
    shares at the height of [oldest] deleted after that. The share is in
    the array of its height. *)
Lemma append_indexes (c : t) (s : BaseShare) :
  wf c → validity s = true →
  (∀ x, x ∈ shares_at c (absheight s) → hash x ≠ hash s) →
  hashIndexer (fst (append c s))
  = match newest c, oldest c with
    | Some n, Some o =>
      if (absheight n <? absheight s)
         && negb (absheight s - absheight o <? MAX_CHAIN_LENGTH)
      then foldl (λ m ds, delete (hash ds) m)
             (<[hash s := absheight s]> (hashIndexer c))
             (shares_at c (absheight o))
      else <[hash s := absheight s]> (hashIndexer c)
    | _, _ => <[hash s := absheight s]> (hashIndexer c)
    end
  ∧ s ∈ shares_at (fst (append c s)) (absheight s).
Proof.
  intros Hwf Hvalid Hfresh. pose proof Hwf as [[Ha Hh] Hb].
  unfold wf_bounds in Hb.
  destruct (newest c) as [n |] eqn:Hn, (oldest c) as [o |] eqn:Ho; try done.
  - destruct (Z.lt_trichotomy (absheight n) (absheight s)) as [Hlt | [Heq | Hgt]].
    + destruct (new_tip_state c s n o Hwf Hvalid Hn Ho Hlt)
        as (c3 & -> & Hnew3 & _ & Hev3 & Hai3 & Hhi3).
      assert ((absheight n <? absheight s) = true) as -> by (by apply Z.ltb_lt).
      destruct (check_previous_shares s c3) as (Hhi4 & _ & Hmem).
      { intros prev E. rewrite Hai3 in E. destruct (negb _).
        - apply lookup_delete_Some in E as [_ E].
          destruct (decide (absheight s = absheight s - 1)) as [? | Hne]; [lia |].
          rewrite lookup_insert_ne in E by done.
          by destruct (Ha _ _ E) as (_ & _ & ?).
        - rewrite lookup_insert_ne in E by lia.
          by destruct (Ha _ _ E) as (_ & _ & ?). }
      rewrite Hhi4, Hhi3. split; [done |]. apply Hmem.
      unfold shares_at. rewrite Hai3. destruct Hb as [Hle _].
      destruct (negb _) eqn:Hevict.
      * apply negb_true_iff, Z.ltb_ge in Hevict.
        rewrite MAX_CHAIN_LENGTH_value in Hevict.
        rewrite lookup_delete_ne by lia. rewrite lookup_insert_eq.
        apply list_elem_of_here.
      * rewrite lookup_insert_eq. apply list_elem_of_here.
    + rewrite (append_stored _ _ Hvalid Hfresh).
      set (others := shares_at c (absheight s)) in *.
      destruct (stored_fields s (others ++ [s]) c) as (Hhi & Hai & Hnew & _).
      set (c1 := store_share s (others ++ [s]) (array_at s c)) in *.
      unfold append_branches. rewrite Hnew, Hn.
      assert ((absheight n <? absheight s) = false) as -> by (apply Z.ltb_ge; lia).
      assert ((absheight s =? absheight n) = true) as -> by (apply Z.eqb_eq; lia).
      simpl. split; [done |]. unfold shares_at. simpl.
      rewrite Hai, lookup_insert_eq. simpl. apply elem_of_app. right.
      apply list_elem_of_here.
    + assert ((absheight n <? absheight s) = false) as -> by (apply Z.ltb_ge; lia).
      simpl.
      rewrite (append_stored _ _ Hvalid Hfresh).
      set (others := shares_at c (absheight s)) in *.
      destruct (stored_fields s (others ++ [s]) c) as (Hhi & Hai & Hnew & _).
      set (c1 := store_share s (others ++ [s]) (array_at s c)) in *.
      unfold append_branches. rewrite Hnew, Hn.
      assert ((absheight n <? absheight s) = false) as -> by (apply Z.ltb_ge; lia).
      assert ((absheight s =? absheight n) = false) as -> by (apply Z.eqb_neq; lia).
      destruct (append_older_in_words s others c1) as (_ & _ & Hs4);
        [by rewrite Hai, lookup_insert_eq | done |].
      destruct (append_older_frame s (others ++ [s]) c1) as (_ & _ & Hhi4 & _).
      rewrite Hhi4. split; [done |]. rewrite Hs4.
      assert (s ∈ others ++ [s]) as Hlast
        by (apply elem_of_app; right; apply list_elem_of_here).
      destruct (older_return _ _); try done.
      destruct (existsb _ _); [apply list_elem_of_here | done].
  - rewrite (append_stored _ _ Hvalid Hfresh).
    set (others := shares_at c (absheight s)) in *.
    destruct (stored_fields s (others ++ [s]) c) as (Hhi & Hai & Hnew & _ & Hold).
    set (c1 := store_share s (others ++ [s]) (array_at s c)) in *.
    unfold append_branches. rewrite Hnew, Hn.
    change (oldest (newest_set s c1)) with (oldest c1). rewrite Hold, Ho.
    simpl. split; [done |]. unfold shares_at. simpl.
    rewrite Hai, lookup_insert_eq. simpl. apply elem_of_app. right.
    apply list_elem_of_here.
Qed.

(** In a store reached by [append] calls, a valid share that is appended,
    whose hash no share at its height and no share at the height of
    [oldest] has, is found afterwards: [has] holds for its hash, the share
    is in the array of its height, and [get] on its hash returns the first
    share of that array. *)
Theorem append_then_get (appended : list BaseShare) (s : BaseShare) :
  let c := appends init appended in
  let c' := fst (append c s) in
  validity s = true →
  (∀ x, x ∈ shares_at c (absheight s) → hash x ≠ hash s) →
  (∀ o x, oldest c = Some o → x ∈ shares_at c (absheight o) → hash x ≠ hash s) →
  has c' (hash s) = true
  ∧ s ∈ shares_at c' (absheight s)
  ∧ get c' (IdHash (hash s)) = head (shares_at c' (absheight s)).
Proof.
  intros c c' Hvalid Hfresh Hold.
  pose proof (wf_appends init appended wf_init) as Hwf. fold c in Hwf.
  destruct (append_indexes c s Hwf Hvalid Hfresh) as [Hhi Hin]. fold c' in Hhi, Hin.
  assert (hashIndexer c' !! hash s = Some (absheight s)) as Hidx.
  { rewrite Hhi. destruct (newest c) as [n |], (oldest c) as [o |] eqn:Ho;
      try by rewrite lookup_insert_eq.
    destruct (_ && _); [| by rewrite lookup_insert_eq].
    rewrite lookup_delete_hashes. case_bool_decide as Hmem.
    - apply list_elem_of_fmap in Hmem as (x & Hx & Hxin).
      by destruct (Hold o x eq_refl Hxin).
    - by rewrite lookup_insert_eq. }
  split; [| split; [done |]].
  - unfold has. rewrite Hidx. by apply bool_decide_eq_true.
  - unfold get, shares_at. rewrite Hidx.
    by destruct (absheightIndexer c' !! absheight s) as [[| x l] |].
Qed.

Lemma append_then_get_witness :
  let c' := fst (append store_200 share_d) in
  has c' (hash share_d) = true
  ∧ share_d ∈ shares_at c' (absheight share_d)
  ∧ get c' (IdHash (hash share_d)) = head (shares_at c' (absheight share_d)).
Proof.
  apply (append_then_get [share_a; share_b; share_c] share_d).
  - reflexivity.
  - intros x Hx. apply list_elem_of_singleton in Hx as ->. discriminate.
  - intros o x Ho Hx.
    assert (oldest (appends init [share_a; share_b; share_c]) = Some share_a)
      as Holdest by (vm_compute; reflexivity).
    rewrite Holdest in Ho. injection Ho as <-.
    apply list_elem_of_singleton in Hx as ->. discriminate.
Defined.

(** ** length and size *)

(** Heights that are all keys of the map, one below the other, are no more
    than the map has keys. *)
Lemma consecutive_keys_bound (ai : gmap Z (list BaseShare)) (top : Z) (m : nat) :
  (∀ i, (i < m)%nat → is_Some (ai !! (top - Z.of_nat i))) →
  (m ≤ size ai)%nat.
Proof.
  intros Hkeys.
  set (l := (λ i : nat, top - Z.of_nat i) <$> seq 0 m).
  assert (NoDup l) as Hnd.
  { apply NoDup_fmap_2; [| apply NoDup_seq]. intros i j Hij. lia. }
  assert ((list_to_set l : gset Z) ⊆ dom ai) as Hsub.
  { intros k Hk. apply elem_of_list_to_set, list_elem_of_fmap in Hk
      as (i & -> & Hi).
    apply elem_of_seq in Hi. apply elem_of_dom, Hkeys. lia. }
  apply subseteq_size in Hsub.
  rewrite size_list_to_set, size_dom in Hsub by done.
  unfold l in Hsub. by rewrite length_fmap, length_seq in Hsub.
Qed.

Lemma length_loop_counts (rounds : nat) (ai : gmap Z (list BaseShare)) (height : Z) :
  let r := length_loop rounds ai height in
  (r ≤ rounds)%nat
  ∧ (∀ i, (i < r)%nat → is_Some (ai !! (height - Z.of_nat i)))
  ∧ ((r < rounds)%nat → ai !! (height - Z.of_nat r) = None).
Proof.
  revert height. induction rounds as [| rounds IH]; intros height; simpl.
  { split; [lia |]. split; intros; lia. }
  case_bool_decide as Hkey.
  - destruct (IH (height - 1)) as (Hle & Hin & Hout).
    split; [lia |]. split.
    + intros [| i] Hi.
      * by replace (height - Z.of_nat 0) with height by lia.
      * replace (height - Z.of_nat (S i)) with (height - 1 - Z.of_nat i) by lia.
        apply Hin. lia.
    + intros Hlt.
      replace (height - Z.of_nat (S (length_loop rounds ai (height - 1))))
        with (height - 1 - Z.of_nat (length_loop rounds ai (height - 1))) by lia.
      apply Hout. lia.
  - split; [lia |]. split; [intros; lia |]. intros _.
    replace (height - Z.of_nat 0) with height by lia.
    by apply eq_None_not_Some.
Qed.

(** The count does not change with more rounds once a height is missing. *)
Lemma length_loop_more (rounds extra : nat) (ai : gmap Z (list BaseShare))
    (height : Z) :
  ai !! (height - Z.of_nat (length_loop rounds ai height)) = None →
  length_loop (rounds + extra) ai height = length_loop rounds ai height.
Proof.
  revert height. induction rounds as [| rounds IH]; intros height; simpl.
  - replace (height - Z.of_nat 0) with height by lia. intros Hnone.
    destruct extra as [| extra]; [done |]. simpl.
    case_bool_decide as Hkey; [| done]. rewrite Hnone in Hkey.
    by destruct Hkey.
  - case_bool_decide as Hkey; [| done]. intros Hnone. f_equal. apply IH.
    by replace (height - 1 - Z.of_nat (length_loop rounds ai (height - 1)))
      with (height - Z.of_nat (S (length_loop rounds ai (height - 1)))) by lia.
Qed.

(** Where the loop of [length] ends. *)
Lemma length_loop_ends (c : t) (n : BaseShare) :
  newest c = Some n →
  let k := chain_length c in
  (∀ i, (i < k)%nat → is_Some (absheightIndexer c !! (absheight n - Z.of_nat i)))
  ∧ absheightIndexer c !! (absheight n - Z.of_nat k) = None
  ∧ (k ≤ chain_size c)%nat
  ∧ ∀ extra,
      length_loop (size (absheightIndexer c) + extra) (absheightIndexer c)
        (absheight n) = k.
Proof.
  intros Hn k.
  assert (k = length_loop (size (absheightIndexer c)) (absheightIndexer c)
                (absheight n)) as Hk by (unfold k, chain_length; by rewrite Hn).
  clearbody k. subst k.
  set (k := length_loop (size (absheightIndexer c)) (absheightIndexer c)
              (absheight n)).
  destruct (length_loop_counts (size (absheightIndexer c)) (absheightIndexer c)
              (absheight n)) as (Hle & Hin & Hout).
  fold k in Hle, Hin, Hout. unfold chain_size.
  assert (absheightIndexer c !! (absheight n - Z.of_nat k) = None) as Hnone.
  { destruct (decide (k < size (absheightIndexer c))%nat) as [Hlt | Hge];
      [by apply Hout |].
    apply eq_None_not_Some. intros Hkey.
    assert (S k ≤ size (absheightIndexer c))%nat; [| lia].
    apply (consecutive_keys_bound _ (absheight n)). intros i Hi.
    destruct (decide (i = k)) as [-> | Hne]; [done |]. apply Hin. lia. }
  split; [done |]. split; [done |]. split; [done |].
  intros extra. by apply length_loop_more.
Qed.

(** The getter [length] of a store that has a [newest]: with [k] the
    value it returns, the [k] heights from that of [newest] down are all
    keys of the map and the height below them is not, so the loop ends
    there; [k] is at most [size]. *)
Theorem chain_length_counts (c : t) (n : BaseShare) :
  newest c = Some n →
  let k := chain_length c in
  (∀ i, (i < k)%nat → is_Some (absheightIndexer c !! (absheight n - Z.of_nat i)))
  ∧ absheightIndexer c !! (absheight n - Z.of_nat k) = None
  ∧ (k ≤ chain_size c)%nat
  ∧ ∀ extra,
      length_loop (size (absheightIndexer c) + extra) (absheightIndexer c)
        (absheight n) = k.
Proof. apply length_loop_ends. Qed.

Lemma chain_length_counts_witness :
  (∀ i, (i < 1)%nat →
        is_Some (absheightIndexer store_200 !! (absheight share_c - Z.of_nat i)))
  ∧ absheightIndexer store_200 !! (absheight share_c - Z.of_nat 1) = None
  ∧ (1 ≤ chain_size store_200)%nat
  ∧ ∀ extra,
      length_loop (size (absheightIndexer store_200) + extra)
        (absheightIndexer store_200) (absheight share_c) = 1%nat.
Proof.
  apply (chain_length_counts store_200 share_c). reflexivity.
Defined.

(** The heights from [low] to [high]. *)
Lemma keys_in_range_bound (ai : gmap Z (list BaseShare)) (low high : Z) :
  low ≤ high →
  (∀ k, is_Some (ai !! k) → low ≤ k ≤ high) →
  Z.of_nat (size ai) ≤ high - low + 1.
Proof.
  intros Hle Hkeys.
  assert (dom ai ⊆ (list_to_set (seqZ low (high - low + 1)) : gset Z)) as Hsub.
  { intros k Hk. apply elem_of_dom in Hk. apply elem_of_list_to_set, elem_of_seqZ.
    specialize (Hkeys k Hk). lia. }
  apply subseteq_size in Hsub.
  rewrite size_dom, size_list_to_set in Hsub by apply NoDup_seqZ.
  rewrite length_seqZ in Hsub. lia.
Qed.

(** In a store reached by [append] calls that holds a share, [length] is
    at least 1, and [length] and [size] are at most the number of heights
    from that of [oldest] to that of [newest]. *)
Theorem chain_length_within_bounds (appended : list BaseShare) (n : BaseShare) :
  let c := appends init appended in
  newest c = Some n →
  ∃ o, oldest c = Some o
       ∧ (1 ≤ chain_length c ≤ chain_size c)%nat
       ∧ Z.of_nat (chain_size c) ≤ absheight n - absheight o + 1.
Proof.
  intros c Hn.
  destruct (wf_appends init appended wf_init) as [_ Hb]. fold c in Hb.
  pose proof (newest_first_appends appended) as Hfirst. fold c in Hfirst.
  unfold wf_bounds in Hb. rewrite Hn in Hb.
  destruct (oldest c) as [o |]; [| done]. destruct Hb as [Hle Hkeys].
  exists o. split; [done |].
  destruct (length_loop_ends c n Hn) as (_ & Hnone & Hsize & _).
  split; [split; [| done] |].
  - destruct (chain_length c) as [| k]; [| lia].
    destruct (Hfirst n Hn) as [rest Hrest].
    replace (absheight n - Z.of_nat 0) with (absheight n) in Hnone by lia.
    by rewrite Hrest in Hnone.
  - by apply keys_in_range_bound.
Qed.

Lemma chain_length_within_bounds_witness :
  ∃ o, oldest store_200 = Some o
       ∧ (1 ≤ chain_length store_200 ≤ chain_size store_200)%nat
       ∧ Z.of_nat (chain_size store_200) ≤ absheight share_c - absheight o + 1.
Proof.
  apply (chain_length_within_bounds [share_a; share_b; share_c] share_c).
  reflexivity.
Defined.

(** ** verify *)

(** The first share of the array at a height, as [get] returns it. *)
Definition first_at (ai : gmap Z (list BaseShare)) (k : Z) : option BaseShare :=
  match ai !! k with
  | Some (s :: _) => Some s
  | _ => None
  end.

Lemma get_height (c : t) (k : Z) :
  get c (IdHeight k) = first_at (absheightIndexer c) k.
Proof. unfold get, first_at. by destruct (_ !! k) as [[| s l] |]. Qed.

(** The first share at height [k - 1] is the previous share of the first
    share at height [k]. *)
Definition linked (ai : gmap Z (list BaseShare)) (k : Z) : Prop :=
  ∃ s s', first_at ai k = Some s ∧ first_at ai (k - 1) = Some s'
          ∧ previousShareHash s = hash s'.

(** Both heights hold a share, and the one is not the previous share of
    the other. *)
Definition broken (ai : gmap Z (list BaseShare)) (k : Z) : Prop :=
  ∃ s s', first_at ai k = Some s ∧ first_at ai (k - 1) = Some s'
          ∧ previousShareHash s ≠ hash s'.

Lemma verify_loop_walk (rounds : nat) (ai : gmap Z (list BaseShare))
    (hash0 : string) (height : Z) :
  (∀ k l s, ai !! k = Some l → s ∈ l → absheight s = k) →
  (∀ k, ai !! k ≠ Some []) →
  let r := verify_loop rounds ai hash0 height in
  (r ≤ rounds)%nat
  ∧ (∀ i, (i < r)%nat → is_Some (ai !! (height - Z.of_nat i)))
  ∧ ((1 ≤ r)%nat → ∃ s, first_at ai height = Some s ∧ hash s = hash0)
  ∧ (∀ i, (i + 1 < r)%nat → linked ai (height - Z.of_nat i))
  ∧ ((1 ≤ r < rounds)%nat →
     is_Some (ai !! (height - Z.of_nat r)) →
     broken ai (height - Z.of_nat r + 1)).
Proof.
  intros Hall Hne. revert hash0 height.
  induction rounds as [| rounds IH]; intros hash0 height; simpl.
  { split; [lia |]. repeat split; intros; lia. }
  destruct (ai !! height) as [[| share rest] |] eqn:E;
    try (split; [lia |]; repeat split; intros; lia).
  destruct (String.eqb hash0 (hash share)) eqn:Hhash; simpl;
    [| split; [lia |]; repeat split; intros; lia].
  apply String.eqb_eq in Hhash.
  assert (absheight share = height) as Hheight
    by (apply (Hall _ _ _ E), list_elem_of_here).
  rewrite Hheight.
  assert (first_at ai height = Some share) as Hfirst
    by (unfold first_at; by rewrite E).
  destruct (IH (previousShareHash share) (height - 1))
    as (Hle & Hin & Hone & Hlinked & Hbroken).
  set (r := verify_loop rounds ai (previousShareHash share) (height - 1)) in *.
  split; [lia |]. split; [| split; [| split]].
  - intros [| i] Hi.
    + replace (height - Z.of_nat 0) with height by lia. by rewrite E.
    + replace (height - Z.of_nat (S i)) with (height - 1 - Z.of_nat i) by lia.
      apply Hin. lia.
  - intros _. by exists share.
  - intros [| i] Hi.
    + replace (height - Z.of_nat 0) with height by lia.
      destruct Hone as (s' & Hs' & Hps'); [lia |]. by exists share, s'.
    + replace (height - Z.of_nat (S i)) with (height - 1 - Z.of_nat i) by lia.
      apply Hlinked. lia.
  - intros Hr Hkey.
    replace (height - Z.of_nat (S r)) with (height - 1 - Z.of_nat r) in * by lia.
    destruct (decide (r = 0)%nat) as [Hzero | Hpos].
    + rewrite Hzero in *.
      replace (height - 1 - Z.of_nat 0 + 1) with height by lia.
      replace (height - 1 - Z.of_nat 0) with (height - 1) in Hkey by lia.
      destruct rounds as [| rounds]; [lia |].
      unfold r in Hzero. simpl in Hzero.
      destruct (ai !! (height - 1)) as [[| s' rest'] |] eqn:E1;
        [| | by destruct Hkey].
      { by destruct (Hne (height - 1)). }
      destruct (String.eqb (previousShareHash share) (hash s')) eqn:Hps;
        [done |].
      apply String.eqb_neq in Hps. exists share, s'.
      split; [done |]. split; [| done]. unfold first_at. by rewrite E1.
    + apply Hbroken; [lia | done].
Qed.

Lemma verify_loop_more (rounds extra : nat) (ai : gmap Z (list BaseShare))
    (hash0 : string) (height : Z) :
  (verify_loop rounds ai hash0 height < rounds)%nat →
  verify_loop (rounds + extra) ai hash0 height
  = verify_loop rounds ai hash0 height.
Proof.
  revert hash0 height. induction rounds as [| rounds IH]; intros hash0 height;
    simpl; [lia |].
  destruct (ai !! height) as [[| share rest] |]; try done.
  destruct (negb _); [done |]. intros Hlt. f_equal. apply IH. lia.
Qed.

Lemma verify_loop_mono (rounds extra : nat) (ai : gmap Z (list BaseShare))
    (hash0 : string) (height : Z) :
  (verify_loop rounds ai hash0 height
   ≤ verify_loop (rounds + extra) ai hash0 height)%nat.
Proof.
  revert hash0 height. induction rounds as [| rounds IH]; intros hash0 height;
    simpl; [lia |].
  destruct (ai !! height) as [[| share rest] |]; try done.
  destruct (negb _); [done |]. specialize (IH (previousShareHash share)
                                              (absheight share - 1)). lia.
Qed.

(** The loop of [verify] on a store reached by [append] calls. *)
Lemma verify_count_walk (c : t) (n : BaseShare) :
  wf c → newest_first c → newest c = Some n →
  let ai := absheightIndexer c in
  let k := verify_count c in
  (1 ≤ k ≤ chain_length c)%nat
  ∧ (∀ i, (i + 1 < k)%nat → linked ai (absheight n - Z.of_nat i))
  ∧ ((k < chain_length c)%nat → broken ai (absheight n - Z.of_nat k + 1))
  ∧ ∀ extra,
      verify_loop (size ai + extra) ai (hash n) (absheight n) = k.
Proof.
  intros [[Ha _] _] Hfirst Hn ai k.
  assert (∀ k l s, ai !! k = Some l → s ∈ l → absheight s = k) as Hall.
  { intros h l s Hl Hs. by destruct (Ha _ _ Hl) as (_ & Hall & _);
      destruct (Hall s Hs). }
  assert (∀ k, ai !! k ≠ Some []) as Hne.
  { intros h Hl. by destruct (Ha _ _ Hl) as (? & _). }
  assert (k = verify_loop (size ai) ai (hash n) (absheight n)) as Hk
    by (unfold k, verify_count; by rewrite Hn).
  clearbody k. subst k.
  destruct (length_loop_ends c n Hn) as (Hkeys & Hnone & Hsize & _).
  fold ai in Hkeys, Hnone. unfold chain_size in Hsize. fold ai in Hsize.
  assert (∀ rounds,
            (verify_loop rounds ai (hash n) (absheight n) ≤ chain_length c)%nat)
    as Hbound.
  { intros rounds.
    destruct (verify_loop_walk rounds ai (hash n) (absheight n) Hall Hne)
      as (_ & Hin & _).
    destruct (decide (verify_loop rounds ai (hash n) (absheight n)
                      ≤ chain_length c)%nat) as [? | Hgt]; [done |].
    destruct (Hin (chain_length c)) as [l Hl]; [lia |]. by rewrite Hnone in Hl. }
  destruct (verify_loop_walk (size ai) ai (hash n) (absheight n) Hall Hne)
    as (Hle & Hin & _ & Hlinked & Hbroken).
  set (k := verify_loop (size ai) ai (hash n) (absheight n)) in *.
  assert (1 ≤ k)%nat as Hone.
  { destruct (Hfirst n Hn) as [rest Hrest]. fold ai in Hrest.
    assert (1 ≤ size ai)%nat as Hpos.
    { destruct (decide (size ai = 0)%nat) as [Hz | ?]; [| lia].
      apply map_size_empty_iff in Hz. rewrite Hz in Hrest.
      by rewrite lookup_empty in Hrest. }
    unfold k. destruct (size ai) as [| m]; [lia |]. simpl.
    rewrite Hrest, String.eqb_refl. simpl. lia. }
  split; [split; [done | apply Hbound] |]. split; [done |]. split.
  - intros Hlt. apply Hbroken; [lia |]. apply Hkeys. lia.
  - intros extra.
    destruct (decide (k < size ai)%nat) as [Hlt | Hge];
      [by apply verify_loop_more |].
    pose proof (verify_loop_mono (size ai) extra ai (hash n) (absheight n)).
    pose proof (Hbound (size ai + extra)%nat). fold k in H. lia.
Qed.

(** [verify] on a store reached by [append] calls that holds a share. The
    count [verified] is at least 1 and at most [length]; the loop ends by
    itself; the first shares of the [verified] heights from [newest] down
    are linked, each the previous share of the one above; and when the
    count is below [length], the link to the next height is broken. *)
Theorem verify_counts_the_linked_heights (appended : list BaseShare)
    (n : BaseShare) :
  let c := appends init appended in
  newest c = Some n →
  let k := verify_count c in
  (1 ≤ k ≤ chain_length c)%nat
  ∧ get c (IdHeight (absheight n)) = Some n
  ∧ (∀ i, (i + 1 < k)%nat →
       ∃ s s', get c (IdHeight (absheight n - Z.of_nat i)) = Some s
               ∧ get c (IdHeight (absheight n - Z.of_nat i - 1)) = Some s'
               ∧ previousShareHash s = hash s')
  ∧ ((k < chain_length c)%nat →
       ∃ s s', get c (IdHeight (absheight n - Z.of_nat k + 1)) = Some s
               ∧ get c (IdHeight (absheight n - Z.of_nat k)) = Some s'
               ∧ previousShareHash s ≠ hash s')
  ∧ ∀ extra,
      verify_loop (size (absheightIndexer c) + extra) (absheightIndexer c)
        (hash n) (absheight n) = k.
Proof.
  intros c Hn k.
  pose proof (wf_appends init appended wf_init) as Hwf. fold c in Hwf.
  pose proof (newest_first_appends appended) as Hfirst. fold c in Hfirst.
  destruct (verify_count_walk c n Hwf Hfirst Hn)
    as (Hk & Hlinked & Hbroken & Hmore).
  fold k in Hk, Hlinked, Hbroken, Hmore.
  split; [done |]. split; [| split; [| split; [| done]]].
  - rewrite get_height. unfold first_at.
    destruct (Hfirst n Hn) as [rest ->]. done.
  - intros i Hi. destruct (Hlinked i Hi) as (s & s' & Hs & Hs' & Hp).
    exists s, s'. by rewrite !get_height.
  - intros Hlt. destruct (Hbroken Hlt) as (s & s' & Hs & Hs' & Hp).
    exists s, s'. rewrite !get_height.
    by replace (absheight n - Z.of_nat k + 1 - 1)
      with (absheight n - Z.of_nat k) in Hs' by lia.
Qed.

Lemma verify_counts_the_linked_heights_witness :
  let c := appends init [share_a; share_b] in
  let k := verify_count c in
  (1 ≤ k ≤ chain_length c)%nat
  ∧ get c (IdHeight (absheight share_b)) = Some share_b
  ∧ (∀ i, (i + 1 < k)%nat →
       ∃ s s', get c (IdHeight (absheight share_b - Z.of_nat i)) = Some s
               ∧ get c (IdHeight (absheight share_b - Z.of_nat i - 1)) = Some s'
               ∧ previousShareHash s = hash s')
  ∧ ((k < chain_length c)%nat →
       ∃ s s', get c (IdHeight (absheight share_b - Z.of_nat k + 1)) = Some s
               ∧ get c (IdHeight (absheight share_b - Z.of_nat k)) = Some s'
               ∧ previousShareHash s ≠ hash s')
  ∧ ∀ extra,
      verify_loop (size (absheightIndexer c) + extra) (absheightIndexer c)
        (hash share_b) (absheight share_b) = k.
Proof.
  apply (verify_counts_the_linked_heights [share_a; share_b] share_b).
  vm_compute. reflexivity.
Defined.

(** What [verify] returns and leaves on a store reached by [append] calls
    that holds a share. It returns true exactly when, all along the
    [length] heights from [newest] down, the first share of each height is
    the previous share of the first share one height up. The flag
    [verified] is the value returned. A [calculatable] that is set stays
    set and nothing is triggered; one that is not set is set exactly when
    [verify] returns true and [length] is [BASE_CHAIN_LENGTH] or more, and
    [chainCalculatable] is triggered then, with [length]. *)
Theorem verify_returns (appended : list BaseShare) (n : BaseShare)
    (flags : Flags) :
  let c := appends init appended in
  newest c = Some n →
  let r := verify c flags in
  (snd r = true
   ↔ ∀ i, (i + 1 < chain_length c)%nat →
       ∃ s s', get c (IdHeight (absheight n - Z.of_nat i)) = Some s
               ∧ get c (IdHeight (absheight n - Z.of_nat i - 1)) = Some s'
               ∧ previousShareHash s = hash s')
  ∧ verified (fst (fst r)) = snd r
  ∧ (calculatable flags = true →
     calculatable (fst (fst r)) = true ∧ snd (fst r) = None)
  ∧ (calculatable flags = false →
     (calculatable (fst (fst r)) = true
      ↔ snd r = true ∧ BASE_CHAIN_LENGTH ≤ Z.of_nat (chain_length c))
     ∧ snd (fst r)
       = if calculatable (fst (fst r))
         then Some (Z.of_nat (chain_length c)) else None).
Proof.
  intros c Hn r.
  pose proof (wf_appends init appended wf_init) as Hwf. fold c in Hwf.
  pose proof (newest_first_appends appended) as Hfirst. fold c in Hfirst.
  destruct (verify_count_walk c n Hwf Hfirst Hn)
    as (Hk & Hlinked & Hbroken & _).
  assert (r = ({| calculatable :=
                    if calculatable flags then true
                    else (verify_count c =? chain_length c)%nat
                         && (BASE_CHAIN_LENGTH <=? Z.of_nat (verify_count c));
                  verified := (verify_count c =? chain_length c)%nat |},
               (if negb (calculatable flags)
                   && (if calculatable flags then true
                       else (verify_count c =? chain_length c)%nat
                            && (BASE_CHAIN_LENGTH <=? Z.of_nat (verify_count c)))
                then Some (Z.of_nat (verify_count c)) else None),
               (verify_count c =? chain_length c)%nat)) as Hr
    by (unfold r, verify; by rewrite Hn).
  clearbody r. subst r. cbn [fst snd calculatable verified].
  split; [| split; [done |]; split].
  - rewrite Nat.eqb_eq. split.
    + intros Heq i Hi. rewrite <- Heq in Hi.
      destruct (Hlinked i Hi) as (s & s' & Hs & Hs' & Hp).
      exists s, s'. by rewrite !get_height.
    + intros Hall.
      destruct (decide (verify_count c < chain_length c)%nat) as [Hlt | ?];
        [| lia].
      destruct (Hbroken Hlt) as (s & s' & Hs & Hs' & Hp).
      destruct (Hall (verify_count c - 1)%nat) as (x & x' & Hx & Hx' & Hxp);
        [lia |].
      rewrite !get_height in Hx, Hx'.
      replace (absheight n - Z.of_nat (verify_count c - 1))
        with (absheight n - Z.of_nat (verify_count c) + 1) in Hx, Hx' by lia.
      rewrite Hs in Hx. rewrite Hs' in Hx'. congruence.
  - intros ->. done.
  - intros ->. cbn [negb andb]. split.
    + rewrite andb_true_iff, Nat.eqb_eq, Z.leb_le. split.
      * intros [Heq Hbase]. by rewrite <- Heq.
      * intros [Heq Hbase]. by rewrite Heq.
    + destruct (verify_count c =? chain_length c)%nat eqn:Heq; [| done].
      apply Nat.eqb_eq in Heq. rewrite Heq. done.
Qed.

Lemma verify_returns_witness :
  let c := appends init [share_a; share_b] in
  let r := verify c (mkFlags false false) in
  (snd r = true
   ↔ ∀ i, (i + 1 < chain_length c)%nat →
       ∃ s s', get c (IdHeight (absheight share_b - Z.of_nat i)) = Some s
               ∧ get c (IdHeight (absheight share_b - Z.of_nat i - 1)) = Some s'
               ∧ previousShareHash s = hash s')
  ∧ verified (fst (fst r)) = snd r
  ∧ (calculatable (mkFlags false false) = true →
     calculatable (fst (fst r)) = true ∧ snd (fst r) = None)
  ∧ (calculatable (mkFlags false false) = false →
     (calculatable (fst (fst r)) = true
      ↔ snd r = true ∧ BASE_CHAIN_LENGTH ≤ Z.of_nat (chain_length c))
     ∧ snd (fst r)
       = if calculatable (fst (fst r))
         then Some (Z.of_nat (chain_length c)) else None).
Proof.
  apply (verify_returns [share_a; share_b] share_b (mkFlags false false)).
  vm_compute. reflexivity.
Defined.

(** ** checkGaps *)

#[local] Instance higher_first_transitive : Transitive higher_first.
Proof. intros a b d. unfold higher_first. lia. Qed.

#[local] Instance higher_first_total : Total higher_first.
Proof. intros a b. unfold higher_first. lia. Qed.

Lemma entries_descending_elem (ai : gmap Z (list BaseShare)) (k : Z)
    (l : list BaseShare) :
  (k, l) ∈ entries_descending ai ↔ ai !! k = Some l.
Proof.
  unfold entries_descending. rewrite merge_sort_Permutation.
  apply elem_of_map_to_list.
Qed.

(** The entries that the loop has still to visit below the height [d]:
    all the entries of the map below [d], highest first. *)
Definition entries_below (ai : gmap Z (list BaseShare)) (d : Z)
    (es : list (Z * list BaseShare)) : Prop :=
  StronglySorted higher_first es
  ∧ NoDup es.*1
  ∧ (∀ k l, (k, l) ∈ es → k < d ∧ ai !! k = Some l)
  ∧ (∀ k, k < d → is_Some (ai !! k) → k ∈ es.*1).

Lemma entries_below_cons (ai : gmap Z (list BaseShare)) (d a : Z)
    (shares : list BaseShare) (es : list (Z * list BaseShare)) :
  entries_below ai d ((a, shares) :: es) →
  a < d ∧ ai !! a = Some shares
  ∧ (∀ k, k < d → is_Some (ai !! k) → k ≤ a)
  ∧ entries_below ai a es.
Proof.
  intros (Hsorted & Hnd & Hin & Hall).
  apply StronglySorted_inv in Hsorted as [Hsorted Hfirst].
  rewrite fmap_cons in Hnd. apply NoDup_cons in Hnd as [Hnotin Hnd].
  rewrite Forall_forall in Hfirst.
  destruct (Hin a shares) as [Hlt Ha]; [apply list_elem_of_here |].
  assert (∀ k l, (k, l) ∈ es → k < a) as Hbelow.
  { intros k l Hkl. pose proof (Hfirst _ Hkl) as Hle.
    unfold higher_first in Hle. simpl in Hle.
    destruct (decide (k = a)) as [-> | ?]; [| lia].
    destruct Hnotin. apply list_elem_of_fmap. by exists (a, l). }
  split; [done |]. split; [done |]. split; [| split; [done |]; split; [done |]; split].
  - intros k Hk Hkey. specialize (Hall k Hk Hkey).
    rewrite fmap_cons in Hall. apply elem_of_cons in Hall as [-> | Hes];
      [simpl; lia |].
    apply list_elem_of_fmap in Hes as ([k' l] & -> & Hkl). simpl.
    specialize (Hbelow _ _ Hkl). lia.
  - intros k l Hkl. split; [by apply (Hbelow k l) |].
    apply Hin. by apply elem_of_cons; right.
  - intros k Hk Hkey. specialize (Hall k ltac:(lia) Hkey).
    rewrite fmap_cons in Hall. apply elem_of_cons in Hall as [-> | Hes];
      [simpl in Hk; lia | done].
Qed.

Lemma entries_descending_top (ai : gmap Z (list BaseShare)) (top : Z)
    (l : list BaseShare) :
  ai !! top = Some l →
  (∀ k, is_Some (ai !! k) → k ≤ top) →
  ∃ tail, entries_descending ai = (top, l) :: tail ∧ entries_below ai top tail.
Proof.
  intros Htop Hmax.
  pose proof (StronglySorted_merge_sort higher_first (map_to_list ai)) as Hsorted.
  assert (NoDup (entries_descending ai).*1) as Hnd.
  { unfold entries_descending. rewrite merge_sort_Permutation.
    apply NoDup_fst_map_to_list. }
  pose proof (entries_descending_elem ai) as Helem.
  fold (entries_descending ai) in Hsorted.
  destruct (entries_descending ai) as [| [k0 l0] tail].
  { apply Helem in Htop. by apply elem_of_nil in Htop. }
  apply StronglySorted_inv in Hsorted as [Hsorted Hfirst].
  rewrite Forall_forall in Hfirst.
  rewrite fmap_cons in Hnd. apply NoDup_cons in Hnd as [Hnotin Hnd].
  assert (ai !! k0 = Some l0) as Hk0 by (apply Helem, list_elem_of_here).
  assert (k0 = top) as ->.
  { assert (k0 ≤ top) by (apply Hmax; by eexists).
    apply Helem, elem_of_cons in Htop as [Heq | Hin]; [congruence |].
    apply Hfirst in Hin. unfold higher_first in Hin. simpl in Hin. lia. }
  assert (l0 = l) as -> by congruence.
  exists tail. split; [done |]. split; [done |]. split; [done |]. split.
  - intros k l' Hkl.
    assert (ai !! k = Some l') as Hk by (apply Helem; by apply elem_of_cons; right).
    split; [| done].
    assert (k ≤ top) by (apply Hmax; by eexists).
    destruct (decide (k = top)) as [-> | ?]; [| lia].
    destruct Hnotin. apply list_elem_of_fmap. by exists (top, l').
  - intros k Hk [l' Hl']. apply Helem, elem_of_cons in Hl' as [Heq | Hin].
    + injection Heq as -> _. lia.
    + apply list_elem_of_fmap. by exists (k, l').
Qed.

(** Two stored heights with no stored height between them. *)
Definition adjacent (ai : gmap Z (list BaseShare)) (low high : Z) : Prop :=
  low < high ∧ is_Some (ai !! low) ∧ is_Some (ai !! high)
  ∧ ∀ k, low < k < high → ai !! k = None.

(** The gap that [checkGaps] reports for two such heights: heights are
    missing between them, or the first share of the lower one is not the
    previous share of the first share of the higher one. *)
Definition gap_between (ai : gmap Z (list BaseShare)) (low high : Z) (g : Gap)
    : Prop :=
  ∃ s s',
    first_at ai high = Some s ∧ first_at ai low = Some s'
    ∧ ¬ (low + 1 = high ∧ hash s' = previousShareHash s)
    ∧ g = {| descendent := hash s; descendentHeight := high;
             length := high - low |}.

Lemma adjacent_top (ai : gmap Z (list BaseShare)) (a d low high : Z) :
  a < d → is_Some (ai !! a) →
  (∀ k, k < d → is_Some (ai !! k) → k ≤ a) →
  high ≤ d → adjacent ai low high →
  (high = d ∧ low = a) ∨ high ≤ a.
Proof.
  intros Had Ha Hmax Hhigh (Hlt & Hlow & Hkey & Hnone).
  destruct (decide (high = d)) as [-> | Hne].
  - left. split; [done |]. pose proof (Hmax low Hlt Hlow) as Hle.
    destruct (decide (low = a)) as [? | ?]; [done |].
    rewrite (Hnone a) in Ha by lia. by destruct Ha.
  - right. apply Hmax; [lia | done].
Qed.

Lemma checkGaps_loop_gaps (ai : gmap Z (list BaseShare))
    (es : list (Z * list BaseShare)) (gaps : list Gap) (d : Z) (sd : BaseShare) :
  (∀ k, ai !! k ≠ Some []) →
  entries_below ai d es → first_at ai d = Some sd →
  ∃ found,
    checkGaps_loop ai es gaps d (previousShareHash sd) = Some (gaps ++ found)
    ∧ ∀ g, g ∈ found
           ↔ ∃ low high, high ≤ d ∧ adjacent ai low high
                         ∧ gap_between ai low high g.
Proof.
  intros Hne. revert gaps d sd.
  induction es as [| [a shares] es IH]; intros gaps d sd Hes Hsd.
  { exists []. split; [by rewrite app_nil_r |]. intros g. split.
    - intros Hg. by apply elem_of_nil in Hg.
    - intros (low & high & Hhigh & (Hlt & Hlow & _) & _).
      destruct Hes as (_ & _ & _ & Hall).
      assert (low ∈ ([] : list (Z * list BaseShare)).*1) as Hin
        by (apply Hall; [lia | done]).
      by apply elem_of_nil in Hin. }
  apply entries_below_cons in Hes as (Had & Ha & Hmax & Hes).
  destruct shares as [| share rest]; [by destruct (Hne a) |].
  assert (first_at ai a = Some share) as Hfa by (unfold first_at; by rewrite Ha).
  assert (is_Some (ai !! d)) as Hd.
  { unfold first_at in Hsd. destruct (ai !! d); [by eexists | done]. }
  assert (adjacent ai a d) as Hadj.
  { split; [done |]. split; [by eexists |]. split; [done |].
    intros k Hk. apply eq_None_not_Some. intros Hkey.
    specialize (Hmax k ltac:(lia) Hkey). lia. }
  assert (∀ low high g,
            high ≤ d → adjacent ai low high → gap_between ai low high g →
            (high = d ∧ low = a) ∨ high ≤ a) as Htop.
  { intros low high g Hhigh Hlh _.
    by apply (adjacent_top ai a d low high). }
  cbn [checkGaps_loop].
  set (is_linked := (a + 1 =? d) && String.eqb (hash share) (previousShareHash sd)).
  assert ((if a + 1 =? d
           then Some (String.eqb (hash share) (previousShareHash sd))
           else Some false) = Some is_linked) as ->
    by (unfold is_linked; by destruct (a + 1 =? d)).
  assert (is_linked = true ↔ a + 1 = d ∧ hash share = previousShareHash sd)
    as Hlinked.
  { unfold is_linked. by rewrite andb_true_iff, Z.eqb_eq, String.eqb_eq. }
  destruct is_linked.
  - destruct (IH gaps a share Hes Hfa) as (found & -> & Hfound).
    exists found. split; [done |]. intros g. rewrite Hfound. split.
    + intros (low & high & Hhigh & Hlh & Hg). exists low, high.
      split; [lia | done].
    + intros (low & high & Hhigh & Hlh & Hg).
      destruct (Htop low high g Hhigh Hlh Hg) as [[-> ->] | Hle].
      * destruct Hg as (s & s' & Hs & Hs' & Hnot & _).
        rewrite Hsd in Hs. rewrite Hfa in Hs'. injection Hs as <-.
        injection Hs' as <-. destruct Hnot. by apply Hlinked.
      * by exists low, high.
  - assert (ai !! d = Some (sd :: tl (default [] (ai !! d)))) as ->.
    { unfold first_at in Hsd. destruct (ai !! d) as [[| x l] |]; try done.
      by injection Hsd as ->. }
    set (gap0 := {| descendent := hash sd; descendentHeight := d;
                    length := d - a |}).
    destruct (IH (gaps ++ [gap0]) a share Hes Hfa) as (found & -> & Hfound).
    exists (gap0 :: found). split; [by rewrite <- app_assoc |].
    intros g. rewrite elem_of_cons, Hfound. split.
    + intros [-> | (low & high & Hhigh & Hlh & Hg)].
      * exists a, d. split; [lia |]. split; [done |]. exists sd, share.
        split; [done |]. split; [done |]. split; [| done].
        intros Hl. by apply Hlinked in Hl.
      * exists low, high. split; [lia | done].
    + intros (low & high & Hhigh & Hlh & Hg).
      destruct (Htop low high g Hhigh Hlh Hg) as [[-> ->] | Hle].
      * left. destruct Hg as (s & s' & Hs & Hs' & _ & ->).
        rewrite Hsd in Hs. by injection Hs as <-.
      * right. by exists low, high.
Qed.

(** The gap that ends the list when the window is not yet
    [BASE_CHAIN_LENGTH] heights long. *)
Definition terminal_gap (n o : BaseShare) : list Gap :=
  if absheight n - absheight o <? BASE_CHAIN_LENGTH
  then [ {| descendent := hash o; descendentHeight := absheight o;
            length := BASE_CHAIN_LENGTH - (absheight n - absheight o) |} ]
  else [].

Lemma checkGaps_found (c : t) (n : BaseShare) :
  wf c → newest_first c → newest c = Some n →
  ∃ o found,
    oldest c = Some o
    ∧ checkGaps c
      = Some (match found ++ terminal_gap n o with
              | [] => c
              | gaps => trigger (GapsFound gaps) c
              end, Some (found ++ terminal_gap n o))
    ∧ ∀ g, g ∈ found
           ↔ ∃ low high, adjacent (absheightIndexer c) low high
                         ∧ gap_between (absheightIndexer c) low high g.
Proof.
  intros [[Ha _] Hb] Hfirst Hn. unfold wf_bounds in Hb. rewrite Hn in Hb.
  destruct (oldest c) as [o |] eqn:Ho; [| done]. destruct Hb as [Hle Hkeys].
  destruct (Hfirst n Hn) as [rest Hrest].
  destruct (entries_descending_top (absheightIndexer c) (absheight n) (n :: rest))
    as (tail & Hentries & Htail); [done | intros k Hk; by apply Hkeys |].
  destruct (checkGaps_loop_gaps (absheightIndexer c) tail [] (absheight n) n)
    as (found & Hloop & Hfound);
    [intros k Hk; by destruct (Ha _ _ Hk) | done
     | unfold first_at; by rewrite Hrest |].
  exists o, found. split; [done |]. split.
  - unfold checkGaps. rewrite Hn, Hentries.
    change (drop 1 ((absheight n, n :: rest) :: tail)) with tail.
    rewrite Hloop, Ho. cbn [app]. unfold terminal_gap.
    destruct (absheight n - absheight o <? BASE_CHAIN_LENGTH).
    + by destruct found.
    + rewrite app_nil_r. by destruct found.
  - intros g. rewrite Hfound. split.
    + intros (low & high & _ & Hlh & Hg). by exists low, high.
    + intros (low & high & Hlh & Hg). exists low, high.
      split; [| done]. destruct Hlh as (_ & _ & Hkey & _). by apply Hkeys.
Qed.

(** [checkGaps] on a store reached by [append] calls that holds a share
    ends without an error, and the gaps it returns are, before the gap that
    stands for the part of the window not yet downloaded, exactly these:
    one gap for every two stored heights with no stored height between
    them, where heights are missing between the two or the first share of
    the lower is not the previous share of the first share of the higher;
    the gap names the first share of the higher height and the distance of
    the two. [gapsFound] is triggered when the list is not empty. *)
Theorem checkGaps_reports_holes_and_breaks (appended : list BaseShare)
    (n : BaseShare) :
  let c := appends init appended in
  newest c = Some n →
  ∃ o found,
    oldest c = Some o
    ∧ checkGaps c
      = Some (match found ++ terminal_gap n o with
              | [] => c
              | gaps => trigger (GapsFound gaps) c
              end, Some (found ++ terminal_gap n o))
    ∧ ∀ g, g ∈ found
           ↔ ∃ low high, adjacent (absheightIndexer c) low high
                         ∧ gap_between (absheightIndexer c) low high g.
Proof.
  intros c Hn. apply checkGaps_found; [| | done].
  - apply wf_appends, wf_init.
  - apply newest_first_appends.
Qed.

Lemma checkGaps_reports_holes_and_breaks_witness :
  ∃ o found,
    oldest store_200 = Some o
    ∧ checkGaps store_200
      = Some (match found ++ terminal_gap share_c o with
              | [] => store_200
              | gaps => trigger (GapsFound gaps) store_200
              end, Some (found ++ terminal_gap share_c o))
    ∧ ∀ g, g ∈ found
           ↔ ∃ low high, adjacent (absheightIndexer store_200) low high
                         ∧ gap_between (absheightIndexer store_200) low high g.
Proof.
  apply (checkGaps_reports_holes_and_breaks [share_a; share_b; share_c] share_c).
  vm_compute. reflexivity.
Defined.

(** What a caller of [checkGaps] can rely on, on a store reached by
    [append] calls that holds a share: the call ends without an error and
    changes nothing but the event log; every gap returned has a length of
    1 or more and a descendant height inside the window, and no height is
    stored inside the gap; a window shorter than [BASE_CHAIN_LENGTH] always
    gives a gap, and so the event; and a window of that length or more,
    with every height stored and linked to the one below, gives none. *)
Theorem checkGaps_gaps_are_holes (appended : list BaseShare) (n : BaseShare) :
  let c := appends init appended in
  newest c = Some n →
  ∃ o gaps,
    oldest c = Some o
    ∧ checkGaps c
      = Some (match gaps with [] => c | _ => trigger (GapsFound gaps) c end,
              Some gaps)
    ∧ (∀ g, g ∈ gaps →
         1 ≤ length g
         ∧ absheight o ≤ descendentHeight g ≤ absheight n
         ∧ ∀ k, descendentHeight g - length g < k < descendentHeight g →
                get c (IdHeight k) = None)
    ∧ (absheight n - absheight o < BASE_CHAIN_LENGTH → gaps ≠ [])
    ∧ (BASE_CHAIN_LENGTH ≤ absheight n - absheight o →
       (∀ k, absheight o < k ≤ absheight n →
             ∃ s s', get c (IdHeight k) = Some s
                     ∧ get c (IdHeight (k - 1)) = Some s'
                     ∧ previousShareHash s = hash s') →
       gaps = []).
Proof.
  intros c Hn.
  pose proof (wf_appends init appended wf_init) as Hwf. fold c in Hwf.
  pose proof (newest_first_appends appended) as Hfirst. fold c in Hfirst.
  destruct (checkGaps_found c n Hwf Hfirst Hn) as (o & found & Ho & Hcheck & Hfound).
  destruct Hwf as [_ Hb]. unfold wf_bounds in Hb. rewrite Hn, Ho in Hb.
  destruct Hb as [Hle Hkeys].
  assert (∀ k, absheightIndexer c !! k = None → get c (IdHeight k) = None)
    as Hget by (intros k Hk; unfold get; by rewrite Hk).
  exists o, (found ++ terminal_gap n o).
  split; [done |].
  split; [rewrite Hcheck; by destruct (found ++ terminal_gap n o) |].
  split; [| split].
  - intros g Hg. apply elem_of_app in Hg as [Hg | Hg].
    + apply Hfound in Hg
        as (low & high & (Hlt & Hlow & Hhigh & Hnone) & s & s' & _ & _ & _ & ->).
      simpl. specialize (Hkeys _ Hhigh). split; [lia |]. split; [lia |].
      intros k Hk. apply Hget, Hnone. lia.
    + unfold terminal_gap in Hg.
      destruct (absheight n - absheight o <? BASE_CHAIN_LENGTH) eqn:Hshort;
        [| by apply elem_of_nil in Hg].
      apply Z.ltb_lt in Hshort. apply list_elem_of_singleton in Hg as ->. simpl.
      split; [lia |]. split; [lia |]. intros k Hk. apply Hget.
      apply eq_None_not_Some. intros Hkey. specialize (Hkeys _ Hkey). lia.
  - intros Hshort. apply Z.ltb_lt in Hshort. unfold terminal_gap.
    rewrite Hshort. by destruct found.
  - intros Hlong Hlinked. unfold terminal_gap.
    assert ((absheight n - absheight o <? BASE_CHAIN_LENGTH) = false) as ->
      by (apply Z.ltb_ge; lia).
    rewrite app_nil_r. destruct found as [| g found]; [done |].
    destruct (proj1 (Hfound g) ltac:(apply list_elem_of_here))
      as (low & high & (Hlt & Hlow & Hhigh & Hnone) & s & s' & Hs & Hs' & Hnot & _).
    pose proof (Hkeys _ Hlow) as Hlow'. pose proof (Hkeys _ Hhigh) as Hhigh'.
    destruct (Hlinked high) as (x & x' & Hx & Hx' & Hp); [lia |].
    rewrite !get_height in Hx, Hx'.
    assert (low = high - 1) as ->.
    { destruct (decide (low = high - 1)) as [? | Hne]; [done |].
      unfold first_at in Hx'. rewrite (Hnone (high - 1)) in Hx' by lia. done. }
    destruct Hnot. split; [lia |]. congruence.
Qed.

Lemma checkGaps_gaps_are_holes_witness :
  ∃ o gaps,
    oldest store_200 = Some o
    ∧ checkGaps store_200
      = Some (match gaps with
              | [] => store_200
              | _ => trigger (GapsFound gaps) store_200
              end, Some gaps)
    ∧ (∀ g, g ∈ gaps →
         1 ≤ length g
         ∧ absheight o ≤ descendentHeight g ≤ absheight share_c
         ∧ ∀ k, descendentHeight g - length g < k < descendentHeight g →
                get store_200 (IdHeight k) = None)
    ∧ (absheight share_c - absheight o < BASE_CHAIN_LENGTH → gaps ≠ [])
    ∧ (BASE_CHAIN_LENGTH ≤ absheight share_c - absheight o →
       (∀ k, absheight o < k ≤ absheight share_c →
             ∃ s s', get store_200 (IdHeight k) = Some s
                     ∧ get store_200 (IdHeight (k - 1)) = Some s'
                     ∧ previousShareHash s = hash s') →
       gaps = []).
Proof.
  apply (checkGaps_gaps_are_holes [share_a; share_b; share_c] share_c).
  vm_compute. reflexivity.
Defined.

(** [subchain] never yields more shares than it is asked for. *)
Lemma subchain_length (c : t) (h : string) (n : nat) (direction : Direction) :
  (List.length (subchain c h n direction) ≤ n)%nat.
Proof.
  unfold subchain. destruct (hashIndexer c !! h) as [height |]; [| simpl; lia].
  destruct (height =? 0); [simpl; lia |].
  generalize (match direction with backward => -1 | forward => 1 end) as step.
  intros step. revert height. induction n as [| n IH]; intros height; [done |].
  cbn [subchain_loop].
  destruct (absheightIndexer c !! height) as [[| share rest] |]; simpl; try lia.
  specialize (IH (absheight share + step)). lia.
Qed.

(** ** The sliding window never slides *)

(** [cleanDeprecations] removes the height of [oldest] and leaves [oldest]
    where it was: a second call finds no list at that height and does
    nothing, and so does every later call, until a share at or below the
    height of [oldest] is appended. *)
Theorem cleanDeprecations_never_advances (c : t) :
  cleanDeprecations (cleanDeprecations c) = cleanDeprecations c
  ∧ oldest (cleanDeprecations c) = oldest c
  ∧ newest (cleanDeprecations c) = newest c
  ∧ events (cleanDeprecations c) = events c
  ∧ ∀ k o, oldest c = Some o → k ≠ absheight o →
           absheightIndexer (cleanDeprecations c) !! k = absheightIndexer c !! k.
Proof.
  unfold cleanDeprecations.
  destruct (newest c) as [n |] eqn:Hn; [| by rewrite Hn].
  destruct (oldest c) as [o |] eqn:Ho; [| by rewrite Hn, Ho].
  destruct (absheight n - absheight o <? MAX_CHAIN_LENGTH) eqn:Hlt;
    [by rewrite Hn, Ho, Hlt |].
  destruct (absheightIndexer c !! absheight o) as [[| d dep] |] eqn:E;
    try (by rewrite Hn, Ho, Hlt, E).
  cbn [newest oldest set_hashIndexer set_absheightIndexer absheightIndexer
       events]. rewrite Hn, Ho, Hlt, lookup_delete_eq.
  repeat split; try done. intros k o' Ho' Hk. injection Ho' as <-.
  by rewrite lookup_delete_ne.
Qed.

(** ** A run of linked shares, appended in order *)

(** Valid shares at the heights [h], [h + 1], ..., each the previous share
    of the next. *)
Definition linked_run (h : Z) (shares : list BaseShare) : Prop :=
  ∀ i s, shares !! i = Some s →
    validity s = true ∧ absheight s = h + Z.of_nat i
    ∧ ∀ s', shares !! S i = Some s' → previousShareHash s' = hash s.

(** The share of the run that stands at a height. *)
Definition run_at (h : Z) (shares : list BaseShare) (j : Z) : option BaseShare :=
  if bool_decide (h ≤ j) then shares !! Z.to_nat (j - h) else None.

Lemma run_at_snoc (h : Z) (shares : list BaseShare) (s : BaseShare) (j : Z) :
  run_at h (shares ++ [s]) j
  = if bool_decide (j = h + Z.of_nat (List.length shares)) then Some s
    else run_at h shares j.
Proof.
  unfold run_at. case_bool_decide as Hle.
  - case_bool_decide as Hj.
    + rewrite lookup_app_r by lia.
      by replace (Z.to_nat (j - h) - List.length shares)%nat with 0%nat by lia.
    + destruct (decide (Z.to_nat (j - h) < List.length shares)%nat) as [Hlt | Hge].
      * by rewrite lookup_app_l.
      * rewrite lookup_app_r by lia.
        rewrite (lookup_ge_None_2 shares) by lia.
        apply lookup_ge_None_2. simpl. lia.
  - case_bool_decide as Hj; [lia | done].
Qed.

Lemma run_at_Some (h : Z) (shares : list BaseShare) (j : Z) (s : BaseShare) :
  run_at h shares j = Some s
  ↔ h ≤ j ∧ shares !! Z.to_nat (j - h) = Some s.
Proof.
  unfold run_at. case_bool_decide; [tauto |]. split; [done | lia].
Qed.

(** The store that the run leaves. *)
Definition holds_run (h : Z) (shares : list BaseShare) (c : t) : Prop :=
  newest c = last shares ∧ oldest c = head shares
  ∧ events c = NewestChanged <$> shares
  ∧ ∀ j, absheightIndexer c !! j = (λ s, [s]) <$> run_at h shares j.

Lemma linked_run_prefix (h : Z) (shares : list BaseShare) (s : BaseShare) :
  linked_run h (shares ++ [s]) →
  linked_run h shares
  ∧ validity s = true ∧ absheight s = h + Z.of_nat (List.length shares).
Proof.
  intros Hrun. split.
  - intros i x Hx. destruct (Hrun i x) as (Hv & Hh & Hp);
      [by apply lookup_app_l_Some |].
    split; [done |]. split; [done |]. intros s' Hs'. apply Hp.
    by apply lookup_app_l_Some.
  - destruct (Hrun (List.length shares) s) as (Hv & Hh & _); [| done].
    rewrite lookup_app_r by lia. by rewrite Nat.sub_diag.
Qed.

Lemma run_appended (h : Z) (shares : list BaseShare) :
  Z.of_nat (List.length shares) ≤ MAX_CHAIN_LENGTH →
  linked_run h shares →
  holds_run h shares (appends init shares).
Proof.
  induction shares as [| s shares IH] using rev_ind; intros Hlen Hrun.
  { split; [done |]. split; [done |]. split; [done |]. intros j. simpl.
    rewrite lookup_empty. unfold run_at. by case_bool_decide. }
  rewrite length_app in Hlen. simpl in Hlen.
  apply linked_run_prefix in Hrun as (Hrun & Hvalid & Hheight).
  destruct (IH ltac:(lia) Hrun) as (Hnew & Hold & Hev & Hai).
  rewrite appends_app. cbn [appends foldl].
  fold (appends init shares) in *.
  pose proof (wf_appends init shares wf_init) as Hwf.
  set (c := appends init shares) in *.
  assert (absheightIndexer c !! absheight s = None) as Hnone.
  { rewrite Hai. unfold run_at. case_bool_decide; [| done].
    rewrite lookup_ge_None_2 by lia. done. }
  destruct shares as [| first shares _] using rev_ind.
  - (* the first share *)
    assert (newest c = None) as Hnew0 by exact Hnew.
    assert (oldest c = None) as Hold0 by exact Hold.
    clear IH Hnew Hold.
    assert (shares_at c (absheight s) = []) as Hempty
      by (unfold shares_at; by rewrite Hnone).
    rewrite append_stored; [| done | by rewrite Hempty; intros x ?%elem_of_nil].
    rewrite Hempty. cbn [app].
    destruct (stored_fields s [s] c) as (_ & Hai1 & Hnew1 & Hev1 & Hold1).
    set (c1 := store_share s [s] (array_at s c)) in *.
    unfold append_branches. rewrite Hnew1, Hnew0.
    change (oldest (newest_set s c1)) with (oldest c1). rewrite Hold1, Hold0.
    cbn [fst]. split; [done |]. split; [done |].
    split; [by cbn; rewrite Hev1, Hev |].
    intros j. cbn [absheightIndexer set_oldest newest_set trigger].
    rewrite Hai1. change (run_at h [s] j) with (run_at h ([] ++ [s]) j).
    rewrite (run_at_snoc h [] s j). simpl in Hheight. case_bool_decide as Hj.
    + replace j with (absheight s) by (simpl in Hj; lia).
      by rewrite lookup_insert_eq.
    + rewrite lookup_insert_ne by (simpl in Hj; lia). apply Hai.
  - (* a new tip on the run *)
    rename first into n. rewrite last_snoc in Hnew.
    destruct (Hrun (List.length shares) n) as (_ & Hn & _).
    { rewrite lookup_app_r by lia. by rewrite Nat.sub_diag. }
    rewrite length_app in Hheight, Hlen. simpl in Hheight, Hlen.
    assert (∃ o, oldest c = Some o ∧ absheight o = h
                 ∧ head ((shares ++ [n]) ++ [s]) = Some o) as (o & Ho & Hoh & Hhead).
    { destruct shares as [| o shares].
      - exists n. simpl in *. split; [done |]. split; [lia | done].
      - exists o. split; [done |]. split; [| done].
        destruct (Hrun 0%nat o eq_refl) as (_ & ? & _). lia. }
    destruct (new_tip_state c s n o Hwf Hvalid Hnew Ho ltac:(lia))
      as (c3 & -> & Hnew3 & Hold3 & Hev3 & Hai3 & _).
    assert ((absheight s - absheight o <? MAX_CHAIN_LENGTH) = true) as Hkeep
      by (apply Z.ltb_lt; lia).
    rewrite Hkeep in Hai3. cbn [negb] in Hai3.
    assert (check_previous s c3 = (c3, ReturnTrue)) as ->.
    { unfold check_previous. rewrite Hai3.
      rewrite lookup_insert_ne by lia. rewrite Hai.
      assert (run_at h (shares ++ [n]) (absheight s - 1) = Some n) as ->.
      { apply run_at_Some. split; [lia |].
        rewrite lookup_app_r by lia.
        by replace (Z.to_nat (absheight s - 1 - h) - List.length shares)%nat
          with 0%nat by lia. }
      done. }
    cbn [fst]. split; [by rewrite last_snoc |]. split; [by rewrite Hold3, Hhead |].
    split; [by rewrite Hev3, Hev, (fmap_app _ (shares ++ [n]) [s]) |].
    intros j. rewrite Hai3, run_at_snoc, length_app. simpl.
    case_bool_decide as Hj.
    + replace j with (absheight s) by lia. by rewrite lookup_insert_eq.
    + rewrite lookup_insert_ne by lia. apply Hai.
Qed.

(** A run of linked shares appended to the empty store, no longer than the
    window: every share is accepted as the new tip, with [newestChanged]
    and no other event; [get] finds each share at its height; [length] and
    [size] are the number of shares; [verify] returns true; and
    [checkGaps] reports nothing but the part of the window that is not yet
    there. *)
Theorem linked_run_is_verified (h : Z) (shares : list BaseShare)
    (n o : BaseShare) (flags : Flags) :
  last shares = Some n → head shares = Some o →
  Z.of_nat (List.length shares) ≤ MAX_CHAIN_LENGTH →
  linked_run h shares →
  let c := appends init shares in
  events c = NewestChanged <$> shares
  ∧ newest c = Some n ∧ oldest c = Some o
  ∧ (∀ i s, shares !! i = Some s → get c (IdHeight (h + Z.of_nat i)) = Some s)
  ∧ chain_length c = List.length shares
  ∧ chain_size c = List.length shares
  ∧ snd (verify c flags) = true
  ∧ checkGaps c
    = Some (match terminal_gap n o with
            | [] => c
            | gaps => trigger (GapsFound gaps) c
            end, Some (terminal_gap n o)).
Proof.
  intros Hlast Hhead Hlen Hrun c.
  destruct (run_appended h shares Hlen Hrun) as (Hnew & Hold & Hev & Hai).
  fold c in Hnew, Hold, Hev, Hai. rewrite Hlast in Hnew. rewrite Hhead in Hold.
  pose proof (wf_appends init shares wf_init) as Hwf. fold c in Hwf.
  pose proof (newest_first_appends shares) as Hfirst. fold c in Hfirst.
  assert (∀ i s, shares !! i = Some s →
            absheightIndexer c !! (h + Z.of_nat i) = Some [s]) as Hat.
  { intros i s Hs. rewrite Hai. unfold run_at.
    rewrite bool_decide_eq_true_2 by lia.
    replace (Z.to_nat (h + Z.of_nat i - h)) with i by lia. by rewrite Hs. }
  assert (∀ j, is_Some (absheightIndexer c !! j) →
            h ≤ j < h + Z.of_nat (List.length shares)) as Hkeys.
  { intros j [l Hl]. rewrite Hai in Hl.
    destruct (run_at h shares j) as [s |] eqn:E; [| done].
    apply run_at_Some in E as [Hle E]. apply lookup_lt_Some in E. lia. }
  assert (absheight n = h + Z.of_nat (List.length shares) - 1 ∧ absheight o = h)
    as [Hn Ho].
  { rewrite last_lookup in Hlast. rewrite head_lookup in Hhead.
    destruct (Hrun _ _ Hlast) as (_ & ? & _).
    destruct (Hrun _ _ Hhead) as (_ & ? & _).
    apply lookup_lt_Some in Hhead. lia. }
  assert (∀ k, h < k < h + Z.of_nat (List.length shares) →
            linked (absheightIndexer c) k) as Hlinked.
  { intros k Hk.
    destruct (lookup_lt_is_Some_2 shares (Z.to_nat (k - h))) as [s Hs]; [lia |].
    destruct (lookup_lt_is_Some_2 shares (Z.to_nat (k - h) - 1)) as [s' Hs'];
      [lia |].
    exists s, s'. unfold first_at.
    replace k with (h + Z.of_nat (Z.to_nat (k - h))) at 1 by lia.
    rewrite (Hat _ _ Hs).
    replace (k - 1) with (h + Z.of_nat (Z.to_nat (k - h) - 1)) by lia.
    rewrite (Hat _ _ Hs'). split; [done |]. split; [done |].
    destruct (Hrun _ _ Hs') as (_ & _ & Hp). apply Hp.
    by replace (S (Z.to_nat (k - h) - 1)) with (Z.to_nat (k - h)) by lia. }
  assert (chain_length c = List.length shares ∧ chain_size c = List.length shares)
    as [Hlength Hsize].
  { destruct (length_loop_ends c n Hnew) as (_ & Hnone & Hle & _).
    assert (Z.of_nat (chain_size c) ≤ Z.of_nat (List.length shares)).
    { pose proof (keys_in_range_bound (absheightIndexer c) h
                    (h + Z.of_nat (List.length shares) - 1)) as Hb.
      unfold chain_size.
      rewrite head_lookup in Hhead. apply lookup_lt_Some in Hhead.
      specialize (Hb ltac:(lia)).
      assert (∀ k, is_Some (absheightIndexer c !! k) →
                h ≤ k ≤ h + Z.of_nat (List.length shares) - 1) as Hr
        by (intros k Hk; specialize (Hkeys k Hk); lia).
      specialize (Hb Hr). lia. }
    assert (List.length shares ≤ chain_length c)%nat; [| lia].
    destruct (decide (List.length shares ≤ chain_length c)%nat) as [? | Hgt];
      [done |].
    destruct (lookup_lt_is_Some_2 shares
                (List.length shares - 1 - chain_length c)) as [s Hs]; [lia |].
    apply Hat in Hs.
    replace (h + Z.of_nat (List.length shares - 1 - chain_length c))
      with (absheight n - Z.of_nat (chain_length c)) in Hs by lia.
    by rewrite Hs in Hnone. }
  split; [done |]. split; [done |]. split; [done |]. split; [| split; [done |]].
  { intros i s Hs. unfold get. by rewrite (Hat _ _ Hs). }
  split; [done |]. split.
  - destruct (verify_count_walk c n Hwf Hfirst Hnew) as (Hk & _ & Hbroken & _).
    unfold verify. rewrite Hnew. cbn [snd]. apply Nat.eqb_eq.
    destruct (decide (verify_count c < chain_length c)%nat) as [Hlt | ?]; [| lia].
    destruct (Hbroken Hlt) as (s & s' & Hs & Hs' & Hp).
    destruct (Hlinked (absheight n - Z.of_nat (verify_count c) + 1))
      as (x & x' & Hx & Hx' & Hxp); [lia |].
    congruence.
  - destruct (checkGaps_found c n Hwf Hfirst Hnew)
      as (o' & found & Ho' & Hcheck & Hfound).
    rewrite Hold in Ho'. injection Ho' as <-.
    assert (found = []) as ->; [| done].
    destruct found as [| g found]; [done |].
    destruct (proj1 (Hfound g) ltac:(apply list_elem_of_here))
      as (low & high & (Hlt & Hlow & Hhigh & Hnone) & s & s' & Hs & Hs' & Hnot & _).
    pose proof (Hkeys _ Hlow). pose proof (Hkeys _ Hhigh).
    destruct (Hlinked high) as (x & x' & Hx & Hx' & Hp); [lia |].
    assert (low = high - 1) as ->.
    { destruct (decide (low = high - 1)) as [? | Hne]; [done |].
      unfold first_at in Hx'. rewrite (Hnone (high - 1)) in Hx' by lia. done. }
    destruct Hnot. split; [lia |]. congruence.
Qed.

Lemma linked_run_is_verified_witness :
  let c := appends init [share_a; share_b] in
  events c = NewestChanged <$> [share_a; share_b]
  ∧ newest c = Some share_b ∧ oldest c = Some share_a
  ∧ (∀ i s, [share_a; share_b] !! i = Some s →
            get c (IdHeight (100 + Z.of_nat i)) = Some s)
  ∧ chain_length c = List.length [share_a; share_b]
  ∧ chain_size c = List.length [share_a; share_b]
  ∧ snd (verify c (mkFlags false false)) = true
  ∧ checkGaps c
    = Some (match terminal_gap share_b share_a with
            | [] => c
            | gaps => trigger (GapsFound gaps) c
            end, Some (terminal_gap share_b share_a)).
Proof.
  apply (linked_run_is_verified 100 [share_a; share_b] share_b share_a
           (mkFlags false false)).
  - reflexivity.
  - reflexivity.
  - vm_compute. discriminate.
  - intros [| [| i]] s Hs; try done; injection Hs as <-.
    + split; [done |]. split; [done |]. intros s' Hs'. by injection Hs' as <-.
    + split; [done |]. split; [done |]. intros s' Hs'. done.
Defined.

End SharechainProperties.

(* ===================================================================== *)
(** * Properties of the peer connection *)
(* ===================================================================== *)

Module NodeProperties.

Import Node.

(** A connection as the constructor leaves it when no address is given. *)
Definition new_Node : t :=
  {| socket := None; remoteTxHashs := []; isJs2PoolPeer := false;
     peerPort := 9333; events := [] |}.

(** ** remoteTxHashs *)

(** The connection after a sequence of [have_tx] messages. *)
Definition have_txs (n : t) (messages : list (list string)) : t :=
  foldl (λ n txHashes, handleHave_tx txHashes n) n messages.

Lemma evict_drop (s : list string) :
  evict s = drop (List.length s - 10) s.
Proof.
  induction s as [| value rest IH]; [done |].
  cbn [evict]. destruct (10 <? Z.of_nat (List.length (value :: rest))) eqn:E.
  - apply Z.ltb_lt in E. simpl in E. rewrite IH.
    replace (List.length (value :: rest) - 10)%nat
      with (S (List.length rest - 10)) by (simpl; lia).
    done.
  - apply Z.ltb_ge in E. simpl in E.
    replace (List.length (value :: rest) - 10)%nat with 0%nat by (simpl; lia).
    done.
Qed.

Lemma length_evict (s : list string) : (List.length (evict s) ≤ 10)%nat.
Proof. rewrite evict_drop, length_drop. lia. Qed.

(** Adding the hashes of a message appends, in order, those that are not
    in the set yet. *)
Lemma Set_add_all (s : list string) (txHashes : list string) :
  ∃ added,
    foldl (λ s h, Set_add h s) s txHashes = s ++ added
    ∧ (∀ h, h ∈ added ↔ h ∈ txHashes ∧ h ∉ s)
    ∧ NoDup added
    ∧ (List.length added ≤ List.length txHashes)%nat.
Proof.
  revert s. induction txHashes as [| h txHashes IH]; intros s.
  - exists []. simpl. rewrite app_nil_r.
    split; [done |]. split; [| split; [apply NoDup_nil_2 | done]].
    intros h. split; [by intros ?%elem_of_nil | by intros [?%elem_of_nil _]].
  - cbn [foldl]. unfold Set_add at 2. case_bool_decide as Hin.
    + destruct (IH s) as (added & Heq & Hmem & Hnd & Hlen).
      exists added. split; [done |]. split; [| split; [done | simpl; lia]].
      intros x. rewrite Hmem, elem_of_cons. split.
      * intros [? ?]. auto.
      * intros [[-> | ?] ?]; done.
    + destruct (IH (s ++ [h])) as (added & Heq & Hmem & Hnd & Hlen).
      exists (h :: added). rewrite Heq, <- app_assoc.
      split; [done |]. split; [| split; [| simpl; lia]].
      * intros x. rewrite !elem_of_cons, Hmem, elem_of_app, list_elem_of_singleton.
        split.
        -- intros [-> | [? Hx]]; [by auto |]. split; [by auto |].
           intros ?. apply Hx. by left.
        -- intros [[-> | ?] Hx]; [by left |].
           destruct (decide (x = h)) as [-> | Hne]; [by left |].
           right. split; [done |]. by intros [? | ?].
      * apply NoDup_cons. split; [| done].
        intros [_ Hx]%Hmem. apply Hx, elem_of_app. right. apply list_elem_of_here.
Qed.

(** C3 as the specification states it: after every [have_tx] message the
    set holds at most 10 hashes. *)
Definition remote_set_is_bounded : Prop :=
  ∀ messages,
    (List.length (remoteTxHashs (have_txs new_Node messages)) ≤ 10)%nat.

Definition eleven_messages : list (list string) :=
  [["1"]; ["2"]; ["3"]; ["4"]; ["5"]; ["6"]; ["7"]; ["8"]; ["9"]; ["10"];
   ["11"]]%string.

(** C3, counterexample: after eleven messages of one hash each the set
    holds eleven hashes, the first among them: the eleventh insertion has
    evicted nothing. *)
Lemma remote_set_is_bounded_fails :
  ¬ remote_set_is_bounded
  ∧ remoteTxHashs (have_txs new_Node eleven_messages)
    = ["1"; "2"; "3"; "4"; "5"; "6"; "7"; "8"; "9"; "10"; "11"]%string.
Proof.
  split; [| reflexivity].
  intros H. specialize (H eleven_messages). vm_compute in H. lia.
Qed.

(** C3, amended: [handleHave_tx] evicts before it inserts. It drops the
    oldest entries, in insertion order, until at most 10 are left, and
    then appends the hashes of the message that are not among those; the
    set it leaves holds at most 10 entries and the ones the message added,
    no hash twice when that held before. *)
Theorem handleHave_tx_evicts_then_inserts (n : t) (txHashes : list string) :
  let old := remoteTxHashs n in
  let kept := drop (List.length old - 10) old in
  (List.length kept ≤ 10)%nat
  ∧ ∃ added,
      remoteTxHashs (handleHave_tx txHashes n) = kept ++ added
      ∧ (∀ h, h ∈ added ↔ h ∈ txHashes ∧ h ∉ kept)
      ∧ NoDup added
      ∧ (List.length added ≤ List.length txHashes)%nat
      ∧ (List.length (remoteTxHashs (handleHave_tx txHashes n))
         ≤ 10 + List.length txHashes)%nat
      ∧ events (handleHave_tx txHashes n) = events n ++ [HaveTx txHashes].
Proof.
  intros old kept.
  assert (List.length kept ≤ 10)%nat as Hkept
    by (unfold kept; rewrite length_drop; lia).
  split; [done |].
  unfold handleHave_tx. simpl. rewrite evict_drop. fold old. fold kept.
  destruct (Set_add_all kept txHashes) as (added & Heq & Hmem & Hnd & Hlen).
  exists added. rewrite Heq, length_app. repeat split; try done.
  - by apply Hmem.
  - by apply Hmem.
  - intros [? ?]. by apply Hmem.
  - lia.
Qed.

(** ** close *)

(** [k] calls of [close], one after the other. *)
Fixpoint closes (k : nat) (n : t) : t :=
  match k with
  | O => n
  | S k => close (closes k n)
  end.

Definition count_End (l : list NodeEvent) : nat :=
  List.length (List.filter (λ e, match e with End_ => true | _ => false end) l).

(** C4 as the specification states it: however often [close] is called,
    [End] is triggered once. *)
Definition close_triggers_End_once : Prop :=
  ∀ n s k, socket n = Some s → (1 ≤ k)%nat →
    count_End (events (closes k n)) = (count_End (events n) + 1)%nat.

(** A connection with a fresh socket installed. *)
Definition connected_Node : t := initSocket new_Socket new_Node.

(** C4, counterexample: two calls of [close] trigger [End] twice. *)
Lemma close_triggers_End_once_fails : ¬ close_triggers_End_once.
Proof.
  intros H. specialize (H connected_Node _ 2%nat eq_refl).
  vm_compute in H. specialize (H ltac:(lia)). discriminate.
Qed.

Lemma close_installed (n : t) (s : Socket) :
  socket n = Some s →
  socket (close n) = Some {| ended := true; listeners := [] |}
  ∧ events (close n) = events n ++ [End_].
Proof. intros H. unfold close. by rewrite H. Qed.

Lemma closes_installed (n : t) (s : Socket) (k : nat) :
  socket n = Some s →
  is_Some (socket (closes k n))
  ∧ events (closes k n) = events n ++ repeat End_ k.
Proof.
  intros Hs. induction k as [| k [[s' Hs'] IH]].
  - simpl. rewrite app_nil_r. split; [by eexists | done].
  - cbn [closes].
    destruct (close_installed _ _ Hs') as [Hsock Hev].
    split; [by eexists |]. rewrite Hev, IH, <- app_assoc. f_equal.
    by rewrite <- repeat_cons.
Qed.

(** C4, amended: every call of [close] on a connection with a socket
    installed ends the socket, detaches all its listeners and triggers
    [End]: after [k] calls, one or more, the socket is ended and has no
    listener, and [End] has been triggered [k] times. On a connection
    with no socket [close] does nothing. *)
Theorem close_triggers_End_each_time (n : t) (s : Socket) (k : nat) :
  socket n = Some s →
  socket (closes (S k) n) = Some {| ended := true; listeners := [] |}
  ∧ events (closes (S k) n) = events n ++ repeat End_ (S k)
  ∧ (∀ n0, socket n0 = None → close n0 = n0).
Proof.
  intros Hs. split; [| split].
  - destruct (closes_installed n s k Hs) as [[s' Hs'] _].
    cbn [closes]. by apply (close_installed _ s').
  - by apply (closes_installed n s).
  - intros n0 H0. unfold close. by rewrite H0.
Qed.

Lemma close_triggers_End_each_time_witness :
  socket (closes 3 connected_Node) = Some {| ended := true; listeners := [] |}
  ∧ events (closes 3 connected_Node) = events connected_Node ++ repeat End_ 3
  ∧ (∀ n0, socket n0 = None → close n0 = n0).
Proof.
  apply (close_triggers_End_each_time connected_Node
           {| ended := false; listeners := ["timeout"; "end"; "error"]%string |} 2).
  reflexivity.
Defined.

(** ** Frames with a wrong checksum *)

(** The header and the payload of a frame have been read, the magic
    number is right, and the checksum of the header is not the first
    little-endian 32-bit word of the double SHA-256 of the payload. *)
Definition bad_checksum_frame (magic : Buffer) (stream : list Buffer)
    (preBuffer : option Buffer) (rest : list Buffer) : Prop :=
  ∃ data lopped stream1 payload remain,
    readFlowingBytes stream PROTOCOL_HEAD_LENGTH preBuffer
    = Some (data, lopped, stream1)
    ∧ take 8 data = magic
    ∧ readFlowingBytes stream1 (N.to_nat (readUInt32LE data 20)) lopped
      = Some (payload, remain, rest)
    ∧ readUInt32LE (sha256d payload) 0 ≠ readUInt32LE data 24.

(** C5 as the specification states it: on such a frame the connection
    triggers [badPeer], closes, and the call returns. *)
Definition bad_checksum_returns : Prop :=
  ∀ magic msgHandlers n stream preBuffer rest,
    bad_checksum_frame magic stream preBuffer rest →
    fst (fst (beginReceivingMessages magic msgHandlers n stream preBuffer))
    = close (trigger (BadPeer "Bad checksum") n)
    ∧ snd (beginReceivingMessages magic msgHandlers n stream preBuffer)
      ≠ AssertionError.

(** A [ping] frame with an empty payload and the checksum 0, behind an
    eight-byte magic number, delivered in one piece. *)
Definition a_magic : Buffer := bytes_of_string "12345678".

Definition ping_frame_checksum_0 : Buffer :=
  a_magic ++ bytes_of_string "ping" ++ repeat "000"%byte 8
  ++ repeat "000"%byte 4 ++ repeat "000"%byte 4.

Lemma ping_frame_is_bad :
  bad_checksum_frame a_magic [ping_frame_checksum_0] None [].
Proof.
  exists ping_frame_checksum_0, None, [], [], None.
  split; [reflexivity |]. split; [reflexivity |]. split; [reflexivity |].
  vm_compute. discriminate.
Qed.

(** C5, counterexample: on that frame the call does not return; it ends
    with the assertion error. *)
Lemma bad_checksum_returns_fails : ¬ bad_checksum_returns.
Proof.
  intros H.
  destruct (H a_magic (λ _, None) connected_Node [ping_frame_checksum_0] None []
              ping_frame_is_bad) as [_ Hout].
  apply Hout. vm_compute. reflexivity.
Qed.

(** C5, amended: on a frame with a wrong checksum the connection triggers
    [badPeer] with the reason "Bad checksum" and closes the link, which
    ends the socket, detaches its listeners and triggers [End]; then the
    call fails with the assertion error of [assert.ok(false)] instead of
    returning. No handler has run and no further read is queued. *)
Theorem bad_checksum_closes_and_asserts
    (magic : Buffer) (msgHandlers : string → option (Buffer → t → t))
    (n : t) (stream : list Buffer) (preBuffer : option Buffer)
    (rest : list Buffer) :
  bad_checksum_frame magic stream preBuffer rest →
  beginReceivingMessages magic msgHandlers n stream preBuffer
  = (close (trigger (BadPeer "Bad checksum") n), rest, AssertionError).
Proof.
  intros (data & lopped & stream1 & payload & remain & Hhead & Hmagic
          & Hpayload & Hsum).
  unfold beginReceivingMessages. rewrite Hhead, Hmagic.
  rewrite bool_decide_eq_true_2 by done. simpl. rewrite Hpayload.
  apply N.eqb_neq in Hsum. by rewrite Hsum.
Qed.

Lemma bad_checksum_closes_and_asserts_witness :
  beginReceivingMessages a_magic (λ _, None) connected_Node
    [ping_frame_checksum_0] None
  = (close (trigger (BadPeer "Bad checksum") connected_Node), [], AssertionError).
Proof.
  exact (bad_checksum_closes_and_asserts a_magic (λ _, None) connected_Node
           [ping_frame_checksum_0] None [] ping_frame_is_bad).
Defined.

(** ** Reading from the socket *)

Lemma resolve_read_reads (amount : nat) (buff : Buffer) (stream : list Buffer) :
  (amount ≤ List.length buff)%nat →
  (amount ≤ List.length (buff ++ concat stream))%nat
  ∧ fst (resolve_read amount buff) = take amount (buff ++ concat stream)
  ∧ default [] (snd (resolve_read amount buff)) ++ concat stream
    = drop amount (buff ++ concat stream)
  ∧ snd (resolve_read amount buff) ≠ Some [].
Proof.
  intros Hle. unfold resolve_read. cbn [fst snd].
  split; [rewrite length_app; lia |].
  split; [by rewrite take_app_le |].
  rewrite drop_app_le by done.
  destruct (amount <? List.length buff)%nat eqn:E.
  - apply Nat.ltb_lt in E. split; [done |]. intros Heq. injection Heq as Heq.
    apply (f_equal List.length) in Heq. rewrite length_drop in Heq.
    simpl in Heq. lia.
  - apply Nat.ltb_ge in E. split; [| done]. by rewrite drop_ge by lia.
Qed.

Lemma readData_reads (stream : list Buffer) (amount : nat) (buff : Buffer) :
  match readData stream amount buff with
  | Some (data, lopped, rest) =>
    (amount ≤ List.length (buff ++ concat stream))%nat
    ∧ data = take amount (buff ++ concat stream)
    ∧ default [] lopped ++ concat rest = drop amount (buff ++ concat stream)
    ∧ lopped ≠ Some []
    ∧ ∃ used,
        stream = used ++ rest
        ∧ (used = []
           ∨ (List.length (buff ++ concat (removelast used)) < amount)%nat)
  | None => (List.length (buff ++ concat stream) < amount)%nat
  end.
Proof.
  revert buff. induction stream as [| d stream IH]; intros buff;
    cbn [readData]; destruct (amount <=? List.length buff)%nat eqn:E.
  - apply Nat.leb_le in E.
    destruct (resolve_read_reads amount buff [] E) as (H1 & H2 & H3 & H4).
    destruct (resolve_read amount buff) as [data lopped]. simpl in *.
    repeat split; try done. exists []. auto.
  - apply Nat.leb_gt in E. simpl. by rewrite app_nil_r.
  - apply Nat.leb_le in E.
    destruct (resolve_read_reads amount buff (d :: stream) E)
      as (H1 & H2 & H3 & H4).
    destruct (resolve_read amount buff) as [data lopped]. cbn [fst snd] in *.
    repeat split; try done. exists []. auto.
  - apply Nat.leb_gt in E.
    assert ((buff ++ d) ++ concat stream = buff ++ concat (d :: stream))
      as Hassoc by (by rewrite <- app_assoc).
    specialize (IH (buff ++ d)). rewrite Hassoc in IH.
    destruct (readData stream amount (buff ++ d)) as [[[data lopped] rest] |];
      [| done].
    destruct IH as (H1 & H2 & H3 & H4 & used & Hused & Hmin).
    repeat split; try done. exists (d :: used).
    split; [by rewrite Hused at 1 |]. right.
    destruct used as [| u used]; [simpl; by rewrite app_nil_r |].
    destruct Hmin as [? | Hmin]; [done |].
    change (removelast (d :: u :: used)) with (d :: removelast (u :: used)).
    simpl concat. by rewrite app_assoc.
Qed.

Lemma readFlowingBytes_reads (stream : list Buffer) (amount : nat)
    (preRead : option Buffer) :
  let available := default [] preRead ++ concat stream in
  match readFlowingBytes stream amount preRead with
  | Some (data, lopped, rest) =>
    (amount ≤ List.length available)%nat
    ∧ data = take amount available
    ∧ default [] lopped ++ concat rest = drop amount available
    ∧ lopped ≠ Some []
    ∧ ∃ used,
        stream = used ++ rest
        ∧ (used = []
           ∨ (List.length (default [] preRead ++ concat (removelast used))
              < amount)%nat)
  | None => (List.length available < amount)%nat
  end.
Proof.
  unfold readFlowingBytes. rewrite app_nil_r. apply readData_reads.
Qed.

(** [readFlowingBytesAsync] loses no byte and takes none twice. With
    [available] the bytes read before and those the socket delivers: the
    promise resolves exactly when [amount] bytes are available; [data] is
    the first [amount] of them; [lopped] and what the socket has not yet
    delivered are the bytes after those, in order; [lopped] is null rather
    than empty; and no buffer is taken from the socket once [amount] bytes
    have come. *)
Theorem readFlowingBytes_conserves (stream : list Buffer) (amount : nat)
    (preRead : option Buffer) :
  let available := default [] preRead ++ concat stream in
  match readFlowingBytes stream amount preRead with
  | Some (data, lopped, rest) =>
    (amount ≤ List.length available)%nat
    ∧ data = take amount available
    ∧ default [] lopped ++ concat rest = drop amount available
    ∧ lopped ≠ Some []
    ∧ ∃ used,
        stream = used ++ rest
        ∧ (used = []
           ∨ (List.length (default [] preRead ++ concat (removelast used))
              < amount)%nat)
  | None => (List.length available < amount)%nat
  end.
Proof. apply readFlowingBytes_reads. Qed.

(** ** One frame, however the socket delivers it *)





(** ** The frames of a connection *)




(** ** losing_tx *)

Lemma Set_delete_all (s txHashes : list string) :
  foldl (λ s h, Set_delete h s) s txHashes = filter (λ x, x ∉ txHashes) s.
Proof.
  revert s. induction txHashes as [| h txHashes IH]; intros s; cbn [foldl].
  - induction s as [| x s IHs]; [done |].
    rewrite filter_cons_True by apply not_elem_of_nil. by rewrite <- IHs.
  - rewrite IH. unfold Set_delete.
    induction s as [| x s IHs]; [done |]. cbn [List.filter].
    destruct (String.eqb x h) eqn:E; cbn [negb].
    + apply String.eqb_eq in E as ->.
      rewrite (filter_cons_False _ h s) by (intros Hn; apply Hn, list_elem_of_here).
      done.
    + apply String.eqb_neq in E.
      destruct (decide (x ∈ txHashes)) as [Hin | Hout].
      * rewrite filter_cons_False by (intros Hn; done).
        rewrite filter_cons_False; [done |].
        intros Hn. apply Hn. by apply elem_of_cons; right.
      * rewrite filter_cons_True by done.
        rewrite (filter_cons_True _ x s); [by rewrite IHs |].
        intros [? | ?]%elem_of_cons; done.
Qed.

(** [handleLosing_tx] triggers [losingTx] with the hashes of the message
    and takes exactly those hashes out of [remoteTxHashs]: the others stay,
    in the order they were inserted in; a hash that was not in the set is
    passed over. The socket is left alone. *)
Theorem handleLosing_tx_removes (txHashes : list string) (n : t) :
  let n' := handleLosing_tx txHashes n in
  remoteTxHashs n' = filter (λ x, x ∉ txHashes) (remoteTxHashs n)
  ∧ (∀ h, h ∈ remoteTxHashs n' ↔ h ∈ remoteTxHashs n ∧ h ∉ txHashes)
  ∧ (List.length (remoteTxHashs n') ≤ List.length (remoteTxHashs n))%nat
  ∧ events n' = events n ++ [LosingTx txHashes]
  ∧ socket n' = socket n.
Proof.
  intros n'.
  assert (remoteTxHashs n' = filter (λ x, x ∉ txHashes) (remoteTxHashs n)) as Heq
    by (unfold n', handleLosing_tx; simpl; apply Set_delete_all).
  split; [done |]. rewrite Heq. split; [| split; [| done]].
  - intros h. rewrite list_elem_of_filter. tauto.
  - apply length_filter.
Qed.

End NodeProperties.

(* ===================================================================== *)
(** * Properties of the coordinator *)
(* ===================================================================== *)

Module PeerProperties.

Import Sharechain Peer.

Section Coordinator.

Context {Chain : Type}.
Variable chain_has : Chain → string → bool.
Variable chain_add : Chain → list BaseShare → Chain * list (list Gap).
Variable chain_fix : Chain → Chain * list (list Gap).
Variable chain_checkGaps : Chain → Chain * list (list Gap).
Variable shuffle : list Gap → list Gap.

Local Abbreviation gapsFound := (Peer.handleGapsFound (Chain := Chain) shuffle).
Local Abbreviation sharereply :=
  (Peer.handleSharereply chain_has chain_add chain_fix chain_checkGaps shuffle).

Lemma sends_fields (req : PeerNode → TypeSharereq) (nodes : list PeerNode)
    (p : t Chain) :
  let p' := foldl (λ p node, send node (req node) p) p nodes in
  pendingShareRequests p' = pendingShareRequests p
  ∧ peers p' = peers p
  ∧ sharechain p' = sharechain p
  ∧ sent p' = sent p ++ List.map (λ node, (tag node, req node)) nodes.
Proof.
  revert p. induction nodes as [| node nodes IH]; intros p; simpl.
  - by rewrite app_nil_r.
  - destruct (IH (send node (req node) p)) as (H1 & H2 & H3 & H4).
    rewrite H1, H2, H3, H4. simpl. by rewrite <- app_assoc.
Qed.

(** A gap whose request is pending is passed over. *)
Lemma request_gap_pending (sorted : list PeerNode) (p : t Chain) (gap : Gap) :
  requestId_of gap ∈ pendingShareRequests p → request_gap sorted p gap = p.
Proof. intros H. unfold request_gap. by rewrite bool_decide_eq_true_2. Qed.

(** Requests stay pending through [handleGapsFound]. *)
Lemma request_gap_keeps (sorted : list PeerNode) (p : t Chain) (gap : Gap)
    (key : string) :
  key ∈ pendingShareRequests p →
  key ∈ pendingShareRequests (request_gap sorted p gap).
Proof.
  intros H. unfold request_gap. case_bool_decide; [done |]. simpl.
  match goal with
  | |- context [foldl ?f p ?l] =>
    destruct (sends_fields
                (λ node, {| id := Bignum_of_hex (requestId_of gap);
                            hashes := [descendent gap];
                            parents := Z.min (length gap)
                                         (if isJs2PoolPeer node then 250 else 79) |})
                l p) as (Hp & _)
  end.
  simpl in Hp. rewrite Hp. apply elem_of_union. by right.
Qed.

Lemma handleGapsFound_keeps (p : t Chain) (gaps : list Gap) (key : string) :
  key ∈ pendingShareRequests p →
  key ∈ pendingShareRequests (gapsFound p gaps).
Proof.
  intros H. unfold handleGapsFound.
  case_bool_decide as Hpeers; [done |]. case_bool_decide as Hgaps; [done |].
  clear Hpeers Hgaps. generalize (js2pool_first (peers p)) as sorted.
  generalize (if 1 <? Z.of_nat (List.length gaps) then shuffle gaps else gaps).
  intros l sorted. revert p H.
  induction l as [| gap l IH]; intros p H; [done |].
  simpl. apply IH. by apply request_gap_keeps.
Qed.

Lemma on_chain_keeps (op : Chain → Chain * list (list Gap)) (p : t Chain)
    (key : string) :
  key ∈ pendingShareRequests p →
  key ∈ pendingShareRequests (on_chain shuffle op p).
Proof.
  intros H. unfold on_chain. destruct (op (sharechain p)) as [c found].
  assert (key ∈ pendingShareRequests (set_sharechain c p)) as H' by done.
  revert H'. generalize (set_sharechain c p).
  induction found as [| gaps found IH]; intros p' H'; [done |].
  simpl. apply IH. by apply handleGapsFound_keeps.
Qed.

(** A reply with result 0 removes the text of its id, and only that. *)
Lemma handleSharereply_pending (p : t Chain) (reply : TypeSharereply)
    (key : string) :
  result reply = 0 → key ∈ pendingShareRequests p →
  key ∈ pendingShareRequests (sharereply p reply)
  ↔ key ≠ Bignum_toString16 (reply_id reply).
Proof.
  intros Hr H. unfold handleSharereply. rewrite Hr. simpl.
  match goal with
  | |- context [on_chain shuffle ?op ?q] =>
    assert (key ∈ pendingShareRequests (on_chain shuffle op q)) as H'
  end.
  { apply on_chain_keeps. case_bool_decide; [by apply on_chain_keeps | done]. }
  cbn [pendingShareRequests set_pending].
  rewrite elem_of_difference, elem_of_singleton.
  split; [by intros [_ ?] | by intros ?].
Qed.

Definition a_gap : Gap :=
  {| descendent :=
       "aaaaaaaaaaaaaaaaaaaaaaaaaaaaaaaaaaaaaaaaaaaaaaaaaaaaaaaaaaaaaaaa";
     descendentHeight := 100;
     length := 13 |}.

Definition a_node : PeerNode := {| tag := "10.0.0.1:9333"; isJs2PoolPeer := false |}.

Lemma requestId_of_a_gap :
  requestId_of a_gap
  = "00f3bc262cae8f71c3f4e3d74585aa21f7ea96bc64871336690a89f02107bf0f"%string.
Proof. vm_compute. reflexivity. Qed.

Lemma handleGapsFound_single (p : t Chain) (gap : Gap) :
  peers p ≠ [] →
  gapsFound p [gap] = request_gap (js2pool_first (peers p)) p gap.
Proof.
  intros H. unfold handleGapsFound.
  rewrite bool_decide_eq_false_2 by done.
  rewrite bool_decide_eq_false_2 by done. reflexivity.
Qed.

Lemma request_gap_new (sorted : list PeerNode) (p : t Chain) (gap : Gap) :
  requestId_of gap ∉ pendingShareRequests p →
  pendingShareRequests (request_gap sorted p gap)
  = {[requestId_of gap]} ∪ pendingShareRequests p
  ∧ sent (request_gap sorted p gap)
    = sent p
      ++ List.map
           (λ node, (tag node,
                     {| id := Bignum_of_hex (requestId_of gap);
                        hashes := [descendent gap];
                        parents := Z.min (length gap)
                                     (if isJs2PoolPeer node then 250 else 79) |}))
           (take 8 sorted).
Proof.
  intros H. unfold request_gap. rewrite bool_decide_eq_false_2 by done.
  cbn [pendingShareRequests sent set_pending].
  match goal with
  | |- context [foldl ?f p ?l] =>
    destruct (sends_fields
                (λ node, {| id := Bignum_of_hex (requestId_of gap);
                            hashes := [descendent gap];
                            parents := Z.min (length gap)
                                         (if isJs2PoolPeer node then 250 else 79) |})
                l p) as (Hp & _ & _ & Hs)
  end.
  cbv zeta in Hp, Hs. by rewrite Hp, Hs.
Qed.

(** C6, at a request id that begins with a zero byte: the gap of length
    13 below the share [aa...a] has the request id [00f3bc26...]. The
    request is sent to the one peer and recorded under that key. The reply
    with result 0 carries the id as a number, whose text in base 16 has
    lost the leading zero byte, so the key stays in
    [pendingShareRequests], and [gapsFound] for the same gap sends
    nothing. *)
Theorem sharereply_leaves_request_pending
    (chain0 : Chain) (shares : list BaseShare) :
  let p0 := {| sharechain := chain0; pendingShareRequests := ∅;
               peers := [a_node]; sent := [] |} in
  let p1 := gapsFound p0 [a_gap] in
  let reply := {| reply_id := Bignum_of_hex (requestId_of a_gap);
                  result := 0; contents := shares |} in
  let p2 := sharereply p1 reply in
  sent p1 = [(tag a_node,
              {| id := Bignum_of_hex (requestId_of a_gap);
                 hashes := [descendent a_gap]; parents := 13 |})]
  ∧ pendingShareRequests p1 = {[requestId_of a_gap]}
  ∧ Bignum_toString16 (reply_id reply)
    = "f3bc262cae8f71c3f4e3d74585aa21f7ea96bc64871336690a89f02107bf0f"%string
  ∧ requestId_of a_gap ∈ pendingShareRequests p2
  ∧ gapsFound p2 [a_gap] = p2.
Proof.
  intros p0 p1 reply p2.
  assert (requestId_of a_gap ∉ pendingShareRequests p0) as Hfresh
    by apply not_elem_of_empty.
  destruct (request_gap_new (js2pool_first (peers p0)) p0 a_gap Hfresh)
    as [Hpending Hsent].
  assert (p1 = request_gap (js2pool_first (peers p0)) p0 a_gap) as Hp1
    by (by apply handleGapsFound_single).
  rewrite <- Hp1 in Hpending, Hsent.
  assert (pendingShareRequests p1 = {[requestId_of a_gap]}) as Hkey.
  { rewrite Hpending. apply (right_id_L ∅ (∪)). }
  assert (Bignum_toString16 (reply_id reply)
          = "f3bc262cae8f71c3f4e3d74585aa21f7ea96bc64871336690a89f02107bf0f"%string)
    as Htext by (vm_compute; reflexivity).
  assert (requestId_of a_gap ∈ pendingShareRequests p2) as Hp2.
  { apply handleSharereply_pending.
    - reflexivity.
    - rewrite Hkey. by apply elem_of_singleton.
    - rewrite Htext, requestId_of_a_gap. discriminate. }
  split; [exact Hsent |]. split; [exact Hkey |]. split; [exact Htext |].
  split; [exact Hp2 |].
  unfold handleGapsFound.
  case_bool_decide as Hpeers; [reflexivity |].
  rewrite bool_decide_eq_false_2 by done.
  cbn [foldl List.length Z.of_nat Z.ltb Z.compare Pos.of_succ_nat Pos.compare Pos.compare_cont].
  by apply request_gap_pending.
Qed.

Lemma request_gap_peers (sorted : list PeerNode) (p : t Chain) (gap : Gap) :
  peers (request_gap sorted p gap) = peers p.
Proof.
  unfold request_gap. case_bool_decide; [done |].
  cbn [peers set_pending].
  match goal with
  | |- context [foldl ?f p ?l] =>
    destruct (sends_fields
                (λ node, {| id := Bignum_of_hex (requestId_of gap);
                            hashes := [descendent gap];
                            parents := Z.min (length gap)
                                         (if isJs2PoolPeer node then 250 else 79) |})
                l p) as (_ & Hp & _)
  end.
  exact Hp.
Qed.

Lemma handleGapsFound_peers (p : t Chain) (gaps : list Gap) :
  peers (gapsFound p gaps) = peers p.
Proof.
  unfold handleGapsFound.
  case_bool_decide as Hpeers; [done |]. case_bool_decide as Hgaps; [done |].
  clear Hpeers Hgaps. generalize (js2pool_first (peers p)) as sorted.
  generalize (if 1 <? Z.of_nat (List.length gaps) then shuffle gaps else gaps).
  intros l sorted. revert p.
  induction l as [| gap l IH]; intros p; [done |].
  simpl. by rewrite IH, request_gap_peers.
Qed.

Lemma on_chain_peers (op : Chain → Chain * list (list Gap)) (p : t Chain) :
  peers (on_chain shuffle op p) = peers p.
Proof.
  unfold on_chain. destruct (op (sharechain p)) as [c found].
  change (peers p) with (peers (set_sharechain c p)).
  generalize (set_sharechain c p).
  induction found as [| gaps found IH]; intros p'; [done |].
  simpl. by rewrite IH, handleGapsFound_peers.
Qed.



(** ** gapsFound: what is sent *)

(** The request that one peer is sent for one gap. *)
Definition sharereq_for (gap : Gap) (node : PeerNode) : string * TypeSharereq :=
  (tag node,
   {| id := Bignum_of_hex (requestId_of gap);
      hashes := [descendent gap];
      parents := Z.min (length gap) (if isJs2PoolPeer node then 250 else 79) |}).

Lemma request_gap_frame (sorted : list PeerNode) (p : t Chain) (gap : Gap) :
  sharechain (request_gap sorted p gap) = sharechain p
  ∧ peers (request_gap sorted p gap) = peers p.
Proof.
  unfold request_gap. case_bool_decide; [done |].
  cbn [sharechain peers set_pending].
  match goal with
  | |- context [foldl ?f p ?l] =>
    destruct (sends_fields
                (λ node, {| id := Bignum_of_hex (requestId_of gap);
                            hashes := [descendent gap];
                            parents := Z.min (length gap)
                                         (if isJs2PoolPeer node then 250 else 79) |})
                l p) as (_ & Hp & Hc & _)
  end.
  done.
Qed.

(** The loop over the gaps. *)
Lemma request_gaps_sent (sorted : list PeerNode) (gaps : list Gap) (p : t Chain) :
  let p' := foldl (request_gap sorted) p gaps in
  ∃ new,
    sent p' = sent p ++ new
    ∧ (List.length new ≤ 8 * List.length gaps)%nat
    ∧ (∀ m, m ∈ new →
         ∃ gap node, gap ∈ gaps ∧ node ∈ take 8 sorted
                     ∧ (requestId_of gap ∉ pendingShareRequests p)
                     ∧ m = sharereq_for gap node)
    ∧ pendingShareRequests p'
      = pendingShareRequests p ∪ list_to_set (requestId_of <$> gaps)
    ∧ sharechain p' = sharechain p ∧ peers p' = peers p.
Proof.
  revert p. induction gaps as [| gap gaps IH]; intros p; cbn [foldl].
  { exists []. rewrite app_nil_r. split; [done |]. split; [simpl; lia |].
    split; [by intros m ?%elem_of_nil |]. split; [| done].
    simpl. by rewrite (right_id_L ∅ (∪)). }
  destruct (IH (request_gap sorted p gap))
    as (new & Hsent & Hlen & Hnew & Hpending & Hchain & Hpeers).
  destruct (request_gap_frame sorted p gap) as [Hc1 Hp1].
  destruct (decide (requestId_of gap ∈ pendingShareRequests p)) as [Hin | Hout].
  - rewrite (request_gap_pending _ _ _ Hin) in *.
    exists new. split; [done |]. split; [simpl; lia |]. split; [| split].
    + intros m Hm. destruct (Hnew m Hm) as (g & node & Hg & Hnode & Hid & ->).
      exists g, node. split; [by apply elem_of_cons; right | done].
    + rewrite Hpending, fmap_cons. cbn [list_to_set].
      apply set_eq. intros key.
      rewrite !elem_of_union, elem_of_singleton. split; [tauto |].
      intros [? | [-> | ?]]; auto.
    + done.
  - destruct (request_gap_new sorted p gap Hout) as [Hpend1 Hsent1].
    exists (List.map (λ node, sharereq_for gap node) (take 8 sorted) ++ new).
    split; [by rewrite Hsent, Hsent1, <- app_assoc |]. split; [| split; [| split]].
    + rewrite length_app, length_map, length_take. cbn [List.length]. lia.
    + intros m Hm. apply elem_of_app in Hm as [Hm | Hm].
      * apply list_elem_of_In, in_map_iff in Hm as (node & <- & Hnode).
        exists gap, node. split; [apply list_elem_of_here |].
        split; [by apply list_elem_of_In | done].
      * destruct (Hnew m Hm) as (g & node & Hg & Hnode & Hid & ->).
        exists g, node. split; [by apply elem_of_cons; right |].
        split; [done |]. split; [| done].
        intros Hp. apply Hid. rewrite Hpend1. apply elem_of_union. by right.
    + rewrite Hpending, Hpend1, fmap_cons. cbn [list_to_set].
      by rewrite (assoc_L (∪)), (comm_L (∪) {[requestId_of gap]}).
    + split; [by rewrite Hchain | by rewrite Hpeers].
Qed.

Lemma request_gaps_pending (sorted : list PeerNode) (gaps : list Gap) (p : t Chain) :
  (∀ gap, gap ∈ gaps → requestId_of gap ∈ pendingShareRequests p) →
  foldl (request_gap sorted) p gaps = p.
Proof.
  induction gaps as [| gap gaps IH]; intros Hall; [done |]. cbn [foldl].
  rewrite request_gap_pending by (apply Hall, list_elem_of_here).
  apply IH. intros g Hg. apply Hall. by apply elem_of_cons; right.
Qed.

Lemma elem_of_js2pool_first (l : list PeerNode) (node : PeerNode) :
  node ∈ js2pool_first l ↔ node ∈ l.
Proof.
  unfold js2pool_first. rewrite elem_of_app, !list_elem_of_In, !filter_In,
    <- !list_elem_of_In.
  destruct (isJs2PoolPeer node); simpl; split; try tauto;
    intros [[? ?] | [? ?]]; done.
Qed.

(** What one [gapsFound] event makes the coordinator send, when
    [MathEx.shuffle] gives the gaps back in some order. Every request goes
    to a connected peer, for a gap of the event whose request was not
    pending, with the gap's descendant as the only hash and at most 250
    parents (79 for a peer that is not a js2pool peer), never more than
    the gap is long; a gap gets 8 requests at most; each gap of the event
    is pending afterwards; and with no peer connected nothing happens. *)
Theorem handleGapsFound_requests (p : t Chain) (gaps : list Gap) :
  (∀ l, shuffle l ≡ₚ l) →
  let p' := gapsFound p gaps in
  ∃ new,
    sent p' = sent p ++ new
    ∧ (List.length new ≤ 8 * List.length gaps)%nat
    ∧ (∀ m, m ∈ new →
         ∃ gap node,
           gap ∈ gaps ∧ node ∈ peers p
           ∧ (requestId_of gap ∉ pendingShareRequests p)
           ∧ m = sharereq_for gap node
           ∧ parents (snd m) ≤ 250 ∧ parents (snd m) ≤ length gap)
    ∧ (peers p ≠ [] →
       pendingShareRequests p'
       = pendingShareRequests p ∪ list_to_set (requestId_of <$> gaps))
    ∧ (peers p = [] → p' = p)
    ∧ sharechain p' = sharechain p ∧ peers p' = peers p.
Proof.
  intros Hshuffle p'. unfold p', handleGapsFound.
  case_bool_decide as Hpeers.
  { exists []. rewrite app_nil_r. split; [done |]. split; [simpl; lia |].
    split; [by intros m ?%elem_of_nil | done]. }
  case_bool_decide as Hgaps.
  { exists []. rewrite app_nil_r. split; [done |]. split; [simpl; lia |].
    split; [by intros m ?%elem_of_nil |]. split; [| done].
    intros _. rewrite Hgaps. simpl. by rewrite (right_id_L ∅ (∪)). }
  set (randomGaps := if 1 <? Z.of_nat (List.length gaps)
                     then shuffle gaps else gaps).
  assert (randomGaps ≡ₚ gaps) as Hperm
    by (unfold randomGaps; destruct (1 <? _); [apply Hshuffle | done]).
  destruct (request_gaps_sent (js2pool_first (peers p)) randomGaps p)
    as (new & Hsent & Hlen & Hnew & Hpending & Hchain & Hsame).
  exists new. split; [done |]. split; [by rewrite <- Hperm |].
  split; [| split; [| done]].
  - intros m Hm. destruct (Hnew m Hm) as (g & node & Hg & Hnode & Hid & ->).
    exists g, node. split; [by rewrite <- Hperm |].
    split; [by apply elem_of_js2pool_first, (subseteq_take 8) |].
    split; [done |]. split; [done |]. unfold sharereq_for. cbn [snd parents].
    destruct (isJs2PoolPeer node); lia.
  - intros _. rewrite Hpending. f_equal. apply set_eq. intros key.
    rewrite !elem_of_list_to_set. by rewrite Hperm.
Qed.

(** A [gapsFound] event that names only gaps of an event handled before
    sends nothing and changes nothing: their requests are pending. *)
Theorem handleGapsFound_again_sends_nothing (p : t Chain) (gaps again : list Gap) :
  (∀ l, shuffle l ≡ₚ l) →
  (∀ gap, gap ∈ again → gap ∈ gaps) →
  gapsFound (gapsFound p gaps) again = gapsFound p gaps.
Proof.
  intros Hshuffle Hsub.
  pose proof (handleGapsFound_peers p gaps) as Hsame.
  destruct (decide (peers p = [])) as [Hnone | Hpeers].
  { unfold handleGapsFound at 1. by rewrite Hsame, bool_decide_eq_true_2. }
  assert (∀ gap, gap ∈ gaps →
            requestId_of gap ∈ pendingShareRequests (gapsFound p gaps)) as Hpending.
  { intros gap Hgap. unfold handleGapsFound.
    rewrite bool_decide_eq_false_2 by done.
    case_bool_decide as Hgaps; [rewrite Hgaps in Hgap; by apply elem_of_nil in Hgap |].
    set (randomGaps := if 1 <? Z.of_nat (List.length gaps)
                       then shuffle gaps else gaps).
    assert (randomGaps ≡ₚ gaps) as Hperm
      by (unfold randomGaps; destruct (1 <? _); [apply Hshuffle | done]).
    destruct (request_gaps_sent (js2pool_first (peers p)) randomGaps p)
      as (_ & _ & _ & _ & -> & _).
    apply elem_of_union. right. apply elem_of_list_to_set, list_elem_of_fmap.
    exists gap. split; [done |]. by rewrite Hperm. }
  unfold handleGapsFound at 1.
  case_bool_decide; [done |]. case_bool_decide; [done |].
  apply request_gaps_pending. intros gap Hgap. apply Hpending, Hsub.
  destruct (1 <? _); [by rewrite Hshuffle in Hgap | done].
Qed.

Lemma handleGapsFound_pending_single (p : t Chain) (gap : Gap) :
  requestId_of gap ∈ pendingShareRequests p → gapsFound p [gap] = p.
Proof.
  intros Hkey. unfold handleGapsFound.
  case_bool_decide as Hpeers; [done |].
  rewrite bool_decide_eq_false_2 by done.
  change (1 <? Z.of_nat (List.length [gap])) with false.
  cbn [foldl]. by apply request_gap_pending.
Qed.

(** A reply whose result is not 0 removes no request: every request that
    was pending stays pending, whatever the chain reports when its gaps are
    checked, and [gapsFound] for the gap of such a request still sends
    nothing afterwards. *)
Theorem sharereply_not_ok_keeps_pending
    (p : t Chain) (reply : TypeSharereply) (gap : Gap) :
  result reply ≠ 0 →
  requestId_of gap ∈ pendingShareRequests p →
  let p' := sharereply p reply in
  (∀ key, key ∈ pendingShareRequests p → key ∈ pendingShareRequests p')
  ∧ gapsFound p' [gap] = p'
  ∧ peers p' = peers p.
Proof.
  intros Hresult Hkey p'.
  assert (p' = on_chain shuffle chain_checkGaps p) as ->.
  { unfold p', handleSharereply.
    assert ((result reply =? 0) = false) as -> by (by apply Z.eqb_neq). done. }
  split; [| split].
  - intros key Hin. by apply on_chain_keeps.
  - apply handleGapsFound_pending_single. by apply on_chain_keeps.
  - apply on_chain_peers.
Qed.

End Coordinator.

(** A chain that triggers no event, for the example below. *)
Definition quiet_chain_op : unit → unit * list (list Gap) := λ c, (c, []).

Definition gap_of_length_1 : Gap :=
  {| descendent :=
       "aaaaaaaaaaaaaaaaaaaaaaaaaaaaaaaaaaaaaaaaaaaaaaaaaaaaaaaaaaaaaaaa";
     descendentHeight := 100;
     length := 1 |}.

Definition one_peer : t unit :=
  {| sharechain := tt; pendingShareRequests := {[requestId_of gap_of_length_1]};
     peers := [a_node]; sent := [] |}.


Lemma sharereply_not_ok_keeps_pending_witness :
  let reply := {| reply_id := 7%N; result := 2; contents := [] |} in
  let p' := Peer.handleSharereply (λ _ _, false) (λ c _, quiet_chain_op c)
              quiet_chain_op quiet_chain_op (λ gaps, gaps) one_peer reply in
  (∀ key, key ∈ pendingShareRequests one_peer → key ∈ pendingShareRequests p')
  ∧ Peer.handleGapsFound (λ gaps, gaps) p' [gap_of_length_1] = p'
  ∧ peers p' = peers one_peer.
Proof.
  apply (sharereply_not_ok_keeps_pending (λ _ _, false) (λ c _, quiet_chain_op c)
           quiet_chain_op quiet_chain_op (λ gaps, gaps) one_peer
           {| reply_id := 7%N; result := 2; contents := [] |} gap_of_length_1).
  - discriminate.
  - apply elem_of_singleton. reflexivity.
Defined.

Definition two_peers : t unit :=
  {| sharechain := tt; pendingShareRequests := ∅;
     peers := [a_node; {| tag := "10.0.0.2:9333"; isJs2PoolPeer := true |}];
     sent := [] |}.

Lemma handleGapsFound_requests_witness :
  let p' := Peer.handleGapsFound (λ gaps, gaps) two_peers
              [a_gap; gap_of_length_1] in
  ∃ new,
    sent p' = sent two_peers ++ new
    ∧ (List.length new ≤ 8 * List.length [a_gap; gap_of_length_1])%nat
    ∧ (∀ m, m ∈ new →
         ∃ gap node,
           gap ∈ [a_gap; gap_of_length_1] ∧ node ∈ peers two_peers
           ∧ (requestId_of gap ∉ pendingShareRequests two_peers)
           ∧ m = sharereq_for gap node
           ∧ parents (snd m) ≤ 250 ∧ parents (snd m) ≤ length gap)
    ∧ (peers two_peers ≠ [] →
       pendingShareRequests p'
       = pendingShareRequests two_peers
         ∪ list_to_set (requestId_of <$> [a_gap; gap_of_length_1]))
    ∧ (peers two_peers = [] → p' = two_peers)
    ∧ sharechain p' = sharechain two_peers ∧ peers p' = peers two_peers.
Proof.
  apply (handleGapsFound_requests (λ gaps, gaps) two_peers
           [a_gap; gap_of_length_1]).
  intros l. reflexivity.
Defined.

Lemma handleGapsFound_again_sends_nothing_witness :
  Peer.handleGapsFound (λ gaps, gaps)
    (Peer.handleGapsFound (λ gaps, gaps) two_peers [a_gap; gap_of_length_1])
    [gap_of_length_1]
  = Peer.handleGapsFound (λ gaps, gaps) two_peers [a_gap; gap_of_length_1].
Proof.
  apply (handleGapsFound_again_sends_nothing (λ gaps, gaps) two_peers
           [a_gap; gap_of_length_1] [gap_of_length_1]).
  - intros l. reflexivity.
  - intros gap Hgap. apply list_elem_of_singleton in Hgap as ->.
    apply elem_of_cons. right. apply list_elem_of_here.
Defined.

(** ** sharereq *)

Section Requests.

Context {Chain : Type}.
Variable chain_subchain : Chain → string → Z → Direction → list BaseShare.

Lemma until_stop_shares (stops : list string) (shares : list BaseShare) :
  (List.length (until_stop stops shares) ≤ List.length shares)%nat
  ∧ (∀ s, s ∈ until_stop stops shares → (hash s ∉ stops) ∧ s ∈ shares)
  ∧ ∃ rest, shares = until_stop stops shares ++ rest
            ∧ ∀ s, head rest = Some s → hash s ∈ stops.
Proof.
  induction shares as [| share shares (Hlen & Hin & rest & Hrest & Hhead)].
  { simpl. split; [done |]. split; [by intros s ?%elem_of_nil |].
    exists []. done. }
  cbn [until_stop]. case_bool_decide as Hstop.
  - split; [simpl; lia |]. split; [by intros s ?%elem_of_nil |].
    exists (share :: shares). split; [done |]. intros s Hs. by injection Hs as <-.
  - split; [simpl; lia |]. split.
    + intros s [-> | Hs]%elem_of_cons.
      * split; [done | apply list_elem_of_here].
      * destruct (Hin s Hs). split; [done | by apply elem_of_cons; right].
    + exists rest. split; [| done]. simpl. by rewrite <- Hrest.
Qed.

Lemma length_concat_bound (runs : list (list BaseShare)) (bound : Z) :
  (∀ run, run ∈ runs → Z.of_nat (List.length run) ≤ bound) →
  Z.of_nat (List.length (concat runs)) ≤ Z.of_nat (List.length runs) * bound.
Proof.
  induction runs as [| run runs IH]; intros Hall; [simpl; lia |].
  cbn [concat]. rewrite length_app.
  specialize (Hall run (list_elem_of_here _ _)) as Hrun.
  assert (Z.of_nat (List.length (concat runs))
          ≤ Z.of_nat (List.length runs) * bound) as Hruns.
  { apply IH. intros r Hr. apply Hall. by apply elem_of_cons; right. }
  cbn [List.length]. lia.
Qed.

(** The reply to a [sharereq] whose [parents] is not negative, when
    [subchain] yields no more shares than it is asked for. The reply
    carries the id of the request; its result is 2 with no share, or 0 with
    the shares found; it never holds more than 500 shares, nor more than
    100 for each hash for a peer that is not a js2pool peer; no share in it
    has a hash among the stops; and every share comes from the subchain of
    one of the hashes, walked backward. A request with no hash, or with
    more than 500, gets the result 2. *)
Theorem handleSharereq_reply (c : Chain) (sender : PeerNode)
    (request : TypeSharereq) (stops : list string) :
  (∀ h n, 0 ≤ n →
     Z.of_nat (List.length (chain_subchain c h n backward)) ≤ n) →
  0 ≤ parents request →
  let reply := handleSharereq chain_subchain c sender request stops in
  reply_id reply = id request
  ∧ ((result reply = 2 ∧ contents reply = [])
     ∨ (result reply = 0 ∧ contents reply ≠ []))
  ∧ Z.of_nat (List.length (contents reply)) ≤ 500
  ∧ (isJs2PoolPeer sender = false →
     Z.of_nat (List.length (contents reply))
     ≤ 100 * Z.of_nat (List.length (hashes request)))
  ∧ (∀ s, s ∈ contents reply →
       (hash s ∉ stops)
       ∧ ∃ h n, h ∈ hashes request ∧ 0 ≤ n ≤ parents request
                ∧ s ∈ chain_subchain c h n backward)
  ∧ (hashes request = [] ∨ 500 < Z.of_nat (List.length (hashes request)) →
     result reply = 2).
Proof.
  intros Hsub Hparents reply.
  set (count := Z.of_nat (List.length (hashes request))).
  set (n := Z.min (Z.min (parents request) (shares_per_hash (hashes request)))
              (if isJs2PoolPeer sender then 500 else 100)).
  set (runs := List.map
                 (λ h, until_stop stops (chain_subchain c h n backward))
                 (hashes request)).
  assert (0 ≤ shares_per_hash (hashes request)
          ∧ count * shares_per_hash (hashes request) ≤ 500
          ∧ (hashes request = [] ∨ 500 < count →
             shares_per_hash (hashes request) = 0)) as Hper.
  { unfold shares_per_hash, count. case_bool_decide as Hnil.
    - rewrite Hnil. simpl. lia.
    - assert (0 < Z.of_nat (List.length (hashes request))) as Hpos
        by (destruct (hashes request); [done | simpl; lia]).
      split; [apply Z.div_pos; lia |]. split; [by apply Z.mul_div_le |].
      intros [? | Hmany]; [done |]. apply Z.div_small. lia. }
  assert (0 ≤ n ≤ parents request) as Hn
    by (unfold n; destruct (isJs2PoolPeer sender); lia).
  assert (∀ run, run ∈ runs → Z.of_nat (List.length run) ≤ n) as Hruns.
  { intros run Hrun. apply list_elem_of_In, in_map_iff in Hrun as (h & <- & _).
    destruct (until_stop_shares stops (chain_subchain c h n backward))
      as (Hlen & _).
    specialize (Hsub h n (proj1 Hn)). lia. }
  assert (Z.of_nat (List.length (concat runs)) ≤ count * n) as Hlength.
  { pose proof (length_concat_bound runs n Hruns) as Hb.
    unfold runs in Hb at 2. by rewrite length_map in Hb. }
  assert (∀ s, s ∈ concat runs →
            (hash s ∉ stops)
            ∧ ∃ h m, h ∈ hashes request ∧ 0 ≤ m ≤ parents request
                     ∧ s ∈ chain_subchain c h m backward) as Hfrom.
  { intros s Hs. apply list_elem_of_In, in_concat in Hs as (run & Hrun & Hs).
    apply in_map_iff in Hrun as (h & <- & Hh). apply list_elem_of_In in Hs.
    destruct (until_stop_shares stops (chain_subchain c h n backward))
      as (_ & Hin & _).
    destruct (Hin s Hs) as [Hstop Hmem]. split; [done |].
    exists h, n. split; [by apply list_elem_of_In | done]. }
  assert (reply = if bool_decide (concat runs = [])
                  then {| reply_id := id request; result := 2; contents := [] |}
                  else {| reply_id := id request; result := 0;
                          contents := concat runs |}) as Hreply by done.
  clearbody reply. subst reply.
  case_bool_decide as Hempty; cbn [reply_id result contents].
  - split; [done |]. split; [by left |]. split; [simpl; lia |].
    split; [simpl; lia |]. split; [by intros s ?%elem_of_nil | done].
  - split; [done |]. split; [by right |]. split; [| split; [| split; [done |]]].
    + destruct Hper as (? & ? & _). nia.
    + intros Hjs. unfold n in Hlength. rewrite Hjs in Hlength. fold count. nia.
    + intros Hmany. destruct Hempty.
      assert (n = 0) as Hzero.
      { destruct Hper as (? & _ & Hzero). specialize (Hzero Hmany). lia. }
      rewrite Hzero in Hlength.
      destruct (concat runs); [done | simpl in Hlength; lia].
Qed.

End Requests.

(** The store of the share chain in the place of the coordinator's chain;
    [while (length--)] makes as many rounds as the length says. *)
Definition store_subchain (c : Sharechain.t) (h : string) (n : Z)
    (direction : Direction) : list BaseShare :=
  Sharechain.subchain c h (Z.to_nat n) direction.

Lemma handleSharereq_reply_witness :
  let request := {| id := 7%N; hashes := ["b"]; parents := 5 |} in
  let reply := handleSharereq store_subchain SharechainProperties.store_200
                 a_node request [] in
  reply_id reply = id request
  ∧ ((result reply = 2 ∧ contents reply = [])
     ∨ (result reply = 0 ∧ contents reply ≠ []))
  ∧ Z.of_nat (List.length (contents reply)) ≤ 500
  ∧ (isJs2PoolPeer a_node = false →
     Z.of_nat (List.length (contents reply))
     ≤ 100 * Z.of_nat (List.length (hashes request)))
  ∧ (∀ s, s ∈ contents reply →
       (hash s ∉ [])
       ∧ ∃ h n, h ∈ hashes request ∧ 0 ≤ n ≤ parents request
                ∧ s ∈ store_subchain SharechainProperties.store_200 h n backward)
  ∧ (hashes request = [] ∨ 500 < Z.of_nat (List.length (hashes request)) →
     result reply = 2).
Proof.
  apply (handleSharereq_reply store_subchain SharechainProperties.store_200
           a_node {| id := 7%N; hashes := ["b"]; parents := 5 |} []).
  - intros h n Hn. unfold store_subchain.
    pose proof (SharechainProperties.subchain_length
                  SharechainProperties.store_200 h (Z.to_nat n) backward).
    lia.
  - simpl. lia.
Defined.

End PeerProperties.
